(** * GovNavigator retrieval engine: lexical TF-IDF index and embedding index

    A shallow embedding of [src/search/index.py] and
    [src/search/embeddings.py], followed by the properties of the
    specification that concern them.

    Conventions of the embedding.
    - A Python [str] is a Rocq [string]; its characters are read as the
      code points U+0000 to U+00FF, and the character tables below are
      Python's tables for that range.
    - A Python [float] is a real number: rounding of the arithmetic is
      not modelled; [math.log] is [ln] and [math.sqrt] is [sqrt] on
      their domains and [ValueError] outside.
    - A raised exception is the [Raise] branch of [pyresult].
    - [json.dump] and [json.load] are library code: a snapshot is the
      data that they exchange, in which a tuple has become an array.
    - The inverted index and the IDF table are finite maps; the two
      dictionaries whose iteration order the code relies on
      ([term_counts] and [doc_scores]) are association lists in insertion
      order. *)

From Stdlib Require Import Reals Lra Lia ZArith String Ascii List Permutation Sorted.
From stdpp Require Import gmap strings list fin_maps pretty.

Open Scope string_scope.
Open Scope nat_scope.
Open Scope list_scope.

(* ===================================================================== *)
(** * Part I: definitions                                                 *)
(* ===================================================================== *)

(** ** Exceptions *)

Inductive exn : Type :=
| IndexError
| KeyError (key : string)
| ValueError
| ZeroDivisionError
| EmbedderError (message : string).

Inductive pyresult (A : Type) : Type :=
| Ok (a : A)
| Raise (e : exn).
Arguments Ok {A} a.
Arguments Raise {A} e.

#[global] Instance pyresult_ret : MRet pyresult := fun _ a => Ok a.
#[global] Instance pyresult_bind : MBind pyresult := fun _ _ f m =>
  match m with
  | Ok a => f a
  | Raise e => Raise e
  end.

(** ** Python strings *)

Module PyStr.

Definition code (c : ascii) : nat := nat_of_ascii c.

Definition between (lo hi n : nat) : bool := (lo <=? n) && (n <=? hi).

(** [str.isspace]: what [\s] matches and what [str.split()] splits on. *)
Definition is_space (c : ascii) : bool :=
  let n := code c in
  between 9 13 n || between 28 32 n || (n =? 133) || (n =? 160).

(** [str.isalnum]: letters, digits and numeric characters. *)
Definition is_alnum (c : ascii) : bool :=
  let n := code c in
  between 48 57 n || between 65 90 n || between 97 122 n
  || (n =? 170) || (n =? 178) || (n =? 179) || (n =? 181)
  || (n =? 185) || (n =? 186) || between 188 190 n
  || between 192 214 n || between 216 246 n || between 248 255 n.

(** [\w]: "word characters (letters, digits, underscore)". *)
Definition is_word (c : ascii) : bool := is_alnum c || (code c =? 95).

Definition lower_char (c : ascii) : ascii :=
  let n := code c in
  if between 65 90 n || between 192 214 n || between 216 222 n
  then ascii_of_nat (n + 32) else c.

Fixpoint smap (f : ascii -> ascii) (s : string) : string :=
  match s with
  | EmptyString => EmptyString
  | String c s' => String (f c) (smap f s')
  end.

(** [s.lower()] *)
Definition lower (s : string) : string := smap lower_char s.

Definition is_empty (s : string) : bool :=
  match s with EmptyString => true | _ => false end.

(** [s.split()]: runs of whitespace separate the pieces, and no piece
    is empty.  [cur] is the piece being read. *)
Fixpoint split_from (cur s : string) : list string :=
  match s with
  | EmptyString => if is_empty cur then [] else [cur]
  | String c s' =>
      if is_space c
      then (if is_empty cur then split_from "" s' else cur :: split_from "" s')
      else split_from (cur +:+ String c "") s'
  end.

Definition split (s : string) : list string := split_from "" s.

(** [s[:n]] for [n >= 0] *)
Fixpoint take (n : nat) (s : string) : string :=
  match n, s with
  | S n', String c s' => String c (take n' s')
  | _, _ => EmptyString
  end.

(** [s[n:]] for [n >= 0] *)
Fixpoint drop (n : nat) (s : string) : string :=
  match n, s with
  | S n', String _ s' => drop n' s'
  | _, _ => s
  end.

(** [s[:-k]] for [k > 0]: a negative bound counts from the end and is
    clamped at the start of the string. *)
Definition drop_last (k : nat) (s : string) : string :=
  take (String.length s - k) s.

(** [s.endswith(suffix)] *)
Definition endswith (s suffix : string) : bool :=
  (String.length suffix <=? String.length s)
  && String.eqb (drop (String.length s - String.length suffix) s) suffix.

(** [s.startswith(p)] *)
Fixpoint startswith (s p : string) : bool :=
  match p, s with
  | EmptyString, _ => true
  | String a p', String b s' => Ascii.eqb a b && startswith s' p'
  | String _ _, EmptyString => false
  end.

(** [s.find(sub)], counted from position [i]; [None] stands for -1. *)
Fixpoint find_from (i : nat) (s sub : string) : option nat :=
  if startswith s sub then Some i
  else match s with
       | EmptyString => None
       | String _ s' => find_from (S i) s' sub
       end.

Definition find (s sub : string) : option nat := find_from 0 s sub.

(** [sub in s] *)
Definition contains (s sub : string) : bool :=
  match find s sub with Some _ => true | None => false end.

Fixpoint lstrip (s : string) : string :=
  match s with
  | String c s' => if is_space c then lstrip s' else s
  | EmptyString => EmptyString
  end.

Fixpoint rstrip (s : string) : string :=
  match s with
  | EmptyString => EmptyString
  | String c s' =>
      let r := rstrip s' in
      if is_empty r && is_space c then EmptyString else String c r
  end.

(** [s.strip()] *)
Definition strip (s : string) : string := rstrip (lstrip s).

End PyStr.

(** ** Tokenizer and stemmer ([index.py]) *)

Definition STOP_WORDS : gset string := list_to_set [
    "the"; "a"; "an"; "and"; "or"; "but"; "in"; "on"; "at"; "to"; "for";
    "of"; "with"; "by"; "from"; "as"; "is"; "was"; "are"; "were"; "been";
    "be"; "have"; "has"; "had"; "do"; "does"; "did"; "will"; "would";
    "could"; "should"; "may"; "might"; "must"; "shall"; "can"; "need";
    "this"; "that"; "these"; "those"; "it"; "its"; "they"; "them"; "their";
    "he"; "she"; "him"; "her"; "his"; "we"; "us"; "our"; "you"; "your";
    "who"; "which"; "what"; "where"; "when"; "why"; "how"; "all"; "each";
    "any"; "both"; "more"; "most"; "other"; "some"; "such"; "no"; "nor";
    "not"; "only"; "own"; "same"; "so"; "than"; "too"; "very"; "just";
    "also"; "now"; "here"; "there"; "then"; "if"; "else"; "because";
    "about"; "into"; "through"; "during"; "before"; "after"; "above";
    "below"; "between"; "under"; "again"; "further"; "once"; "upon"
  ].

(** [re.sub(r"[^\w\s]", " ", text)] *)
Definition sub_nonword_space (text : string) : string :=
  PyStr.smap
    (fun c => if PyStr.is_word c || PyStr.is_space c then c else " "%char)
    text.

(** The condition of the list comprehension,
    [t not in STOP_WORDS and len(t) > 1]. *)
Definition keep_token (t : string) : bool :=
  negb (bool_decide (t ∈ STOP_WORDS)) && (1 <? String.length t).

Definition tokenize (text : string) : list string :=
  let text := PyStr.lower text in
  let text := sub_nonword_space text in
  let tokens := PyStr.split text in
  List.filter keep_token tokens.

(** The [if]/[elif] chain under [len(word) > 5]: [Some r] when a branch
    returns [r], [None] when control falls out of the chain. *)
Definition stem_long (word : string) : option string :=
  if PyStr.endswith word "ing" then Some (PyStr.drop_last 3 word)
  else if PyStr.endswith word "tion" then Some (PyStr.drop_last 4 word)
  else if PyStr.endswith word "ment" then Some (PyStr.drop_last 4 word)
  else if PyStr.endswith word "ness" then Some (PyStr.drop_last 4 word)
  else if PyStr.endswith word "able" then Some (PyStr.drop_last 4 word)
  else if PyStr.endswith word "ible" then Some (PyStr.drop_last 4 word)
  else if PyStr.endswith word "ous" then Some (PyStr.drop_last 3 word)
  else if PyStr.endswith word "ive" then Some (PyStr.drop_last 3 word)
  else if PyStr.endswith word "ly" then Some (PyStr.drop_last 2 word)
  else if PyStr.endswith word "ed" then Some (PyStr.drop_last 2 word)
  else if PyStr.endswith word "er" then Some (PyStr.drop_last 2 word)
  else if PyStr.endswith word "es" then Some (PyStr.drop_last 2 word)
  else None.

Definition simple_stem (word : string) : string :=
  match (if 5 <? String.length word then stem_long word else None) with
  | Some r => r
  | None =>
      if (3 <? String.length word) && PyStr.endswith word "s"
      then PyStr.drop_last 1 word
      else word
  end.


(** ** Python numbers, lists and loops *)

(** [math.log(x)] and [math.sqrt(x)] raise [ValueError] outside their
    domain; [x / y] raises [ZeroDivisionError] on a zero divisor. *)
Definition math_log (x : R) : pyresult R :=
  if Rlt_dec 0 x then Ok (ln x) else Raise ValueError.

Definition math_sqrt (x : R) : pyresult R :=
  if Rle_dec 0 x then Ok (sqrt x) else Raise ValueError.

Definition py_div (x y : R) : pyresult R :=
  if Req_dec_T y 0 then Raise ZeroDivisionError else Ok (x / y)%R.

(** [round(x)] to the nearest integer, halves to the even neighbour, and
    [round(x, 4)]. *)
Definition round_half_even (x : R) : Z :=
  let f := (up x - 1)%Z in
  let frac := (x - IZR f)%R in
  if Rlt_dec frac (1 / 2) then f
  else if Rlt_dec (1 / 2) frac then (f + 1)%Z
  else if Z.even f then f else (f + 1)%Z.

Definition round4 (x : R) : R :=
  (IZR (round_half_even (x * 10000)) / 10000)%R.

(** [sum(xs)]: a left fold that starts from 0. *)
Definition py_sum (xs : list R) : R := fold_left Rplus xs 0%R.

(** [l[i]] for [i >= 0] *)
Definition getitem {A : Type} (l : list A) (i : nat) : pyresult A :=
  match l !! i with
  | Some x => Ok x
  | None => Raise IndexError
  end.

(** [l[:k]]: a negative [k] counts from the end of the list. *)
Definition slice_to {A : Type} (k : Z) (l : list A) : list A :=
  if (0 <=? k)%Z then firstn (Z.to_nat k) l
  else firstn (length l - Z.to_nat (- k)) l.

(** [l[i:j]] for [0 <= i <= j] *)
Definition slice {A : Type} (i j : nat) (l : list A) : list A :=
  firstn (j - i) (skipn i l).

(** A [for] loop whose body may raise: the first exception ends it. *)
Fixpoint for_each {A B : Type} (body : A -> B -> pyresult A) (xs : list B) (a : A)
  : pyresult A :=
  match xs with
  | [] => Ok a
  | x :: xs' => a' ← body a x; for_each body xs' a'
  end.

(** [sorted(items, key=lambda x: x[1], reverse=True)]: a stable sort, so
    items with equal keys keep the order they had in [items]. *)
Fixpoint insert_desc {A : Type} (x : A * R) (l : list (A * R)) : list (A * R) :=
  match l with
  | [] => [x]
  | y :: l' => if Rlt_dec (snd x) (snd y) then y :: insert_desc x l' else x :: l
  end.

Definition sorted_desc {A : Type} (items : list (A * R)) : list (A * R) :=
  fold_right insert_desc [] items.

(** ** Documents *)

(** A document is a dict from field names to text. *)
Abbreviation document := (gmap string string).

(** [doc.get(key, "")] *)
Definition doc_get (doc : document) (key : string) : string :=
  default "" (doc !! key).

(** [doc[key]] *)
Definition doc_item (doc : document) (key : string) : pyresult string :=
  match doc !! key with
  | Some v => Ok v
  | None => Raise (KeyError key)
  end.

(** ** The lexical index ([class SearchIndex]) *)

Module SearchIndex.

Record t : Type := mk {
  documents : list document;
  inverted_index : gmap string (list (nat * nat));
  doc_lengths : list nat;
  idf_scores : gmap string R;
  num_docs : nat
}.

(** [__init__] *)
Definition init : t :=
  {| documents := []; inverted_index := ∅; doc_lengths := [];
     idf_scores := ∅; num_docs := 0 |}.

(** [term_counts[token] += 1] on a [defaultdict(int)]: a new key goes
    to the end. *)
Fixpoint count_token (term_counts : list (string * nat)) (token : string)
  : list (string * nat) :=
  match term_counts with
  | [] => [(token, 0 + 1)]
  | (k, n) :: rest =>
      if String.eqb k token then (k, n + 1) :: rest
      else (k, n) :: count_token rest token
  end.

(** [self.inverted_index[term].append((doc_id, count))] on a
    [defaultdict(list)]. *)
Definition append_posting (doc_id : nat)
    (index : gmap string (list (nat * nat))) (item : string * nat)
  : gmap string (list (nat * nat)) :=
  let '(term, count) := item in
  <[term := default [] (index !! term) ++ [(doc_id, count)]]> index.

Definition add_document (self : t) (doc : document) : t * nat :=
  let doc_id := length (documents self) in
  let text :=
    doc_get doc "title" +:+ " " +:+ doc_get doc "title" +:+ " "
    +:+ doc_get doc "content" in
  let tokens := tokenize text in
  let stemmed_tokens := map simple_stem tokens in
  let term_counts := fold_left count_token stemmed_tokens [] in
  ({| documents := documents self ++ [doc];
      inverted_index :=
        fold_left (append_posting doc_id) term_counts (inverted_index self);
      doc_lengths := doc_lengths self ++ [length stemmed_tokens];
      idf_scores := idf_scores self;
      num_docs := num_docs self + 1 |},
   doc_id).

(** The body of the loop of [build_idf_scores]. *)
Definition idf_entry (n : nat) (idf : gmap string R)
    (item : string * list (nat * nat)) : pyresult (gmap string R) :=
  let '(term, postings) := item in
  let df := length postings in
  ratio ← py_div (INR (n + 1)) (INR (df + 1));
  v ← math_log ratio;
  Ok (<[term := v]> idf).

Definition build_idf_scores (self : t) : pyresult t :=
  idf ← for_each (idf_entry (num_docs self))
                 (map_to_list (inverted_index self)) (idf_scores self);
  Ok {| documents := documents self;
        inverted_index := inverted_index self;
        doc_lengths := doc_lengths self;
        idf_scores := idf;
        num_docs := num_docs self |}.

(** [doc_scores[doc_id] += score] on a [defaultdict(float)]: an existing
    entry keeps its place, a new one goes to the end. *)
Fixpoint add_score (doc_scores : list (nat * R)) (doc_id : nat) (score : R)
  : list (nat * R) :=
  match doc_scores with
  | [] => [(doc_id, (0 + score)%R)]
  | (d, s) :: rest =>
      if d =? doc_id then (d, (s + score)%R) :: rest
      else (d, s) :: add_score rest doc_id score
  end.

(** [doc_matched_terms[doc_id].add(stem)] on a [defaultdict(set)]. *)
Definition add_matched (matched : gmap nat (gset string)) (doc_id : nat)
    (stem : string) : gmap nat (gset string) :=
  <[doc_id := default ∅ (matched !! doc_id) ∪ {[stem]}]> matched.

Definition scoring : Type := list (nat * R) * gmap nat (gset string).

(** The body of the inner loop of [search], over the postings of one
    query stem. *)
Definition score_posting (self : t) (stem : string) (idf : R)
    (acc : scoring) (posting : nat * nat) : pyresult scoring :=
  let '(doc_id, tf) := posting in
  tf_score ← math_log (INR (1 + tf));
  doc_length ← getitem (doc_lengths self) doc_id;
  root ← math_sqrt (INR (doc_length + 1));
  score ← py_div (tf_score * idf) root;
  Ok (add_score acc.1 doc_id score, add_matched acc.2 doc_id stem).

(** The body of the outer loop of [search], over the query stems. *)
Definition score_stem (self : t) (acc : scoring) (stem : string)
  : pyresult scoring :=
  match inverted_index self !! stem with
  | None => Ok acc
  | Some postings =>
      let idf := default 0%R (idf_scores self !! stem) in
      for_each (score_posting self stem idf) postings acc
  end.

Definition create_snippet (content : string) (query_terms : list string)
    (context : nat) : string :=
  let content_lower := PyStr.lower content in
  let fix scan (terms : list string) : string :=
    match terms with
    | [] =>
        if 200 <? String.length content
        then PyStr.take 200 content +:+ "..."
        else content
    | term :: rest =>
        match PyStr.find content_lower (PyStr.lower term) with
        | Some pos =>
            let start := pos - context in
            let stop :=
              Nat.min (String.length content)
                      (pos + String.length term + context) in
            let snippet := PyStr.take (stop - start) (PyStr.drop start content) in
            let snippet := if 0 <? start then "..." +:+ snippet else snippet in
            let snippet :=
              if stop <? String.length content then snippet +:+ "..."
              else snippet in
            PyStr.strip snippet
        | None => scan rest
        end
    end in
  scan query_terms.

(** One entry of the list that [search] returns.  [matched_terms] is
    [list(matched)] for a set [matched]; the order of that list is the
    iteration order of the set and is not modelled. *)
Record result : Type := mk_result {
  document_of : document;
  score_of : R;
  matched_terms : gset string;
  snippet_of : string
}.

Definition build_result (self : t) (query_tokens : list string)
    (matched : gmap nat (gset string)) (results : list result)
    (entry : nat * R) : pyresult (list result) :=
  let '(doc_id, score) := entry in
  doc ← getitem (documents self) doc_id;
  content ← doc_item doc "content";
  let snippet := create_snippet content query_tokens 100 in
  Ok (results ++ [{| document_of := doc;
                     score_of := round4 score;
                     matched_terms := default ∅ (matched !! doc_id);
                     snippet_of := snippet |}]).

(** The scores accumulated for a list of query stems, in the order in
    which the documents received their first contribution. *)
Definition accumulate (self : t) (query_stems : list string)
  : pyresult scoring :=
  for_each (score_stem self) query_stems ([], ∅).

(** [ranked_docs] of [search]. *)
Definition ranked_docs (self : t) (query : string) (max_results : Z)
  : pyresult (list (nat * R)) :=
  let query_stems := map simple_stem (tokenize query) in
  acc ← accumulate self query_stems;
  Ok (slice_to max_results (sorted_desc acc.1)).

Definition search (self : t) (query : string) (max_results : Z)
  : pyresult (list result) :=
  let query_tokens := tokenize query in
  let query_stems := map simple_stem query_tokens in
  match query_stems with
  | [] => Ok []
  | _ :: _ =>
      acc ← accumulate self query_stems;
      let ranked := slice_to max_results (sorted_desc acc.1) in
      for_each (build_result self query_tokens acc.2) ranked []
  end.

(** What [json.dump] writes for the dict that [save] builds: a tuple
    becomes an array. *)
Record snapshot : Type := mk_snapshot {
  s_documents : list document;
  s_inverted_index : gmap string (list (list nat));
  s_idf_scores : gmap string R;
  s_doc_lengths : list nat;
  s_num_docs : nat
}.

Definition save (self : t) : snapshot :=
  {| s_documents := documents self;
     s_inverted_index :=
       (map (fun p : nat * nat => [p.1; p.2])) <$> inverted_index self;
     s_idf_scores := idf_scores self;
     s_doc_lengths := doc_lengths self;
     s_num_docs := num_docs self |}.

(** [tuple(x)], for the two-element arrays that [search] unpacks. *)
Definition tuple2 (x : list nat) : option (nat * nat) :=
  match x with
  | [doc_id; tf] => Some (doc_id, tf)
  | _ => None
  end.

(** [load] keeps arrays of any length as tuples and [search] raises
    [ValueError] when it unpacks one that has not two elements; here
    that error is raised by [load]. *)
Definition load (data : snapshot) : pyresult t :=
  if bool_decide (map_Forall (fun _ v => is_Some (mapM tuple2 v))
                             (s_inverted_index data))
  then Ok {| documents := s_documents data;
             inverted_index := omap (mapM tuple2) (s_inverted_index data);
             idf_scores := s_idf_scores data;
             doc_lengths := s_doc_lengths data;
             num_docs := s_num_docs data |}
  else Raise ValueError.

(** The index that [build_index_from_file] builds from the documents of
    the file. *)
Definition add_all (self : t) (docs : list document) : t :=
  fold_left (fun index doc => (add_document index doc).1) docs self.

Definition build_index (docs : list document) : pyresult t :=
  build_idf_scores (add_all init docs).

End SearchIndex.

(** ** Cosine similarity ([embeddings.py]) *)

Definition cosine_similarity (vec1 vec2 : list R) : pyresult R :=
  let dot_product := py_sum (map (fun ab => (ab.1 * ab.2)%R) (combine vec1 vec2)) in
  magnitude1 ← math_sqrt (py_sum (map (fun a => (a * a)%R) vec1));
  magnitude2 ← math_sqrt (py_sum (map (fun b => (b * b)%R) vec2));
  if Req_dec_T magnitude1 0 then Ok 0%R
  else if Req_dec_T magnitude2 0 then Ok 0%R
  else py_div dot_product (magnitude1 * magnitude2).

(** ** The embedding provider *)

(** The provider is outside the program: it answers a call with vectors
    or raises an exception [e], given here by the text [str(e)], and it
    may change its own state [E] (quota, clock) at every call. *)
Record Embedder (E : Type) : Type := mk_embedder {
  embed_texts : list string -> E -> (string + list (list R)) * E;
  embed_query : string -> E -> (string + list R) * E
}.
Arguments embed_texts {E} _ _ _.
Arguments embed_query {E} _ _ _.

(** What the program does to the outside, in order. *)
Inductive event : Type :=
| EmbedTexts (texts : list string)
| EmbedQuery (query : string)
| Sleep (seconds : nat).

(** [str(e)] *)
Definition exn_str (e : exn) : string :=
  match e with
  | IndexError => "list index out of range"
  | KeyError key => "'" +:+ key +:+ "'"
  | ValueError => "math domain error"
  | ZeroDivisionError => "float division by zero"
  | EmbedderError message => message
  end.

(** [range(0, stop, step)]: [ValueError] for a zero step, empty for a
    negative one, and otherwise the multiples of [step] below [stop]. *)
Definition py_range (stop : nat) (step : Z) : pyresult (list nat) :=
  if (step =? 0)%Z then Raise ValueError
  else if (step <? 0)%Z then Ok []
  else
    let b := Z.to_nat step in
    Ok (map (fun k => k * b) (seq 0 ((stop + b - 1) / b))).

(** [enumerate(l)] *)
Definition enumerate {A : Type} (l : list A) : list (nat * A) :=
  combine (seq 0 (length l)) l.

(** ** The embedding index ([class EmbeddingSearchIndex]) *)

Module EmbeddingSearchIndex.

Record t : Type := mk {
  documents : list document;
  embeddings : list (list R)
}.

(** [__init__] *)
Definition init : t := {| documents := []; embeddings := [] |}.

Record result : Type := mk_result {
  document_of : document;
  score_of : R;
  snippet_of : string
}.

Record snapshot : Type := mk_snapshot {
  s_documents : list document;
  s_embeddings : list (list R)
}.

Definition save (self : t) : snapshot :=
  {| s_documents := documents self; s_embeddings := embeddings self |}.

Definition load (data : snapshot) : t :=
  {| documents := s_documents data; embeddings := s_embeddings data |}.

Section WithProvider.

Context {E : Type}.

(** The state that a call runs in: the index [self], the provider and
    the events so far. *)
Record world : Type := mk_world {
  index : t;
  provider : E;
  trace : list event
}.

(** A computation that may raise and that leaves the state as it was
    when it returned or raised. *)
Definition M (A : Type) : Type := world -> pyresult A * world.

#[global] Instance M_ret : MRet M := fun _ a w => (Ok a, w).
#[global] Instance M_bind : MBind M := fun _ _ f m w =>
  match m w with
  | (Ok a, w') => f a w'
  | (Raise e, w') => (Raise e, w')
  end.

Definition raise {A : Type} (e : exn) : M A := fun w => (Raise e, w).

Definition lift {A : Type} (r : pyresult A) : M A := fun w => (r, w).

(** [try: body except Exception as e: handler(e)] *)
Definition try_except {A : Type} (body : M A) (handler : exn -> M A) : M A :=
  fun w =>
    match body w with
    | (Ok a, w') => (Ok a, w')
    | (Raise e, w') => handler e w'
    end.

Definition get_self : M t := fun w => (Ok (index w), w).

(** [await asyncio.sleep(seconds)] *)
Definition sleep (seconds : nat) : M unit := fun w =>
  (Ok tt, {| index := index w; provider := provider w;
             trace := trace w ++ [Sleep seconds] |}).

(** A [for] loop over [xs] in this monad. *)
Fixpoint for_loop {B : Type} (body : B -> M unit) (xs : list B) : M unit :=
  match xs with
  | [] => mret tt
  | x :: xs' => body x;; for_loop body xs'
  end.

Variable embedder : Embedder E.

(** [await self.embedder.embed_texts(texts)] *)
Definition call_embed_texts (texts : list string) : M (list (list R)) :=
  fun w =>
    let '(answer, e') := embed_texts embedder texts (provider w) in
    let w' := {| index := index w; provider := e';
                 trace := trace w ++ [EmbedTexts texts] |} in
    match answer with
    | inl message => (Raise (EmbedderError message), w')
    | inr vectors => (Ok vectors, w')
    end.

(** [await self.embedder.embed_query(query)] *)
Definition call_embed_query (query : string) : M (list R) :=
  fun w =>
    let '(answer, e') := embed_query embedder query (provider w) in
    let w' := {| index := index w; provider := e';
                 trace := trace w ++ [EmbedQuery query] |} in
    match answer with
    | inl message => (Raise (EmbedderError message), w')
    | inr vector => (Ok vector, w')
    end.

(** [self.documents.extend(batch)] and
    [self.embeddings.extend(batch_embeddings)] *)
Definition extend (batch : list document) (batch_embeddings : list (list R))
  : M unit :=
  fun w =>
    (Ok tt,
     {| index := {| documents := documents (index w) ++ batch;
                    embeddings := embeddings (index w) ++ batch_embeddings |};
        provider := provider w;
        trace := trace w |}).

(** The text embedded for a document. *)
Definition embed_input (doc : document) : string :=
  doc_get doc "title" +:+ " " +:+ PyStr.take 1000 (doc_get doc "content").

(** ["rate" in str(e).lower()] *)
Definition is_rate_limit (e : exn) : bool :=
  PyStr.contains (PyStr.lower (exn_str e)) "rate".

(** The body of the loop of [add_documents], for the batch that
    starts at [i]. *)
Definition batch_body (docs : list document) (batch_size : nat) (i : nat)
  : M unit :=
  let batch := slice i (i + batch_size) docs in
  let texts := map embed_input batch in
  try_except
    (batch_embeddings ← call_embed_texts texts;
     extend batch batch_embeddings)
    (fun e =>
       if is_rate_limit e
       then sleep 30;;
            batch_embeddings ← call_embed_texts texts;
            extend batch batch_embeddings
       else raise e);;
  if i + batch_size <? length docs then sleep 25 else mret tt.

Definition add_documents (docs : list document) (batch_size : Z) : M unit :=
  starts ← lift (py_range (length docs) batch_size);
  for_loop (batch_body docs (Z.to_nat batch_size)) starts.

Definition similarity (query_embedding : list R)
    (similarities : list (nat * R)) (item : nat * list R)
  : pyresult (list (nat * R)) :=
  let '(i, doc_embedding) := item in
  score ← cosine_similarity query_embedding doc_embedding;
  Ok (similarities ++ [(i, score)]).

Definition build_result (self : t) (results : list result)
    (entry : nat * R) : pyresult (list result) :=
  let '(doc_idx, score) := entry in
  doc ← getitem (documents self) doc_idx;
  Ok (results ++ [{| document_of := doc;
                     score_of := round4 score;
                     snippet_of :=
                       PyStr.take 300 (doc_get doc "content") +:+ "..." |}]).

Definition search (query : string) (max_results : Z) : M (list result) :=
  query_embedding ← call_embed_query query;
  self ← get_self;
  similarities ←
    lift (for_each (similarity query_embedding) (enumerate (embeddings self)) []);
  let similarities := sorted_desc similarities in
  lift (for_each (build_result self) (slice_to max_results similarities) []).

End WithProvider.

Arguments world : clear implicits.
Arguments M : clear implicits.

End EmbeddingSearchIndex.

(** ** Definitions that follow the specification *)

(** The suffix rules of the stemmer in priority order, each with the
    number of characters it removes. *)
Definition stem_rules : list (string * nat) :=
  [("ing", 3); ("tion", 4); ("ment", 4); ("ness", 4); ("able", 4);
   ("ible", 4); ("ous", 3); ("ive", 3); ("ly", 2); ("ed", 2); ("er", 2);
   ("es", 2)].

(** First matching rule wins for a token longer than 5; otherwise a
    token longer than 3 loses a final [s]. *)
Definition stem_spec (token : string) : string :=
  match (if 5 <? String.length token
         then List.find (fun rule => PyStr.endswith token rule.1) stem_rules
         else None) with
  | Some (_, n) => PyStr.drop_last n token
  | None =>
      if (3 <? String.length token) && PyStr.endswith token "s"
      then PyStr.drop_last 1 token
      else token
  end.

Fixpoint all_chars (p : ascii -> bool) (s : string) : bool :=
  match s with
  | EmptyString => true
  | String c s' => p c && all_chars p s'
  end.

(** The text starts with a separator or is at its end. *)
Definition at_boundary (sep : ascii -> bool) (s : string) : Prop :=
  match s with
  | EmptyString => True
  | String c _ => sep c = true
  end.

(** [tokens_of sep s l]: read from left to right, [s] is made of
    separator characters and of the words [l], each word a maximal
    non-empty run of characters that are not separators. *)
Inductive tokens_of (sep : ascii -> bool) : string -> list string -> Prop :=
| tokens_end : tokens_of sep "" []
| tokens_sep c s l :
    sep c = true -> tokens_of sep s l -> tokens_of sep (String c s) l
| tokens_word w s l :
    w <> "" -> all_chars (fun c => negb (sep c)) w = true ->
    at_boundary sep s -> tokens_of sep s l ->
    tokens_of sep (w +:+ s) (w :: l).

(** The words of [s] for a separator class, computed. *)
Fixpoint runs (sep : ascii -> bool) (cur s : string) : list string :=
  match s with
  | EmptyString => if PyStr.is_empty cur then [] else [cur]
  | String c s' =>
      if sep c
      then (if PyStr.is_empty cur then runs sep "" s' else cur :: runs sep "" s')
      else runs sep (cur +:+ String c "") s'
  end.

(** Separators as the specification words them: every character that is
    not alphanumeric. *)
Definition sep_not_alnum (c : ascii) : bool := negb (PyStr.is_alnum c).

(** Separators of the regular expression: every character that is not a
    word character (alphanumeric or underscore). *)
Definition sep_not_word (c : ascii) : bool := negb (PyStr.is_word c).

(** The tokenizer as specified, for a class of separators. *)
Definition tokenize_as_specified (sep : ascii -> bool) (text : string)
    (tokens : list string) : Prop :=
  exists raw : list string,
    tokens_of sep (PyStr.lower text) raw /\ tokens = List.filter keep_token raw.

(** Dot product of two vectors of the same dimension, and the norm. *)
Fixpoint dot (a b : list R) : R :=
  match a, b with
  | x :: a', y :: b' => (x * y + dot a' b')%R
  | _, _ => 0%R
  end.

Definition norm (a : list R) : R := sqrt (dot a a).

(** What the specification asks of [cosine_similarity] for two vectors
    of unequal length: an error. *)
Definition raises_on_mismatch (vec1 vec2 : list R) : Prop :=
  length vec1 <> length vec2 ->
  exists e : exn, cosine_similarity vec1 vec2 = Raise e.

(** A posting of an index with [n] documents: the document exists and
    the term occurs in it. *)
Definition posting_ok (n : nat) (posting : nat * nat) : Prop :=
  posting.1 < n /\ 1 <= posting.2.

(** A postings list: good postings, in the order in which the documents
    were added; no document has two of them. *)
Definition postings_ok (n : nat) (postings : list (nat * nat)) : Prop :=
  Forall (posting_ok n) postings /\ StronglySorted lt (map fst postings).

Record index_wf (self : SearchIndex.t) : Prop := mk_index_wf {
  wf_num_docs : SearchIndex.num_docs self = length (SearchIndex.documents self);
  wf_doc_lengths :
    length (SearchIndex.doc_lengths self) = SearchIndex.num_docs self;
  wf_postings :
    forall term postings,
      SearchIndex.inverted_index self !! term = Some postings ->
      postings <> [] /\ postings_ok (SearchIndex.num_docs self) postings
}.

(** The quantities of the scoring formula. *)
Definition doc_length (self : SearchIndex.t) (doc_id : nat) : nat :=
  default 0 (SearchIndex.doc_lengths self !! doc_id).

Definition idf (self : SearchIndex.t) (term : string) : R :=
  default 0%R (SearchIndex.idf_scores self !! term).

Definition postings_of (self : SearchIndex.t) (term : string) : list (nat * nat) :=
  default [] (SearchIndex.inverted_index self !! term).

(** [ln(1+tf) * idf(term) / sqrt(doc_length[doc_id] + 1)] *)
Definition term_score (self : SearchIndex.t) (term : string) (tf doc_id : nat) : R :=
  (ln (INR (1 + tf)) * idf self term / sqrt (INR (doc_length self doc_id + 1)))%R.

(** What one term gives to one document: the term score of the posting
    of the document, nothing if the document has no posting. *)
Definition contribution (self : SearchIndex.t) (term : string) (doc_id : nat) : R :=
  match List.find (fun p : nat * nat => p.1 =? doc_id) (postings_of self term) with
  | Some (_, tf) => term_score self term tf doc_id
  | None => 0%R
  end.

Definition Rsum (xs : list R) : R := fold_right Rplus 0%R xs.

(** The terms of a query, each one once. *)
Fixpoint distinct (terms : list string) : list string :=
  match terms with
  | [] => []
  | t :: rest =>
      t :: List.filter (fun u => negb (String.eqb t u)) (distinct rest)
  end.

(** The score of a document when every occurrence of a term in the
    query counts, and when every distinct term counts once. *)
Definition score_per_occurrence (self : SearchIndex.t) (stems : list string)
    (doc_id : nat) : R :=
  Rsum (map (fun t => contribution self t doc_id) stems).

Definition score_per_distinct_term (self : SearchIndex.t) (stems : list string)
    (doc_id : nat) : R :=
  Rsum (map (fun t => contribution self t doc_id) (distinct stems)).

(** The document has one of the terms. *)
Definition matches (self : SearchIndex.t) (stems : list string) (doc_id : nat) : Prop :=
  exists t, In t stems /\ In doc_id (map fst (postings_of self t)).

(** The stems of a query. *)
Definition stems_of (query : string) : list string :=
  map simple_stem (tokenize query).

(** The reading of the specification: the accumulated score of a
    document counts every distinct query term once. *)
Definition scores_count_distinct_terms (self : SearchIndex.t) (query : string) : Prop :=
  forall acc doc_id score,
    SearchIndex.accumulate self (stems_of query) = Ok acc ->
    In (doc_id, score) acc.1 ->
    score = score_per_distinct_term self (stems_of query) doc_id.

(** [x] comes before [y] in [l]. *)
Definition precedes {A : Type} (l : list A) (x y : A) : Prop :=
  exists l1 l2 l3, l = l1 ++ x :: l2 ++ y :: l3.

(** The order in which documents receive their first contribution: the
    postings of the first stem, then those of the second, and so on, a
    document keeping the place of its first appearance. *)
Definition note_key (keys : list nat) (doc_id : nat) : list nat :=
  if existsb (Nat.eqb doc_id) keys then keys else keys ++ [doc_id].

Definition reach_order (self : SearchIndex.t) (stems : list string) : list nat :=
  fold_left note_key
    (flat_map (fun t => map fst (postings_of self t)) stems) [].

(** The counts of the terms of one document: every term once, every
    count positive. *)
Definition counts_ok (term_counts : list (string * nat)) : Prop :=
  List.NoDup (map fst term_counts) /\ Forall (fun e => 1 <= e.2) term_counts.

(** Descending order of the scores. *)
Definition score_ge {A : Type} (x y : A * R) : Prop := (y.2 <= x.2)%R.

(** The loops of [search] without their failure branches: what they
    compute when every access is in bounds. *)
Definition contributions_of (self : SearchIndex.t) (stem : string) : list (nat * R) :=
  map (fun p : nat * nat => (p.1, term_score self stem p.2 p.1))
      (postings_of self stem).

Definition add_scores (doc_scores contributions : list (nat * R)) : list (nat * R) :=
  fold_left (fun sc c => SearchIndex.add_score sc c.1 c.2) contributions doc_scores.

Definition add_matches (matched : gmap nat (gset string)) (stem : string)
    (doc_ids : list nat) : gmap nat (gset string) :=
  fold_left (fun m d => SearchIndex.add_matched m d stem) doc_ids matched.

Definition pure_step (self : SearchIndex.t) (acc : SearchIndex.scoring)
    (stem : string) : SearchIndex.scoring :=
  (add_scores acc.1 (contributions_of self stem),
   add_matches acc.2 stem (map fst (postings_of self stem))).

(** The score that [doc_scores] holds for a document, 0 if none. *)
Definition score_at (doc_scores : list (nat * R)) (doc_id : nat) : R :=
  match List.find (fun e : nat * R => e.1 =? doc_id) doc_scores with
  | Some e => e.2
  | None => 0%R
  end.

(** The sum of the contributions that go to a document. *)
Definition sum_for (doc_id : nat) (contributions : list (nat * R)) : R :=
  Rsum (map snd (List.filter (fun c : nat * R => c.1 =? doc_id) contributions)).

(** The reading of the specification: the results are in descending
    order of score and, of two documents with the same score, the one
    added first comes first. *)
Definition ties_in_insertion_order (self : SearchIndex.t) (query : string)
    (max_results : Z) : Prop :=
  forall ranked x y,
    SearchIndex.ranked_docs self query max_results = Ok ranked ->
    precedes ranked x y ->
    (y.2 <= x.2)%R /\ (x.2 = y.2 -> x.1 < y.1).

(** Sample documents. *)
Definition doc_with (title content : string) : document :=
  {[ "title" := title; "content" := content ]}.

Definition docs_fences : list document :=
  [doc_with "Fences" "fences"; doc_with "Noise" "noise"].

Definition docs_beta_alpha : list document :=
  [doc_with "Beta" "beta"; doc_with "Alpha" "alpha"].

(** The entries of the result list are those of the ranking, in order. *)
Definition entry_of (self : SearchIndex.t) (r : SearchIndex.result)
    (e : nat * R) : Prop :=
  SearchIndex.documents self !! e.1 = Some (SearchIndex.document_of r)
  /\ SearchIndex.score_of r = round4 e.2.

(** ** Batches of the embedding ingestion, as specified *)

(** Every call of the provider succeeds. *)
Definition always_succeeds {E : Type} (embedder : Embedder E) : Prop :=
  forall texts e, exists vectors e', embed_texts embedder texts e = (inr vectors, e').

(** The number of batches, [ceil(n/b)]. *)
Definition batch_count (n b : nat) : nat := (n + b - 1) / b.

(** The [j]-th batch of size [b]. *)
Definition batch_of (docs : list document) (b j : nat) : list document :=
  slice (j * b) (j * b + b) docs.

(** The events of the [j]-th of [k] batches: one call, and the delay
    unless the batch is the last. *)
Definition batch_events (docs : list document) (b k j : nat) : list event :=
  EmbedTexts (map EmbeddingSearchIndex.embed_input (batch_of docs b j))
  :: (if j + 1 <? k then [Sleep 25] else []).

Definition ingestion_events (docs : list document) (b : nat) : list event :=
  let k := batch_count (length docs) b in
  flat_map (batch_events docs b k) (seq 0 k).

(** A call with the size of its batch, or a delay with its seconds. *)
Definition event_shape (e : event) : nat + nat :=
  match e with
  | EmbedTexts texts => inl (length texts)
  | EmbedQuery _ => inl 1
  | Sleep seconds => inr seconds
  end.

Definition is_call (e : event) : bool :=
  match e with EmbedTexts _ => true | _ => false end.

Definition is_delay (e : event) : bool :=
  match e with Sleep _ => true | _ => false end.

(** Sample providers: one that answers every call, with one vector per
    text, and one that counts its calls and refuses the second one with a
    rate-limit message. *)
Definition steady_embedder : Embedder unit :=
  {| embed_texts := fun texts e => (inr (map (fun _ => [1%R]) texts), e);
     embed_query := fun _ e => (inr [1%R], e) |}.

Definition limited_embedder : Embedder nat :=
  {| embed_texts := fun texts calls =>
       if calls =? 1 then (inl "Rate limit exceeded", S calls)
       else (inr (map (fun _ => [1%R]) texts), S calls);
     embed_query := fun _ calls => (inr [1%R], S calls) |}.

Definition docs_three : list document :=
  [doc_with "A" "a"; doc_with "B" "b"; doc_with "C" "c"].

Definition docs_twelve : list document :=
  repeat (doc_with "Section" "text") 12.

(** A state to start an ingestion from: an empty index and no event. *)
Definition fresh {E : Type} (e : E) : EmbeddingSearchIndex.world E :=
  EmbeddingSearchIndex.mk_world EmbeddingSearchIndex.init e [].

(** ** What a document puts into the index *)

(** The text that [add_document] indexes and its stems. *)
Definition doc_text (doc : document) : string :=
  doc_get doc "title" +:+ " " +:+ doc_get doc "title" +:+ " "
  +:+ doc_get doc "content".

Definition doc_stems (doc : document) : list string :=
  map simple_stem (tokenize (doc_text doc)).

(** How often a term is among some stems. *)
Definition occurrences (term : string) (stems : list string) : nat :=
  length (List.filter (String.eqb term) stems).

(** The posting of a term for the document number [entry.1], if the
    document has the term. *)
Definition posting_for (term : string) (entry : nat * document) : list (nat * nat) :=
  let count := occurrences term (doc_stems entry.2) in
  if count =? 0 then [] else [(entry.1, count)].

Definition expected_postings (docs : list document) (term : string)
  : list (nat * nat) :=
  flat_map (posting_for term) (enumerate docs).

(** The count that [term_counts] holds for a term, 0 if none. *)
Definition count_of (term_counts : list (string * nat)) (term : string) : nat :=
  match List.find (fun e : string * nat => String.eqb e.1 term) term_counts with
  | Some e => e.2
  | None => 0
  end.

(** A lowercase word character: what the terms of the index are made
    of. *)
Definition is_lower_word (c : ascii) : bool :=
  PyStr.is_word c && Ascii.eqb (PyStr.lower_char c) c.

Definition clean_term (term : string) : Prop :=
  2 <= String.length term /\ all_chars is_lower_word term = true.

(** The length of the longest of some strings. *)
Definition longest (terms : list string) : nat :=
  fold_right (fun t m => Nat.max (String.length t) m) 0 terms.

(** ** The cosine as a number *)

(** The value that [cosine_similarity] returns. *)
Definition cosine (vec1 vec2 : list R) : R :=
  if Req_dec_T (norm vec1) 0 then 0%R
  else if Req_dec_T (norm vec2) 0 then 0%R
  else (dot vec1 vec2 / (norm vec1 * norm vec2))%R.


(** ** Alignment of the embedding index *)

(** The provider answers a batch with one vector for every text. *)
Definition answers_aligned {E : Type} (embedder : Embedder E) : Prop :=
  forall texts e vectors e',
    embed_texts embedder texts e = (inr vectors, e') ->
    length vectors = length texts.

(** Every document of the index has its vector. *)
Definition aligned (self : EmbeddingSearchIndex.t) : Prop :=
  length (EmbeddingSearchIndex.documents self)
  = length (EmbeddingSearchIndex.embeddings self).

(** The similarities of a query vector with the vectors of the index,
    each with the position of its vector. *)
Definition similarities_of (query_embedding : list R) (embs : list (list R))
  : list (nat * R) :=
  map (fun item : nat * list R => (item.1, cosine query_embedding item.2))
      (enumerate embs).

(** An entry of the result list of the embedding search. *)
Definition embedding_entry_of (self : EmbeddingSearchIndex.t)
    (r : EmbeddingSearchIndex.result) (e : nat * R) : Prop :=
  EmbeddingSearchIndex.documents self !! e.1
    = Some (EmbeddingSearchIndex.document_of r)
  /\ EmbeddingSearchIndex.score_of r = round4 e.2
  /\ EmbeddingSearchIndex.snippet_of r
     = PyStr.take 300 (doc_get (EmbeddingSearchIndex.document_of r) "content")
       +:+ "...".

Definition index_three : EmbeddingSearchIndex.t :=
  EmbeddingSearchIndex.mk docs_three [[1%R; 0%R]; [0%R; 1%R]; [1%R; 1%R]].

(** ** The tool handlers ([mcp_server/server.py]) *)

(** [sub] occurs in [s]. *)
Definition substring_of (sub s : string) : Prop :=
  exists before after, s = before +:+ sub +:+ after.

Module Server.

(** A line feed. *)
Definition nl : string := String "010"%char "".

(** [sep.join(lines)] *)
Fixpoint join (sep : string) (lines : list string) : string :=
  match lines with
  | [] => ""
  | [line] => line
  | line :: rest => line +:+ sep +:+ join sep rest
  end.

(** [CallToolResult(content=[TextContent(type="text", text=...)],
    isError=...)]; [isError] is [False] when it is not given. *)
Record CallToolResult : Type := mk_reply {
  text : string;
  isError : bool
}.

(** The arguments of a tool call, as the input schemas type them: a
    key that is absent is [None]. *)
Record arguments : Type := mk_arguments {
  arg_query : option string;
  arg_max_results : option Z;
  arg_title : option string
}.

(** The text of the reply of [handle_get_details] for the document
    found. *)
Definition details_text (doc : document) : string :=
  let content := doc_get doc "content" in
  let section := default "N/A" (doc !! "section_number") in
  let chapter := doc_get doc "chapter" in
  let url := default "N/A" (doc !! "url") in
  let content :=
    if 5000 <? String.length content
    then PyStr.take 5000 content +:+ nl +:+ nl
         +:+ "[Content truncated. See full text at URL.]"
    else content in
  nl +:+ "=== " +:+ default "Untitled" (doc !! "title") +:+ " ===" +:+ nl
  +:+ nl
  +:+ "Section: " +:+ section +:+ nl
  +:+ "Chapter: " +:+ chapter +:+ nl
  +:+ "URL: " +:+ url +:+ nl
  +:+ nl
  +:+ "FULL TEXT:" +:+ nl
  +:+ content +:+ nl.

(** The test of the loop of [handle_get_details]:
    [title.lower() in doc.get("title", "").lower()]. *)
Definition title_matches (title : string) (doc : document) : bool :=
  PyStr.contains (PyStr.lower (doc_get doc "title")) (PyStr.lower title).

Definition handle_get_details (index : SearchIndex.t) (args : arguments)
  : CallToolResult :=
  let title := default "" (arg_title args) in
  if PyStr.is_empty title
  then {| text := "Error: No title provided"; isError := true |}
  else
    match List.find (title_matches title) (SearchIndex.documents index) with
    | Some doc => {| text := details_text doc; isError := false |}
    | None =>
        {| text := "No ordinance found with title matching '" +:+ title +:+ "'";
           isError := false |}
    end.

Section Rendering.

(** [str(score)] for a float: the decimal text of a float is outside
    the real numbers of this embedding, and is a parameter. *)
Variable format_score : R -> string.

(** The lines of one result, numbered [i]. *)
Definition result_lines (i : nat) (result : SearchIndex.result) : list string :=
  let doc := SearchIndex.document_of result in
  let score := SearchIndex.score_of result in
  let snippet := SearchIndex.snippet_of result in
  let section := default "N/A" (doc !! "section_number") in
  let title := default "Untitled" (doc !! "title") in
  let chapter := doc_get doc "chapter" in
  [ "--- Result " +:+ pretty i +:+ " ---";
    "Title: " +:+ title;
    (if PyStr.is_empty section then "" else "Section: " +:+ section);
    (if PyStr.is_empty chapter then "" else "Chapter: " +:+ chapter);
    "Relevance Score: " +:+ format_score score;
    "Excerpt: " +:+ snippet;
    "URL: " +:+ default "N/A" (doc !! "url");
    "" ].

Definition found_text (query : string) (results : list SearchIndex.result)
  : string :=
  let output_lines :=
    [ "Found " +:+ pretty (length results)
      +:+ " relevant ordinance sections for '" +:+ query +:+ "':";
      "" ]
    ++ flat_map (fun item : nat * SearchIndex.result =>
                   result_lines item.1 item.2)
         (combine (seq 1 (length results)) results) in
  join nl output_lines.

Definition handle_search (index : SearchIndex.t) (args : arguments)
  : pyresult CallToolResult :=
  let query := default "" (arg_query args) in
  let max_results := Z.min (default 5%Z (arg_max_results args)) 10 in
  if PyStr.is_empty query
  then Ok {| text := "Error: No query provided"; isError := true |}
  else
    results ← SearchIndex.search index query max_results;
    match results with
    | [] =>
        Ok {| text := "No ordinances found matching '" +:+ query
                      +:+ "'. Try different keywords.";
              isError := false |}
    | _ :: _ => Ok {| text := found_text query results; isError := false |}
    end.

(** [call_tool]: the handler of the tool, and an error reply for an
    unknown tool and for every exception. *)
Definition call_tool (index : SearchIndex.t) (name : string) (args : arguments)
  : CallToolResult :=
  let attempt :=
    if String.eqb name "search_ordinance" then handle_search index args
    else if String.eqb name "get_ordinance_details"
         then Ok (handle_get_details index args)
         else Ok {| text := "Unknown tool: " +:+ name; isError := true |} in
  match attempt with
  | Ok reply => reply
  | Raise e =>
      {| text := "Error executing " +:+ name +:+ ": " +:+ exn_str e;
         isError := true |}
  end.

End Rendering.

End Server.

(** An entry of the result list of [search] with all its fields, for
    the entry [(doc_id, score)] of the ranking. *)
Definition result_of (self : SearchIndex.t) (query : string)
    (r : SearchIndex.result) (e : nat * R) : Prop :=
  SearchIndex.documents self !! e.1 = Some (SearchIndex.document_of r)
  /\ SearchIndex.score_of r = round4 e.2
  /\ (forall t, t ∈ SearchIndex.matched_terms r <->
                In t (stems_of query) /\ In e.1 (map fst (postings_of self t)))
  /\ (exists content,
        SearchIndex.document_of r !! "content" = Some content
        /\ SearchIndex.snippet_of r
           = SearchIndex.create_snippet content (tokenize query) 100).

(* ===================================================================== *)
(** * Part II: properties                                                 *)
(* ===================================================================== *)

Example tokenize_docstring :
  tokenize "Can I build a 6-foot fence?" = ["build"; "foot"; "fence"].
Proof. vm_compute. reflexivity. Qed.

Example tokenize_underscore : tokenize "foo_bar" = ["foo_bar"].
Proof. vm_compute. reflexivity. Qed.

Example tokenize_hyphen : tokenize "six-foot Fence" = ["six"; "foot"; "fence"].
Proof. vm_compute. reflexivity. Qed.

Example stem_examples :
  map simple_stem ["fencing"; "fences"; "fenced"; "fence"; "regulations"; "bus"; "glass"]
  = ["fenc"; "fenc"; "fenc"; "fence"; "regulation"; "bus"; "glas"].
Proof. vm_compute. reflexivity. Qed.

(** ** Strings *)

Lemma string_app_cons (c : ascii) (s t : string) :
  String c s +:+ t = String c (s +:+ t).
Proof. reflexivity. Qed.

Lemma string_app_nil_l (t : string) : "" +:+ t = t.
Proof. reflexivity. Qed.

Lemma string_app_nil_r (s : string) : s +:+ "" = s.
Proof.
  induction s as [|c s IH]; [reflexivity|].
  now rewrite string_app_cons, IH.
Qed.

Lemma string_app_assoc (a b c : string) : (a +:+ b) +:+ c = a +:+ (b +:+ c).
Proof.
  induction a as [|x a IH]; [reflexivity|].
  now rewrite !string_app_cons, IH.
Qed.

Lemma take_drop (n : nat) (s : string) : PyStr.take n s +:+ PyStr.drop n s = s.
Proof.
  revert s; induction n as [|n IH]; intros [|c s]; simpl; try reflexivity.
  now rewrite string_app_cons, IH.
Qed.

Lemma endswith_split (s suffix : string) :
  PyStr.endswith s suffix = true ->
  s = PyStr.drop_last (String.length suffix) s +:+ suffix.
Proof.
  unfold PyStr.endswith, PyStr.drop_last. intros H.
  apply andb_prop in H as [_ H]. apply String.eqb_eq in H.
  set (n := String.length s - String.length suffix) in *.
  transitivity (PyStr.take n s +:+ PyStr.drop n s);
    [symmetry; apply take_drop | now rewrite H].
Qed.

(** ** The stemmer *)

Lemma stem_long_spec (word : string) :
  stem_long word =
  match List.find (fun rule => PyStr.endswith word rule.1) stem_rules with
  | Some (_, n) => Some (PyStr.drop_last n word)
  | None => None
  end.
Proof.
  unfold stem_long, stem_rules. simpl.
  repeat (match goal with
          | |- context [PyStr.endswith word ?x] =>
              destruct (PyStr.endswith word x); [reflexivity|]
          end).
  reflexivity.
Qed.

Lemma stem_long_suffix (word r : string) :
  stem_long word = Some r ->
  exists suffix, In suffix (map fst stem_rules) /\ word = r +:+ suffix.
Proof.
  unfold stem_long.
  repeat (match goal with
          | |- context [PyStr.endswith word ?x] =>
              destruct (PyStr.endswith word x) eqn:?;
              [ intros [= <-]; exists x; split;
                [ simpl; tauto | now apply (endswith_split word x) ] | ]
          end).
  discriminate.
Qed.

(** C9. The stemmer tries the suffixes in the stated priority order, the
    first match winning: for a token longer than 5, [ing], then [tion],
    [ment], [ness], [able], [ible], then [ous], [ive], then [ly], [ed],
    [er], [es]; otherwise a final [s] of a token longer than 3; any other
    token is returned as it is.  What is removed is one of these suffixes
    or nothing, so at most one suffix is stripped. *)
Theorem simple_stem_priority_order (token : string) :
  simple_stem token = stem_spec token
  /\ exists suffix,
       In suffix ("" :: "s" :: map fst stem_rules)
       /\ token = simple_stem token +:+ suffix.
Proof.
  split.
  - unfold simple_stem, stem_spec. rewrite stem_long_spec.
    destruct (5 <? String.length token); [|reflexivity].
    destruct (List.find _ stem_rules) as [[? ?]|]; reflexivity.
  - unfold simple_stem.
    destruct (if 5 <? String.length token then stem_long token else None)
      as [r|] eqn:Hlong.
    + destruct (5 <? String.length token); [|discriminate].
      destruct (stem_long_suffix _ _ Hlong) as (suffix & Hin & Heq).
      exists suffix. split; [right; right; exact Hin | exact Heq].
    + destruct ((3 <? String.length token) && PyStr.endswith token "s") eqn:Hs.
      * apply andb_prop in Hs as [_ Hs]. exists "s". split; [simpl; tauto|].
        now apply (endswith_split token "s").
      * exists "". split; [simpl; tauto|]. now rewrite string_app_nil_r.
Qed.

(** ** The tokenizer *)

Lemma word_not_space (c : ascii) :
  PyStr.is_word c = true -> PyStr.is_space c = false.
Proof.
  destruct c as [[] [] [] [] [] [] [] []]; vm_compute; congruence.
Qed.

Lemma split_sub_runs (s cur : string) :
  PyStr.split_from cur (sub_nonword_space s) = runs sep_not_word cur s.
Proof.
  revert cur. induction s as [|c s IH]; intros cur; [reflexivity|].
  unfold sub_nonword_space in *. simpl. unfold sep_not_word at 1.
  destruct (PyStr.is_word c) eqn:Hw; simpl.
  - rewrite (word_not_space c Hw). apply IH.
  - destruct (PyStr.is_space c) eqn:Hs.
    + rewrite Hs. destruct (PyStr.is_empty cur); now rewrite IH.
    + change (PyStr.is_space " ") with true. cbv iota.
      destruct (PyStr.is_empty cur); now rewrite IH.
Qed.

Lemma all_chars_app (p : ascii -> bool) (a b : string) :
  all_chars p (a +:+ b) = all_chars p a && all_chars p b.
Proof.
  induction a as [|c a IH]; [reflexivity|].
  rewrite string_app_cons. simpl. now rewrite IH, andb_assoc.
Qed.

Lemma is_empty_app_char (cur : string) (c : ascii) :
  PyStr.is_empty (cur +:+ String c "") = false.
Proof. destruct cur; reflexivity. Qed.

Lemma is_empty_false (w : string) : w <> "" <-> PyStr.is_empty w = false.
Proof. destruct w; simpl; split; congruence. Qed.

(** The computed words are a reading of the text: with a word [cur] in
    progress, they read [cur] followed by what is left. *)
Lemma runs_tokens_from (sep : ascii -> bool) (s cur : string) :
  all_chars (fun c => negb (sep c)) cur = true ->
  tokens_of sep (cur +:+ s) (runs sep cur s).
Proof.
  revert cur. induction s as [|c s IH]; intros cur Hcur.
  - rewrite string_app_nil_r. simpl.
    destruct cur as [|a cur]; [constructor|].
    rewrite <- (string_app_nil_r (String a cur)) at 1.
    apply tokens_word; [easy | exact Hcur | exact I | constructor].
  - pose proof (IH "" eq_refl) as Hnil. rewrite string_app_nil_l in Hnil.
    simpl. destruct (sep c) eqn:Hc.
    + destruct cur as [|a cur]; simpl PyStr.is_empty; cbv iota.
      * rewrite string_app_nil_l. now apply tokens_sep.
      * apply tokens_word; [easy | exact Hcur | exact Hc |].
        now apply tokens_sep.
    + replace (cur +:+ String c s) with ((cur +:+ String c "") +:+ s)
        by now rewrite string_app_assoc.
      apply IH.
      rewrite all_chars_app, Hcur. simpl. now rewrite Hc.
Qed.

Lemma runs_tokens (sep : ascii -> bool) (s : string) :
  tokens_of sep s (runs sep "" s).
Proof. exact (runs_tokens_from sep s "" eq_refl). Qed.

Lemma runs_app_word (sep : ascii -> bool) (w s cur : string) :
  all_chars (fun c => negb (sep c)) w = true ->
  runs sep cur (w +:+ s) = runs sep (cur +:+ w) s.
Proof.
  revert cur. induction w as [|c w IH]; intros cur Hw.
  - now rewrite string_app_nil_r.
  - simpl in Hw. apply andb_prop in Hw as [Hc Hw].
    rewrite string_app_cons. simpl.
    destruct (sep c); [discriminate|].
    rewrite (IH _ Hw). now rewrite string_app_assoc.
Qed.

(** A text has one reading only. *)
Lemma tokens_runs (sep : ascii -> bool) (s : string) (l : list string) :
  tokens_of sep s l -> l = runs sep "" s.
Proof.
  induction 1 as [|c s l Hc _ IH|w s l Hw Hall Hb _ IH].
  - reflexivity.
  - simpl. now rewrite Hc.
  - rewrite (runs_app_word sep w s "" Hall), string_app_nil_l.
    apply is_empty_false in Hw.
    destruct s as [|c s]; simpl in *.
    + now rewrite Hw, IH.
    + rewrite Hb in *. now rewrite Hw, IH.
Qed.

(** The reading that the specification words, with every character that
    is not alphanumeric a separator, is not what [tokenize] returns: an
    underscore stays inside its token. *)
Lemma tokenize_underscore_kept :
  ~ tokenize_as_specified sep_not_alnum "foo_bar" (tokenize "foo_bar").
Proof.
  intros (raw & Hraw & Heq).
  apply tokens_runs in Hraw. subst raw.
  vm_compute in Heq. discriminate Heq.
Qed.

(** C4, amended.  [tokenize] lowercases the text, takes as separator
    every character that is not a word character (alphanumeric or
    underscore), so that a hyphen separates two tokens and an underscore
    does not, and keeps, in textual order, the words that are longer than
    one character and are not stop words. *)
Theorem tokenize_word_runs (text : string) :
  tokenize_as_specified sep_not_word text (tokenize text).
Proof.
  exists (runs sep_not_word "" (PyStr.lower text)). split.
  - apply runs_tokens.
  - unfold tokenize, PyStr.split. now rewrite split_sub_runs.
Qed.

(** ** Cosine similarity *)

Lemma fold_left_Rplus (xs : list R) (a : R) :
  fold_left Rplus xs a = (a + py_sum xs)%R.
Proof.
  unfold py_sum. revert a. induction xs as [|x xs IH]; intros a; simpl.
  - lra.
  - rewrite (IH (a + x)%R), (IH (0 + x)%R). lra.
Qed.

Lemma py_sum_cons (x : R) (xs : list R) : py_sum (x :: xs) = (x + py_sum xs)%R.
Proof. unfold py_sum at 1. simpl. rewrite fold_left_Rplus. lra. Qed.

(** [zip] stops at the end of the shorter vector, and so does the sum of
    the products. *)
Lemma py_sum_zip_dot (vec1 vec2 : list R) :
  py_sum (map (fun ab => (ab.1 * ab.2)%R) (combine vec1 vec2)) = dot vec1 vec2.
Proof.
  revert vec2. induction vec1 as [|x vec1 IH]; intros [|y vec2]; try reflexivity.
  simpl. now rewrite py_sum_cons, IH.
Qed.

Lemma py_sum_squares (vec : list R) :
  py_sum (map (fun a => (a * a)%R) vec) = dot vec vec.
Proof.
  induction vec as [|x vec IH]; [reflexivity|].
  simpl. now rewrite py_sum_cons, IH.
Qed.

Lemma dot_self_nonneg (vec : list R) : (0 <= dot vec vec)%R.
Proof.
  induction vec as [|x vec IH]; simpl; [lra|].
  pose proof (Rle_0_sqr x) as Hx. unfold Rsqr in Hx. lra.
Qed.

Lemma dot_common_prefix (vec1 vec2 : list R) :
  let n := Nat.min (length vec1) (length vec2) in
  dot (firstn n vec1) (firstn n vec2) = dot vec1 vec2.
Proof.
  revert vec2. induction vec1 as [|x vec1 IH]; intros [|y vec2]; try reflexivity.
  simpl. now rewrite IH.
Qed.

Lemma math_sqrt_nonneg (x : R) : (0 <= x)%R -> math_sqrt x = Ok (sqrt x).
Proof. intros H. unfold math_sqrt. destruct (Rle_dec 0 x); [reflexivity | lra]. Qed.

Lemma math_log_pos (x : R) : (0 < x)%R -> math_log x = Ok (ln x).
Proof. intros H. unfold math_log. destruct (Rlt_dec 0 x); [reflexivity | lra]. Qed.

Lemma py_div_nonzero (x y : R) : y <> 0%R -> py_div x y = Ok (x / y)%R.
Proof. intros H. unfold py_div. destruct (Req_dec_T y 0); [contradiction | reflexivity]. Qed.

Lemma cosine_similarity_value (vec1 vec2 : list R) :
  cosine_similarity vec1 vec2 =
  Ok (if Req_dec_T (norm vec1) 0 then 0
      else if Req_dec_T (norm vec2) 0 then 0
      else dot vec1 vec2 / (norm vec1 * norm vec2))%R.
Proof.
  unfold cosine_similarity, norm.
  rewrite py_sum_zip_dot, !py_sum_squares.
  rewrite !math_sqrt_nonneg by apply dot_self_nonneg.
  cbn [mbind pyresult_bind].
  destruct (Req_dec_T (sqrt (dot vec1 vec1)) 0) as [|H1]; [reflexivity|].
  destruct (Req_dec_T (sqrt (dot vec2 vec2)) 0) as [|H2]; [reflexivity|].
  apply py_div_nonzero. now apply Rmult_integral_contrapositive.
Qed.

(** For the vectors [(1, 0)] and [(1)] the function returns a score, 1:
    the product is summed over the first component only. *)
Lemma cosine_similarity_mismatch_returns :
  cosine_similarity [1%R; 0%R] [1%R] = Ok 1%R
  /\ ~ raises_on_mismatch [1%R; 0%R] [1%R].
Proof.
  assert (H : cosine_similarity [1%R; 0%R] [1%R] = Ok 1%R).
  { rewrite cosine_similarity_value. unfold norm. simpl.
    replace (1 * 1 + (0 * 0 + 0))%R with 1%R by lra.
    replace (1 * 1 + 0)%R with 1%R by lra.
    rewrite sqrt_1.
    destruct (Req_dec_T 1 0); [lra|]. f_equal. lra. }
  split; [exact H|].
  intros Hclaim. destruct Hclaim as [e He]; [simpl; lia|].
  rewrite H in He. discriminate He.
Qed.

(** C1, amended.  [cosine_similarity] has no check of the dimensions and
    raises for no pair of vectors.  For vectors of any two lengths it
    returns the dot product of their common prefix (of the length of the
    shorter vector) divided by the product of the norms of the whole
    vectors, and 0 when a norm is zero. *)
Theorem cosine_similarity_common_prefix (vec1 vec2 : list R) :
  let n := Nat.min (length vec1) (length vec2) in
  cosine_similarity vec1 vec2 =
  Ok (if Req_dec_T (norm vec1) 0 then 0
      else if Req_dec_T (norm vec2) 0 then 0
      else dot (firstn n vec1) (firstn n vec2) / (norm vec1 * norm vec2))%R.
Proof.
  intros n. subst n. rewrite dot_common_prefix. apply cosine_similarity_value.
Qed.

(** ** Invariants of the lexical index *)

Section TermCounts.

Import SearchIndex.

Lemma count_token_keys (term_counts : list (string * nat)) (token k : string) :
  In k (map fst (count_token term_counts token)) ->
  k = token \/ In k (map fst term_counts).
Proof.
  induction term_counts as [|[k' n] rest IH]; simpl.
  - intros [<- | []]. left. reflexivity.
  - destruct (String.eqb k' token); simpl; [tauto|].
    intros [<- | H]; [tauto|]. destruct (IH H); tauto.
Qed.

Lemma count_token_ok (term_counts : list (string * nat)) (token : string) :
  counts_ok term_counts -> counts_ok (count_token term_counts token).
Proof.
  unfold counts_ok.
  induction term_counts as [|[k n] rest IH]; simpl; intros [Hnd Hall].
  - split.
    + constructor; [intros [] | constructor].
    + constructor; [simpl; lia | constructor].
  - inversion Hnd as [|? ? Hk Hnd']; subst.
    inversion Hall as [|? ? Hn Hall']; subst.
    destruct (String.eqb k token) eqn:Hkt; simpl.
    + split; [now constructor|]. constructor; [simpl in *; lia | exact Hall'].
    + destruct (IH (conj Hnd' Hall')) as [IH1 IH2].
      split; [|now constructor]. constructor; [|exact IH1].
      intros Hin. apply count_token_keys in Hin as [-> | Hin]; [|contradiction].
      rewrite String.eqb_refl in Hkt. discriminate.
Qed.

Lemma term_counts_ok (tokens : list string) (term_counts : list (string * nat)) :
  counts_ok term_counts -> counts_ok (fold_left count_token tokens term_counts).
Proof.
  revert term_counts. induction tokens as [|t tokens IH]; intros tc H; simpl.
  - exact H.
  - apply IH. now apply count_token_ok.
Qed.

(** After the loop that appends the postings of one document, a term
    has the postings it had, with one more at the end if the document
    has the term. *)
Lemma append_postings_lookup (doc_id : nat) (term_counts : list (string * nat))
    (index : gmap string (list (nat * nat))) (term : string)
    (postings : list (nat * nat)) :
  List.NoDup (map fst term_counts) ->
  fold_left (append_posting doc_id) term_counts index !! term = Some postings ->
  (index !! term = Some postings /\ ~ In term (map fst term_counts))
  \/ exists count, In (term, count) term_counts
       /\ postings = default [] (index !! term) ++ [(doc_id, count)].
Proof.
  revert index. induction term_counts as [|[k n] rest IH]; intros index Hnd; simpl.
  - intros H. left. split; [exact H | tauto].
  - inversion Hnd as [|? ? Hk Hnd']; subst. intros H.
    destruct (IH _ Hnd' H) as [[Hl Hnot] | (count & Hin & Heq)].
    + destruct (decide (k = term)) as [->|Hne].
      * rewrite lookup_insert_eq in Hl. injection Hl as <-.
        right. exists n. split; [now left | reflexivity].
      * rewrite lookup_insert_ne in Hl by exact Hne.
        left. split; [exact Hl|]. simpl. tauto.
    + right. exists count. split; [now right|].
      assert (Hne : k <> term).
      { intros ->. apply Hk. apply (in_map fst) in Hin. exact Hin. }
      now rewrite lookup_insert_ne in Heq by exact Hne.
Qed.

Lemma counts_ok_nil : counts_ok [].
Proof. split; constructor. Qed.

End TermCounts.

Lemma init_wf : index_wf SearchIndex.init.
Proof.
  split; try reflexivity. intros term postings H.
  simpl in H. rewrite lookup_empty in H. discriminate.
Qed.

Lemma StronglySorted_lt_snoc (l : list nat) (n : nat) :
  StronglySorted lt l -> Forall (fun d => d < n) l -> StronglySorted lt (l ++ [n]).
Proof.
  induction 1 as [|d l Hs IH Hd]; intros Hall; simpl.
  - repeat constructor.
  - inversion Hall as [|? ? Hdn Hall']; subst.
    constructor; [now apply IH|].
    apply Forall_app. split; [exact Hd | now repeat constructor].
Qed.

Lemma postings_ok_weaken (n : nat) (postings : list (nat * nat)) :
  postings_ok n postings -> postings_ok (n + 1) postings.
Proof.
  intros [Hall Hs]. split; [|exact Hs].
  eapply List.Forall_impl; [|exact Hall]. unfold posting_ok. intros p; lia.
Qed.

Lemma postings_ok_snoc (n count : nat) (postings : list (nat * nat)) :
  postings_ok n postings -> 1 <= count ->
  postings_ok (n + 1) (postings ++ [(n, count)]).
Proof.
  intros [Hall Hs] Hc. split.
  - apply Forall_app. split.
    + eapply List.Forall_impl; [|exact Hall]. unfold posting_ok. intros p; lia.
    + repeat constructor; simpl; lia.
  - rewrite map_app. simpl. apply StronglySorted_lt_snoc; [exact Hs|].
    apply Forall_map. eapply List.Forall_impl; [|exact Hall].
    unfold posting_ok. intros p; simpl; lia.
Qed.

Lemma add_document_wf (self : SearchIndex.t) (doc : document) :
  index_wf self -> index_wf (SearchIndex.add_document self doc).1.
Proof.
  intros [Hn Hl Hp]. split; simpl.
  - rewrite length_app, Hn. reflexivity.
  - rewrite length_app, Hl. reflexivity.
  - intros term postings H.
    set (tokens := map simple_stem (tokenize _)) in H.
    pose proof (term_counts_ok tokens [] counts_ok_nil) as [Hnd Hcounts].
    apply append_postings_lookup in H as [[H _] | (count & Hin & ->)];
      [| |exact Hnd].
    + destruct (Hp _ _ H) as [Hne Hok]. split; [exact Hne|].
      now apply postings_ok_weaken.
    + split; [now destruct (default [] _)|].
      rewrite <- Hn.
      assert (Hc : 1 <= count).
      { rewrite List.Forall_forall in Hcounts. exact (Hcounts _ Hin). }
      destruct (SearchIndex.inverted_index self !! term) as [old|] eqn:Hold; simpl.
      * apply postings_ok_snoc; [|exact Hc]. now destruct (Hp _ _ Hold).
      * apply (postings_ok_snoc _ _ []); [|exact Hc].
        split; constructor.
Qed.

Lemma add_all_wf (docs : list document) (self : SearchIndex.t) :
  index_wf self -> index_wf (SearchIndex.add_all self docs).
Proof.
  revert self. induction docs as [|doc docs IH]; intros self H; simpl.
  - exact H.
  - apply IH. now apply add_document_wf.
Qed.

(** ** Loops *)

Lemma for_each_pure {A B : Type} (body : A -> B -> pyresult A) (f : A -> B -> A)
    (xs : list B) (a : A) :
  (forall a x, In x xs -> body a x = Ok (f a x)) ->
  for_each body xs a = Ok (fold_left f xs a).
Proof.
  revert a. induction xs as [|x xs IH]; intros a H; simpl; [reflexivity|].
  rewrite (H a x) by now left. cbn [mbind pyresult_bind].
  apply IH. intros a' x' Hin. apply H. now right.
Qed.

(** ** The stable sort *)

Lemma insert_desc_perm {A : Type} (x : A * R) (l : list (A * R)) :
  Permutation (insert_desc x l) (x :: l).
Proof.
  induction l as [|y l IH]; simpl; [reflexivity|].
  destruct (Rlt_dec x.2 y.2); [|reflexivity].
  rewrite IH. apply perm_swap.
Qed.

Lemma sorted_desc_perm {A : Type} (l : list (A * R)) :
  Permutation (sorted_desc l) l.
Proof.
  induction l as [|x l IH]; simpl; [reflexivity|].
  unfold sorted_desc in *. simpl. rewrite insert_desc_perm. now constructor.
Qed.

Lemma insert_desc_sorted {A : Type} (x : A * R) (l : list (A * R)) :
  StronglySorted score_ge l -> StronglySorted score_ge (insert_desc x l).
Proof.
  induction 1 as [|y l Hs IH Hy]; simpl; [repeat constructor|].
  destruct (Rlt_dec x.2 y.2) as [Hlt|Hge].
  - constructor; [exact IH|].
    rewrite List.Forall_forall in *. intros z Hz.
    apply (Permutation_in _ (insert_desc_perm x l)) in Hz as [<- | Hz].
    + unfold score_ge. lra.
    + now apply Hy.
  - constructor; [now constructor|].
    constructor; [unfold score_ge; lra|].
    rewrite List.Forall_forall in *. intros z Hz.
    specialize (Hy z Hz). unfold score_ge in *. lra.
Qed.

Lemma sorted_desc_sorted {A : Type} (l : list (A * R)) :
  StronglySorted score_ge (sorted_desc l).
Proof.
  induction l as [|x l IH]; [constructor|].
  unfold sorted_desc in *. simpl. now apply insert_desc_sorted.
Qed.

Lemma precedes_cons {A : Type} (l : list A) (z x y : A) :
  precedes (z :: l) x y <-> (z = x /\ In y l) \/ precedes l x y.
Proof.
  split.
  - intros (l1 & l2 & l3 & H). destruct l1 as [|z' l1]; simpl in H.
    + injection H as -> ->. left. split; [reflexivity|].
      apply in_or_app. right. now left.
    + injection H as -> ->. right. now exists l1, l2, l3.
  - intros [[-> Hin] | (l1 & l2 & l3 & ->)].
    + apply in_split in Hin as (l2 & l3 & ->). now exists [], l2, l3.
    + now exists (z :: l1), l2, l3.
Qed.

Lemma precedes_in {A : Type} (l : list A) (x y : A) :
  precedes l x y -> In x l /\ In y l.
Proof.
  intros (l1 & l2 & l3 & ->). split.
  - apply in_or_app. right. now left.
  - apply in_or_app. right. right. apply in_or_app. right. now left.
Qed.

Lemma precedes_sorted {A : Type} (l : list (A * R)) (x y : A * R) :
  StronglySorted score_ge l -> precedes l x y -> (y.2 <= x.2)%R.
Proof.
  induction 1 as [|z l Hs IH Hz]; intros H.
  - destruct H as (l1 & l2 & l3 & H). now destruct l1.
  - apply precedes_cons in H as [[-> Hin] | H]; [|now apply IH].
    rewrite List.Forall_forall in Hz. exact (Hz _ Hin).
Qed.

(** Where [insert_desc] puts an item: behind the items with a larger
    score only. *)
Lemma insert_desc_precedes {A : Type} (x : A * R) (l : list (A * R)) (a b : A * R) :
  precedes (insert_desc x l) a b ->
  precedes (x :: l) a b \/ (b = x /\ (x.2 < a.2)%R).
Proof.
  induction l as [|y l IH]; simpl; [now left|].
  destruct (Rlt_dec x.2 y.2) as [Hlt|Hge]; [|now left].
  intros H. apply precedes_cons in H as [[-> Hin] | H].
  - apply (Permutation_in _ (insert_desc_perm x l)) in Hin as [<- | Hin].
    + now right.
    + left. apply precedes_cons. right. apply precedes_cons. now left.
  - destruct (IH H) as [H' | H']; [|now right].
    left. apply precedes_cons in H' as [[-> Hin] | H'].
    + apply precedes_cons. left. split; [reflexivity | now right].
    + apply precedes_cons. right. apply precedes_cons. now right.
Qed.

(** The sort is stable: two items of equal score keep their order. *)
Lemma sorted_desc_stable {A : Type} (l : list (A * R)) (a b : A * R) :
  precedes (sorted_desc l) a b -> a.2 = b.2 -> precedes l a b.
Proof.
  revert a b. induction l as [|x l IH]; intros a b H Heq.
  - destruct H as (l1 & l2 & l3 & H). now destruct l1.
  - unfold sorted_desc in H. simpl in H. fold (sorted_desc l) in H.
    apply insert_desc_precedes in H as [H | [-> Hlt]]; [|lra].
    apply precedes_cons in H as [[-> Hin] | H]; apply precedes_cons.
    + left. split; [reflexivity|].
      now apply (Permutation_in _ (sorted_desc_perm l)).
    + right. now apply IH.
Qed.

Lemma precedes_firstn {A : Type} (n : nat) (l : list A) (x y : A) :
  precedes (firstn n l) x y -> precedes l x y.
Proof.
  intros (l1 & l2 & l3 & H). exists l1, l2, (l3 ++ skipn n l).
  rewrite <- (firstn_skipn n l) at 1. rewrite H.
  now rewrite <- !app_assoc, <- !app_comm_cons, <- !app_assoc.
Qed.

Lemma precedes_slice_to {A : Type} (k : Z) (l : list A) (x y : A) :
  precedes (slice_to k l) x y -> precedes l x y.
Proof. unfold slice_to. destruct (0 <=? k)%Z; apply precedes_firstn. Qed.

Lemma firstn_in {A : Type} (n : nat) (l : list A) (x : A) :
  In x (firstn n l) -> In x l.
Proof.
  intros H. rewrite <- (firstn_skipn n l). apply in_or_app. now left.
Qed.

Lemma slice_to_in {A : Type} (k : Z) (l : list A) (x : A) :
  In x (slice_to k l) -> In x l.
Proof. unfold slice_to. destruct (0 <=? k)%Z; apply firstn_in. Qed.

Lemma slice_to_sorted {A : Type} (R0 : A -> A -> Prop) (k : Z) (l : list A) :
  StronglySorted R0 l -> StronglySorted R0 (slice_to k l).
Proof.
  intros H. unfold slice_to.
  assert (Hf : forall n, StronglySorted R0 (firstn n l)).
  { induction H as [|z l Hs IH Hz]; intros [|n]; simpl; try constructor.
    - apply IH.
    - rewrite List.Forall_forall in *. intros y Hy. apply Hz.
      now apply firstn_in in Hy. }
  destruct (0 <=? k)%Z; apply Hf.
Qed.

(** ** The scoring loops of [search] *)

Section Scoring.

Import SearchIndex.

Variable self : SearchIndex.t.
Hypothesis Hwf : index_wf self.

Lemma doc_length_lookup (doc_id : nat) :
  doc_id < num_docs self ->
  doc_lengths self !! doc_id = Some (doc_length self doc_id).
Proof.
  intros H. unfold doc_length.
  destruct (lookup_lt_is_Some_2 (doc_lengths self) doc_id) as [n Hn].
  - now rewrite (wf_doc_lengths self Hwf).
  - now rewrite Hn.
Qed.

Lemma sqrt_succ_nonzero (n : nat) : sqrt (INR (n + 1)) <> 0%R.
Proof.
  assert (0 < INR (n + 1))%R by (apply lt_0_INR; lia).
  pose proof (sqrt_lt_R0 _ H). lra.
Qed.

Lemma score_posting_ok (stem : string) (acc : scoring) (posting : nat * nat) :
  posting_ok (num_docs self) posting ->
  score_posting self stem (idf self stem) acc posting =
  Ok (add_score acc.1 posting.1 (term_score self stem posting.2 posting.1),
      add_matched acc.2 posting.1 stem).
Proof.
  destruct posting as [doc_id tf]. intros [Hd _]. simpl in Hd.
  unfold score_posting, getitem.
  rewrite math_log_pos by (apply lt_0_INR; lia).
  rewrite (doc_length_lookup doc_id Hd).
  cbn [mbind pyresult_bind].
  rewrite math_sqrt_nonneg by apply pos_INR.
  cbn [mbind pyresult_bind].
  rewrite py_div_nonzero by apply sqrt_succ_nonzero.
  reflexivity.
Qed.

Lemma postings_of_ok (stem : string) :
  postings_ok (num_docs self) (postings_of self stem).
Proof.
  unfold postings_of.
  destruct (inverted_index self !! stem) as [ps|] eqn:H; simpl.
  - now destruct (wf_postings self Hwf _ _ H).
  - split; constructor.
Qed.

Lemma score_stem_ok (acc : scoring) (stem : string) :
  score_stem self acc stem = Ok (pure_step self acc stem).
Proof.
  unfold score_stem, pure_step, contributions_of, add_scores, add_matches.
  pose proof (postings_of_ok stem) as [Hall _].
  unfold postings_of in *.
  destruct (inverted_index self !! stem) as [ps|] eqn:H; simpl;
    [|now destruct acc].
  fold (idf self stem).
  rewrite (for_each_pure _
             (fun a p => (add_score a.1 p.1 (term_score self stem p.2 p.1),
                          add_matched a.2 p.1 stem))).
  - f_equal. clear H Hall. revert acc.
    induction ps as [|p ps IH]; intros acc; simpl; [now destruct acc|].
    rewrite IH. reflexivity.
  - intros a p Hin. apply score_posting_ok.
    rewrite List.Forall_forall in Hall. now apply Hall.
Qed.

Lemma accumulate_ok (stems : list string) :
  accumulate self stems = Ok (fold_left (pure_step self) stems ([], ∅)).
Proof.
  unfold accumulate. apply for_each_pure. intros a x _. apply score_stem_ok.
Qed.

End Scoring.

Lemma add_scores_app (sc a b : list (nat * R)) :
  add_scores sc (a ++ b) = add_scores (add_scores sc a) b.
Proof. unfold add_scores. apply fold_left_app. Qed.

Lemma pure_steps_scores (self : SearchIndex.t) (stems : list string)
    (acc : SearchIndex.scoring) :
  (fold_left (pure_step self) stems acc).1 =
  add_scores acc.1 (flat_map (contributions_of self) stems).
Proof.
  revert acc. induction stems as [|t stems IH]; intros acc; simpl; [reflexivity|].
  rewrite IH. simpl. now rewrite add_scores_app.
Qed.

(** ** The keys of [doc_scores] and their order *)

Lemma existsb_eqb_in (d : nat) (keys : list nat) :
  existsb (Nat.eqb d) keys = true <-> In d keys.
Proof.
  rewrite existsb_exists. split.
  - intros (x & Hin & Heq). apply Nat.eqb_eq in Heq. now subst.
  - intros H. exists d. split; [exact H | apply Nat.eqb_refl].
Qed.

Lemma add_score_keys (sc : list (nat * R)) (d : nat) (x : R) :
  map fst (SearchIndex.add_score sc d x) = note_key (map fst sc) d.
Proof.
  unfold note_key. induction sc as [|[d0 s0] sc IH]; simpl; [reflexivity|].
  rewrite (Nat.eqb_sym d d0).
  destruct (d0 =? d); simpl; [reflexivity|].
  rewrite IH. now destruct (existsb (Nat.eqb d) (map fst sc)).
Qed.

Lemma add_scores_keys (cs sc : list (nat * R)) :
  map fst (add_scores sc cs) = fold_left note_key (map fst cs) (map fst sc).
Proof.
  unfold add_scores. revert sc.
  induction cs as [|c cs IH]; intros sc; simpl; [reflexivity|].
  now rewrite IH, add_score_keys.
Qed.

Lemma note_key_in (keys : list nat) (d d' : nat) :
  In d' (note_key keys d) <-> In d' keys \/ d' = d.
Proof.
  unfold note_key. destruct (existsb (Nat.eqb d) keys) eqn:H.
  - apply existsb_eqb_in in H. split; [tauto|]. intros [? | ->]; assumption.
  - rewrite in_app_iff. simpl. intuition.
Qed.

Lemma note_key_nodup (keys : list nat) (d : nat) :
  List.NoDup keys -> List.NoDup (note_key keys d).
Proof.
  intros Hnd. unfold note_key. destruct (existsb (Nat.eqb d) keys) eqn:H.
  - exact Hnd.
  - apply NoDup_app_remove_l with (l := []). simpl.
    apply List.NoDup_app; [exact Hnd | repeat constructor; intros [] |].
    intros y Hy [<- | []].
    apply existsb_eqb_in in Hy. congruence.
Qed.

Lemma note_keys_in (ds keys : list nat) (d' : nat) :
  In d' (fold_left note_key ds keys) <-> In d' keys \/ In d' ds.
Proof.
  revert keys. induction ds as [|d ds IH]; intros keys; simpl; [tauto|].
  rewrite IH, note_key_in. intuition.
Qed.

Lemma note_keys_nodup (ds keys : list nat) :
  List.NoDup keys -> List.NoDup (fold_left note_key ds keys).
Proof.
  revert keys. induction ds as [|d ds IH]; intros keys H; simpl; [exact H|].
  apply IH. now apply note_key_nodup.
Qed.

Lemma contributions_keys (self : SearchIndex.t) (stems : list string) :
  map fst (flat_map (contributions_of self) stems) =
  flat_map (fun t => map fst (postings_of self t)) stems.
Proof.
  induction stems as [|t stems IH]; simpl; [reflexivity|].
  rewrite map_app, IH. f_equal.
  unfold contributions_of. rewrite map_map. reflexivity.
Qed.

Lemma accumulated_keys (self : SearchIndex.t) (stems : list string) :
  map fst (fold_left (pure_step self) stems ([], ∅)).1 = reach_order self stems.
Proof.
  rewrite pure_steps_scores, add_scores_keys, contributions_keys. reflexivity.
Qed.

Lemma reach_order_matches (self : SearchIndex.t) (stems : list string) (d : nat) :
  In d (reach_order self stems) <-> matches self stems d.
Proof.
  unfold reach_order, matches. rewrite note_keys_in, in_flat_map. simpl.
  split; [intros [[] | H] | intros H; right]; exact H.
Qed.

(** ** The accumulated scores *)

Lemma score_at_add_score (sc : list (nat * R)) (d d' : nat) (x : R) :
  score_at (SearchIndex.add_score sc d x) d' =
  (if d =? d' then score_at sc d' + x else score_at sc d')%R.
Proof.
  unfold score_at. induction sc as [|[d0 s0] sc IH]; simpl.
  - destruct (d =? d'); simpl; lra.
  - destruct (d0 =? d) eqn:H0; simpl.
    + apply Nat.eqb_eq in H0. subst d0. destruct (d =? d'); reflexivity.
    + destruct (d0 =? d') eqn:H1; [|exact IH].
      apply Nat.eqb_eq in H1. subst d0. now rewrite Nat.eqb_sym, H0.
Qed.

Lemma sum_for_cons (d : nat) (c : nat * R) (cs : list (nat * R)) :
  sum_for d (c :: cs) = ((if c.1 =? d then c.2 else 0) + sum_for d cs)%R.
Proof.
  unfold sum_for. simpl. destruct (c.1 =? d); simpl; lra.
Qed.

Lemma sum_for_app (d : nat) (a b : list (nat * R)) :
  sum_for d (a ++ b) = (sum_for d a + sum_for d b)%R.
Proof.
  induction a as [|c a IH]; simpl.
  - unfold sum_for at 2. simpl. lra.
  - rewrite !sum_for_cons, IH. lra.
Qed.

Lemma score_at_add_scores (cs sc : list (nat * R)) (d : nat) :
  score_at (add_scores sc cs) d = (score_at sc d + sum_for d cs)%R.
Proof.
  unfold add_scores. revert sc.
  induction cs as [|c cs IH]; intros sc; simpl.
  - unfold sum_for. simpl. lra.
  - rewrite IH, score_at_add_score, sum_for_cons.
    destruct (c.1 =? d); lra.
Qed.

Lemma score_at_in (sc : list (nat * R)) (d : nat) (s : R) :
  List.NoDup (map fst sc) -> In (d, s) sc -> score_at sc d = s.
Proof.
  unfold score_at. induction sc as [|[d0 s0] sc IH]; simpl; [tauto|].
  intros Hnd [H | H].
  - injection H as -> ->. now rewrite Nat.eqb_refl.
  - inversion Hnd as [|? ? Hnot Hnd']; subst.
    destruct (d0 =? d) eqn:H0; [|now apply IH].
    apply Nat.eqb_eq in H0. subst d0. exfalso. apply Hnot.
    now apply (in_map fst) in H.
Qed.

Lemma sorted_lt_not_in (d : nat) (l : list nat) :
  StronglySorted lt (d :: l) -> ~ In d l.
Proof.
  intros H Hin. apply StronglySorted_inv in H as [_ H].
  rewrite List.Forall_forall in H. specialize (H d Hin). lia.
Qed.

Lemma sum_for_absent (d : nat) (cs : list (nat * R)) :
  ~ In d (map fst cs) -> sum_for d cs = 0%R.
Proof.
  induction cs as [|c cs IH]; simpl; intros H; [reflexivity|].
  rewrite sum_for_cons, IH by tauto.
  destruct (c.1 =? d) eqn:Hc; [|lra].
  apply Nat.eqb_eq in Hc. tauto.
Qed.

(** One term gives a document the score of the one posting that the
    document has for the term. *)
Lemma sum_for_contribution (self : SearchIndex.t) (stem : string) (d : nat) :
  StronglySorted lt (map fst (postings_of self stem)) ->
  sum_for d (contributions_of self stem) = contribution self stem d.
Proof.
  unfold contributions_of, contribution.
  induction (postings_of self stem) as [|[d0 tf] ps IH]; simpl; intros Hs.
  - reflexivity.
  - rewrite sum_for_cons. simpl. destruct (d0 =? d) eqn:H0.
    + apply Nat.eqb_eq in H0. subst d0.
      rewrite sum_for_absent; [lra|].
      rewrite map_map. simpl. now apply sorted_lt_not_in.
    + apply StronglySorted_inv in Hs as [Hs _]. rewrite (IH Hs). lra.
Qed.

Lemma sum_for_stems (self : SearchIndex.t) (stems : list string) (d : nat) :
  index_wf self ->
  sum_for d (flat_map (contributions_of self) stems) =
  score_per_occurrence self stems d.
Proof.
  intros Hwf. unfold score_per_occurrence.
  induction stems as [|t stems IH]; simpl; [reflexivity|].
  rewrite sum_for_app, IH, sum_for_contribution; [reflexivity|].
  now destruct (postings_of_ok self Hwf t).
Qed.

(** The accumulated scores of a well-formed index, for a list of query
    stems. *)
Lemma accumulate_scores (self : SearchIndex.t) (stems : list string) :
  index_wf self ->
  exists acc,
    SearchIndex.accumulate self stems = Ok acc
    /\ map fst acc.1 = reach_order self stems
    /\ List.NoDup (map fst acc.1)
    /\ forall doc_id score,
         In (doc_id, score) acc.1 ->
         score = score_per_occurrence self stems doc_id.
Proof.
  intros Hwf. exists (fold_left (pure_step self) stems ([], ∅)).
  split; [now apply accumulate_ok|].
  split; [apply accumulated_keys|].
  assert (Hnd : List.NoDup (map fst (fold_left (pure_step self) stems ([], ∅)).1)).
  { rewrite accumulated_keys. apply note_keys_nodup. constructor. }
  split; [exact Hnd|].
  intros d s Hin. rewrite <- (score_at_in _ _ _ Hnd Hin).
  rewrite pure_steps_scores, score_at_add_scores, sum_for_stems by exact Hwf.
  unfold score_at. simpl. lra.
Qed.

(** ** The IDF table *)

Lemma ln_monotone (x y : R) : (0 < x)%R -> (x <= y)%R -> (ln x <= ln y)%R.
Proof.
  intros Hx [Hlt | ->]; [|lra].
  left. now apply ln_increasing.
Qed.

Lemma idf_entry_ok (n : nat) (idf0 : gmap string R) (term : string)
    (postings : list (nat * nat)) :
  SearchIndex.idf_entry n idf0 (term, postings) =
  Ok (<[term := ln (INR (n + 1) / INR (length postings + 1))]> idf0).
Proof.
  unfold SearchIndex.idf_entry.
  assert (Hn : (0 < INR (n + 1))%R) by (apply lt_0_INR; lia).
  assert (Hd : (0 < INR (length postings + 1))%R) by (apply lt_0_INR; lia).
  rewrite py_div_nonzero by lra. cbn [mbind pyresult_bind].
  rewrite math_log_pos by now apply Rdiv_lt_0_compat.
  reflexivity.
Qed.

Lemma idf_loop (n : nat) (items : list (string * list (nat * nat)))
    (idf0 : gmap string R) :
  List.NoDup (map fst items) ->
  exists idf1,
    for_each (SearchIndex.idf_entry n) items idf0 = Ok idf1
    /\ (forall term postings,
          In (term, postings) items ->
          idf1 !! term = Some (ln (INR (n + 1) / INR (length postings + 1))))
    /\ (forall term, ~ In term (map fst items) -> idf1 !! term = idf0 !! term).
Proof.
  revert idf0. induction items as [|[t ps] items IH]; intros idf0 Hnd.
  - exists idf0. split; [reflexivity|]. split; [intros ? ? [] | reflexivity].
  - inversion Hnd as [|? ? Hnot Hnd']; subst.
    cbn [for_each]. rewrite idf_entry_ok. cbn [mbind pyresult_bind].
    destruct (IH (<[t := ln (INR (n + 1) / INR (length ps + 1))]> idf0) Hnd')
      as (idf1 & Hrun & Hin & Hout).
    exists idf1. split; [exact Hrun|]. split.
    + intros term postings [H | H].
      * injection H as -> ->. rewrite (Hout _ Hnot). apply lookup_insert_eq.
      * now apply Hin.
    + intros term Hterm. simpl in Hterm. rewrite Hout by tauto.
      apply lookup_insert_ne. tauto.
Qed.

Lemma build_idf_scores_ok (self : SearchIndex.t) :
  exists idf1,
    SearchIndex.build_idf_scores self =
      Ok (SearchIndex.mk (SearchIndex.documents self)
            (SearchIndex.inverted_index self) (SearchIndex.doc_lengths self)
            idf1 (SearchIndex.num_docs self))
    /\ forall term postings,
         SearchIndex.inverted_index self !! term = Some postings ->
         idf1 !! term =
           Some (ln (INR (SearchIndex.num_docs self + 1) / INR (length postings + 1))).
Proof.
  unfold SearchIndex.build_idf_scores.
  destruct (idf_loop (SearchIndex.num_docs self)
              (map_to_list (SearchIndex.inverted_index self))
              (SearchIndex.idf_scores self))
    as (idf1 & Hrun & Hin & _).
  { apply NoDup_ListNoDup. apply NoDup_fst_map_to_list. }
  exists idf1. rewrite Hrun. split; [reflexivity|].
  intros term postings H. apply Hin.
  apply list_elem_of_In. now apply elem_of_map_to_list.
Qed.

Lemma build_idf_scores_wf (self self' : SearchIndex.t) :
  index_wf self -> SearchIndex.build_idf_scores self = Ok self' -> index_wf self'.
Proof.
  intros [H1 H2 H3] H.
  destruct (build_idf_scores_ok self) as (idf1 & Hrun & _).
  rewrite Hrun in H. injection H as <-. now split.
Qed.

(** C8.  [build_idf_scores] returns, and in the index that it returns
    the IDF of every indexed term is [ln((N+1)/(df+1))], with [N] the
    number of documents and [df] the number of postings of the term;
    of two indexed terms, the one with the smaller [df] has the larger
    or equal IDF. *)
Theorem build_idf_scores_formula (self : SearchIndex.t) :
  exists self',
    SearchIndex.build_idf_scores self = Ok self'
    /\ SearchIndex.num_docs self' = SearchIndex.num_docs self
    /\ SearchIndex.inverted_index self' = SearchIndex.inverted_index self
    /\ (forall term postings,
          SearchIndex.inverted_index self' !! term = Some postings ->
          SearchIndex.idf_scores self' !! term =
            Some (ln (INR (SearchIndex.num_docs self' + 1)
                      / INR (length postings + 1))))
    /\ (forall a b postings_a postings_b,
          SearchIndex.inverted_index self' !! a = Some postings_a ->
          SearchIndex.inverted_index self' !! b = Some postings_b ->
          length postings_a <= length postings_b ->
          (idf self' b <= idf self' a)%R).
Proof.
  destruct (build_idf_scores_ok self) as (idf1 & Hrun & Hidf).
  eexists. split; [exact Hrun|]. simpl.
  split; [reflexivity|]. split; [reflexivity|]. split; [exact Hidf|].
  intros a b pa pb Ha Hb Hle. unfold idf. simpl.
  rewrite (Hidf _ _ Ha), (Hidf _ _ Hb). simpl.
  assert (Hn : (0 < INR (SearchIndex.num_docs self + 1))%R)
    by (apply lt_0_INR; lia).
  assert (Hpa : (0 < INR (length pa + 1))%R) by (apply lt_0_INR; lia).
  assert (Hpb : (0 < INR (length pb + 1))%R) by (apply lt_0_INR; lia).
  assert (Hab : (INR (length pa + 1) <= INR (length pb + 1))%R)
    by (apply le_INR; lia).
  apply ln_monotone; [now apply Rdiv_lt_0_compat|].
  unfold Rdiv. apply Rmult_le_compat_l; [lra|].
  now apply Rinv_le_contravar.
Qed.

(** ** Accesses by index in [search] *)

Lemma sorted_lt_nodup (l : list nat) : StronglySorted lt l -> List.NoDup l.
Proof.
  induction l as [|d l IH]; intros H; constructor.
  - now apply sorted_lt_not_in.
  - apply IH. now apply StronglySorted_inv in H.
Qed.

Lemma build_result_step (self : SearchIndex.t) (query_tokens : list string)
    (matched : gmap nat (gset string)) (results : list SearchIndex.result)
    (d : nat) (s : R) (doc : document) :
  SearchIndex.documents self !! d = Some doc ->
  SearchIndex.build_result self query_tokens matched results (d, s) =
  match doc !! "content" with
  | Some content =>
      Ok (results ++
          [SearchIndex.mk_result doc (round4 s) (default ∅ (matched !! d))
             (SearchIndex.create_snippet content query_tokens 100)])
  | None => Raise (KeyError "content")
  end.
Proof.
  intros H. unfold SearchIndex.build_result, getitem, doc_item. rewrite H.
  cbn [mbind pyresult_bind]. now destruct (doc !! "content").
Qed.

Lemma build_results_ok (self : SearchIndex.t) (query_tokens : list string)
    (matched : gmap nat (gset string)) (ranked : list (nat * R))
    (results : list SearchIndex.result) :
  Forall (fun e : nat * R => e.1 < length (SearchIndex.documents self)) ranked ->
  (exists r,
     for_each (SearchIndex.build_result self query_tokens matched) ranked results
     = Ok r)
  \/ for_each (SearchIndex.build_result self query_tokens matched) ranked results
     = Raise (KeyError "content").
Proof.
  intros Hall. revert results.
  induction Hall as [|[d s] ranked Hd _ IH]; intros results.
  - left. now exists results.
  - cbn [for_each].
    simpl in Hd. apply lookup_lt_is_Some_2 in Hd as [doc Hdoc].
    rewrite (build_result_step _ _ _ _ _ _ _ Hdoc).
    destruct (doc !! "content"); cbn [mbind pyresult_bind].
    + apply IH.
    + now right.
Qed.

Lemma ranked_in_bounds (self : SearchIndex.t) (stems : list string)
    (acc : SearchIndex.scoring) (k : Z) :
  index_wf self ->
  SearchIndex.accumulate self stems = Ok acc ->
  Forall (fun e : nat * R => e.1 < length (SearchIndex.documents self))
         (slice_to k (sorted_desc acc.1)).
Proof.
  intros Hwf Hacc.
  destruct (accumulate_scores self stems Hwf) as (acc' & Hacc' & Hkeys & _).
  rewrite Hacc in Hacc'. injection Hacc' as <-.
  apply List.Forall_forall. intros [d s] Hin. simpl.
  apply slice_to_in in Hin.
  apply (Permutation_in _ (sorted_desc_perm acc.1)) in Hin.
  apply (in_map fst) in Hin. rewrite Hkeys in Hin. simpl in Hin.
  apply reach_order_matches in Hin as (t & _ & Ht).
  destruct (postings_of_ok self Hwf t) as [Hall _].
  apply in_map_iff in Ht as (p & <- & Hp).
  rewrite List.Forall_forall in Hall. destruct (Hall p Hp) as [Hlt _].
  now rewrite <- (wf_num_docs self Hwf).
Qed.

(** On a well-formed index [search] never reads a list out of bounds:
    it returns, unless a document of the result has no [content]. *)
Lemma search_in_bounds (self : SearchIndex.t) (query : string) (max_results : Z) :
  index_wf self ->
  (exists results, SearchIndex.search self query max_results = Ok results)
  \/ SearchIndex.search self query max_results = Raise (KeyError "content").
Proof.
  intros Hwf. unfold SearchIndex.search.
  destruct (map simple_stem (tokenize query)) as [|t stems] eqn:Hstems.
  - left. now exists [].
  - destruct (accumulate_scores self (t :: stems) Hwf) as (acc & Hacc & _).
    rewrite Hacc. cbn [mbind pyresult_bind].
    apply build_results_ok. now apply (ranked_in_bounds self (t :: stems)).
Qed.

(** C10.  After any sequence of [add_document] calls on a fresh index,
    [num_docs] is the length of [documents] and of [doc_lengths]; every
    posting [(doc_id, tf)] has [doc_id < num_docs] and [tf >= 1], and no
    term has two postings of one document; [search] then reads
    [doc_lengths] and [documents] in bounds, before and after
    [build_idf_scores]: the only exception left to it is the [KeyError]
    of a document without [content]. *)
Theorem add_document_invariants (docs : list document) :
  let self := SearchIndex.add_all SearchIndex.init docs in
  SearchIndex.num_docs self = length (SearchIndex.documents self)
  /\ SearchIndex.num_docs self = length (SearchIndex.doc_lengths self)
  /\ (forall term postings,
        SearchIndex.inverted_index self !! term = Some postings ->
        Forall (fun p : nat * nat => p.1 < SearchIndex.num_docs self /\ 1 <= p.2)
               postings
        /\ List.NoDup (map fst postings))
  /\ (forall query max_results,
        (exists results, SearchIndex.search self query max_results = Ok results)
        \/ SearchIndex.search self query max_results = Raise (KeyError "content"))
  /\ (forall self' query max_results,
        SearchIndex.build_idf_scores self = Ok self' ->
        (exists results, SearchIndex.search self' query max_results = Ok results)
        \/ SearchIndex.search self' query max_results = Raise (KeyError "content")).
Proof.
  intros self.
  assert (Hwf : index_wf self) by (apply add_all_wf, init_wf).
  split; [apply (wf_num_docs self Hwf)|].
  split; [symmetry; apply (wf_doc_lengths self Hwf)|].
  split.
  - intros term postings H.
    destruct (wf_postings self Hwf _ _ H) as [_ [Hall Hs]].
    split; [exact Hall | now apply sorted_lt_nodup].
  - split.
    + intros query k. now apply search_in_bounds.
    + intros self' query k H. apply search_in_bounds.
      now apply (build_idf_scores_wf self).
Qed.

(** ** Scores of a built index *)

(** [build_index] returns the index of [add_all] with its IDF table. *)
Lemma build_index_ok (docs : list document) :
  let added := SearchIndex.add_all SearchIndex.init docs in
  exists self,
    SearchIndex.build_index docs = Ok self
    /\ index_wf self
    /\ SearchIndex.documents self = SearchIndex.documents added
    /\ SearchIndex.inverted_index self = SearchIndex.inverted_index added
    /\ SearchIndex.doc_lengths self = SearchIndex.doc_lengths added
    /\ SearchIndex.num_docs self = SearchIndex.num_docs added
    /\ forall term postings,
         SearchIndex.inverted_index added !! term = Some postings ->
         SearchIndex.idf_scores self !! term =
           Some (ln (INR (SearchIndex.num_docs added + 1)
                     / INR (length postings + 1))).
Proof.
  intros added. unfold SearchIndex.build_index. fold added.
  destruct (build_idf_scores_ok added) as (idf1 & Hrun & Hidf).
  eexists. split; [exact Hrun|].
  split; [|simpl; auto 10].
  apply (build_idf_scores_wf added); [|exact Hrun].
  apply add_all_wf, init_wf.
Qed.

Lemma ln_gt_1 (x : R) : (1 < x)%R -> (0 < ln x)%R.
Proof. intros H. rewrite <- ln_1. apply ln_increasing; lra. Qed.

Lemma term_score_positive (self : SearchIndex.t) (term : string) (tf doc_id : nat) :
  1 <= tf -> (0 < idf self term)%R -> (0 < term_score self term tf doc_id)%R.
Proof.
  intros Htf Hidf. unfold term_score.
  apply Rdiv_lt_0_compat.
  - apply Rmult_lt_0_compat; [|exact Hidf].
    apply ln_gt_1. change 1%R with (INR 1). apply lt_INR. lia.
  - apply sqrt_lt_R0. apply lt_0_INR. lia.
Qed.

Lemma stems_fencing_fences : stems_of "fencing fences" = ["fenc"; "fenc"].
Proof. vm_compute. reflexivity. Qed.

Lemma fences_postings :
  SearchIndex.inverted_index (SearchIndex.add_all SearchIndex.init docs_fences)
    !! "fenc" = Some [(0, 3)].
Proof. vm_compute. reflexivity. Qed.

Lemma fences_num_docs :
  SearchIndex.num_docs (SearchIndex.add_all SearchIndex.init docs_fences) = 2.
Proof. vm_compute. reflexivity. Qed.

(** For the documents "Fences" and "Noise" and the query
    [fencing fences], whose two tokens have the stem [fenc], the first
    document gets the term score of [fenc] twice. *)
Lemma repeated_stem_counts_twice :
  exists self,
    SearchIndex.build_index docs_fences = Ok self
    /\ ~ scores_count_distinct_terms self "fencing fences".
Proof.
  destruct (build_index_ok docs_fences)
    as (self & Hbuild & Hwf & _ & Hii & _ & _ & Hidf).
  exists self. split; [exact Hbuild|]. intros Hclaim.
  destruct (accumulate_scores self (stems_of "fencing fences") Hwf)
    as (acc & Hacc & Hkeys & _ & Hscore).
  assert (Hps : postings_of self "fenc" = [(0, 3)]).
  { unfold postings_of. now rewrite Hii, fences_postings. }
  assert (Hreach : reach_order self (stems_of "fencing fences") = [0]).
  { rewrite stems_fencing_fences. unfold reach_order. simpl.
    rewrite Hps. reflexivity. }
  rewrite Hreach in Hkeys.
  destruct acc as [[|[d s] [|? ?]] matched]; try discriminate Hkeys.
  simpl in Hkeys. injection Hkeys as ->.
  pose proof (Hscore 0 s (or_introl eq_refl)) as H1.
  pose proof (Hclaim _ 0 s Hacc (or_introl eq_refl)) as H2.
  rewrite stems_fencing_fences in H1, H2.
  unfold score_per_occurrence, score_per_distinct_term, contribution in H1, H2.
  simpl in H1, H2. rewrite Hps in H1, H2. simpl in H1, H2.
  assert (Hpos : (0 < term_score self "fenc" 3 0)%R).
  { apply term_score_positive; [lia|]. unfold idf.
    rewrite (Hidf _ _ fences_postings), fences_num_docs. simpl default.
    apply ln_gt_1. simpl. lra. }
  lra.
Qed.

(** C2, amended.  Every occurrence of a stem in the stemmed query that
    is a term of the inverted index contributes
    [ln(1+tf) * idf(term) / sqrt(doc_length[doc_id] + 1)] to the score of
    a document that has a posting of the term, once per occurrence and
    document; the documents with a score are those that have one of the
    stems.  A stem that two tokens of the query share is counted twice. *)
Theorem search_scores_per_occurrence (docs : list document) :
  exists self,
    SearchIndex.build_index docs = Ok self
    /\ forall query max_results,
       exists acc,
         SearchIndex.accumulate self (stems_of query) = Ok acc
         /\ SearchIndex.ranked_docs self query max_results
            = Ok (slice_to max_results (sorted_desc acc.1))
         /\ List.NoDup (map fst acc.1)
         /\ (forall doc_id,
               In doc_id (map fst acc.1) <-> matches self (stems_of query) doc_id)
         /\ (forall doc_id score,
               In (doc_id, score) acc.1 ->
               score = score_per_occurrence self (stems_of query) doc_id).
Proof.
  destruct (build_index_ok docs) as (self & Hbuild & Hwf & _).
  exists self. split; [exact Hbuild|]. intros query k.
  destruct (accumulate_scores self (stems_of query) Hwf)
    as (acc & Hacc & Hkeys & Hnd & Hscore).
  exists acc. split; [exact Hacc|]. split.
  - unfold SearchIndex.ranked_docs. fold (stems_of query). now rewrite Hacc.
  - split; [exact Hnd|]. split; [|exact Hscore].
    intros d. rewrite Hkeys. apply reach_order_matches.
Qed.

(** ** The order of the results *)

Lemma precedes_map {A B : Type} (f : A -> B) (l : list A) (x y : A) :
  precedes l x y -> precedes (map f l) (f x) (f y).
Proof.
  intros (l1 & l2 & l3 & ->). exists (map f l1), (map f l2), (map f l3).
  now rewrite map_app, map_cons, map_app, map_cons.
Qed.

Lemma precedes_sorted_lt (l : list nat) (a b : nat) :
  StronglySorted lt l -> precedes l a b -> a < b.
Proof.
  induction 1 as [|z l Hs IH Hz]; intros H.
  - destruct H as (l1 & l2 & l3 & H). now destruct l1.
  - apply precedes_cons in H as [[-> Hin] | H]; [|now apply IH].
    rewrite List.Forall_forall in Hz. now apply Hz.
Qed.

Lemma note_keys_fresh (ds keys : list nat) :
  List.NoDup (keys ++ ds) -> fold_left note_key ds keys = keys ++ ds.
Proof.
  revert keys. induction ds as [|d ds IH]; intros keys Hnd; simpl.
  - now rewrite app_nil_r.
  - assert (Hd : existsb (Nat.eqb d) keys = false).
    { destruct (existsb (Nat.eqb d) keys) eqn:H; [|reflexivity].
      apply existsb_eqb_in in H. apply NoDup_remove_2 in Hnd.
      exfalso. apply Hnd. apply in_or_app. now left. }
    unfold note_key at 2. rewrite Hd.
    rewrite IH; rewrite <- app_assoc; [reflexivity | exact Hnd].
Qed.

(** A query with one stem reaches the documents in the order in which
    they were added. *)
Lemma reach_order_one_stem (self : SearchIndex.t) (t : string) :
  index_wf self -> StronglySorted lt (reach_order self [t]).
Proof.
  intros Hwf. destruct (postings_of_ok self Hwf t) as [_ Hs].
  unfold reach_order. simpl. rewrite app_nil_r.
  rewrite note_keys_fresh; [exact Hs|]. now apply sorted_lt_nodup.
Qed.

(** The ranking of a well-formed index: descending scores, and documents
    of equal score in the order in which scoring reached them. *)
Lemma ranked_docs_order (self : SearchIndex.t) (query : string) (k : Z) :
  index_wf self ->
  exists ranked,
    SearchIndex.ranked_docs self query k = Ok ranked
    /\ forall x y,
         precedes ranked x y ->
         (y.2 <= x.2)%R
         /\ (x.2 = y.2 -> precedes (reach_order self (stems_of query)) x.1 y.1).
Proof.
  intros Hwf.
  destruct (accumulate_scores self (stems_of query) Hwf)
    as (acc & Hacc & Hkeys & _).
  exists (slice_to k (sorted_desc acc.1)). split.
  - unfold SearchIndex.ranked_docs. fold (stems_of query). now rewrite Hacc.
  - intros x y H. split.
    + apply (precedes_sorted (slice_to k (sorted_desc acc.1))); [|exact H].
      apply slice_to_sorted, sorted_desc_sorted.
    + intros Heq. rewrite <- Hkeys. apply precedes_map.
      apply sorted_desc_stable; [|exact Heq].
      now apply precedes_slice_to in H.
Qed.

Lemma slice_to_nil {A : Type} (k : Z) : slice_to k (@nil A) = [].
Proof. unfold slice_to. destruct (0 <=? k)%Z; apply firstn_nil. Qed.

Lemma build_results_follow (self : SearchIndex.t) (query_tokens : list string)
    (matched : gmap nat (gset string)) (ranked : list (nat * R))
    (results0 results : list SearchIndex.result) :
  for_each (SearchIndex.build_result self query_tokens matched) ranked results0
  = Ok results ->
  exists added, results = results0 ++ added /\ Forall2 (entry_of self) added ranked.
Proof.
  revert results0. induction ranked as [|[d s] ranked IH]; intros results0 H.
  - injection H as <-. exists []. split; [now rewrite app_nil_r | constructor].
  - cbn [for_each] in H.
    destruct (SearchIndex.documents self !! d) as [doc|] eqn:Hdoc.
    + rewrite (build_result_step _ _ _ _ _ _ _ Hdoc) in H.
      destruct (doc !! "content") as [content|]; [|discriminate H].
      cbn [mbind pyresult_bind] in H.
      apply IH in H as (added & -> & Hadded).
      eexists (_ :: added). split; [now rewrite <- app_assoc|].
      constructor; [|exact Hadded]. now split.
    + unfold SearchIndex.build_result, getitem in H. rewrite Hdoc in H.
      discriminate H.
Qed.

Lemma search_follows_ranked (self : SearchIndex.t) (query : string) (k : Z)
    (results : list SearchIndex.result) :
  SearchIndex.search self query k = Ok results ->
  exists ranked,
    SearchIndex.ranked_docs self query k = Ok ranked
    /\ Forall2 (entry_of self) results ranked.
Proof.
  unfold SearchIndex.search, SearchIndex.ranked_docs.
  destruct (map simple_stem (tokenize query)) as [|t stems].
  - intros [= <-]. exists []. split; [|constructor].
    unfold SearchIndex.accumulate. simpl. now rewrite slice_to_nil.
  - destruct (SearchIndex.accumulate self (t :: stems)) as [acc|e];
      [|discriminate].
    cbn [mbind pyresult_bind]. intros H.
    apply build_results_follow in H as (added & -> & Hadded).
    eexists. split; [reflexivity | exact Hadded].
Qed.

Lemma stems_alpha_beta : stems_of "alpha beta" = ["alpha"; "beta"].
Proof. vm_compute. reflexivity. Qed.

Lemma beta_alpha_postings :
  let added := SearchIndex.add_all SearchIndex.init docs_beta_alpha in
  SearchIndex.inverted_index added !! "alpha" = Some [(1, 3)]
  /\ SearchIndex.inverted_index added !! "beta" = Some [(0, 3)]
  /\ SearchIndex.doc_lengths added = [3; 3].
Proof. vm_compute. repeat split; reflexivity. Qed.

(** For the documents "Beta" (added first) and "Alpha" and the query
    [alpha beta], both documents get the same score and the second
    document is ranked first: scoring reaches it first, through the first
    stem of the query. *)
Lemma tie_follows_query_order :
  exists self,
    SearchIndex.build_index docs_beta_alpha = Ok self
    /\ ~ ties_in_insertion_order self "alpha beta" 10.
Proof.
  destruct (build_index_ok docs_beta_alpha)
    as (self & Hbuild & Hwf & _ & Hii & Hdl & _ & Hidf).
  destruct beta_alpha_postings as (Ha & Hb & Hlen).
  exists self. split; [exact Hbuild|]. intros Hclaim.
  destruct (accumulate_scores self (stems_of "alpha beta") Hwf)
    as (acc & Hacc & Hkeys & _ & Hscore).
  assert (Hpa : postings_of self "alpha" = [(1, 3)]).
  { unfold postings_of. now rewrite Hii, Ha. }
  assert (Hpb : postings_of self "beta" = [(0, 3)]).
  { unfold postings_of. now rewrite Hii, Hb. }
  assert (Hreach : reach_order self (stems_of "alpha beta") = [1; 0]).
  { rewrite stems_alpha_beta. unfold reach_order. simpl.
    rewrite Hpa, Hpb. reflexivity. }
  rewrite Hreach in Hkeys.
  destruct acc as [[|[d1 s1] [|[d0 s0] [|? ?]]] matched]; try discriminate Hkeys.
  simpl in Hkeys. injection Hkeys as -> ->.
  pose proof (Hscore 1 s1 (or_introl eq_refl)) as H1.
  pose proof (Hscore 0 s0 (or_intror (or_introl eq_refl))) as H0.
  rewrite stems_alpha_beta in H1, H0.
  unfold score_per_occurrence, contribution in H1, H0.
  simpl in H1, H0. rewrite Hpa, Hpb in H1, H0. simpl in H1, H0.
  assert (Heq : s1 = s0).
  { rewrite H1, H0. unfold term_score, idf, doc_length.
    rewrite (Hidf _ _ Ha), (Hidf _ _ Hb), Hdl, Hlen. simpl. lra. }
  clear H1 H0. subst s1.
  assert (Hranked : SearchIndex.ranked_docs self "alpha beta" 10
                    = Ok [(1, s0); (0, s0)]).
  { unfold SearchIndex.ranked_docs. fold (stems_of "alpha beta").
    rewrite Hacc. cbn [mbind pyresult_bind]. simpl.
    destruct (Rlt_dec s0 s0); [lra | reflexivity]. }
  destruct (Hclaim _ (1, s0) (0, s0) Hranked) as [_ Hlt].
  - now exists [], [], [].
  - specialize (Hlt eq_refl). simpl in Hlt. lia.
Qed.

(** C3, amended.  The ranking behind the result list of [search] is in
    descending order of accumulated score, and of two returned documents
    with equal scores the one that scoring reached first comes first:
    the query stems are taken in order and the postings of a stem in the
    order in which the documents were added.  For a query with a single
    stem this is the order in which the documents were added. *)
Theorem search_order_stable (docs : list document) :
  exists self,
    SearchIndex.build_index docs = Ok self
    /\ forall query max_results,
       exists ranked,
         SearchIndex.ranked_docs self query max_results = Ok ranked
         /\ (forall results,
               SearchIndex.search self query max_results = Ok results ->
               Forall2 (entry_of self) results ranked)
         /\ (forall x y,
               precedes ranked x y ->
               (y.2 <= x.2)%R
               /\ (x.2 = y.2 ->
                   precedes (reach_order self (stems_of query)) x.1 y.1))
         /\ (forall t x y,
               stems_of query = [t] ->
               precedes ranked x y -> x.2 = y.2 -> x.1 < y.1).
Proof.
  destruct (build_index_ok docs) as (self & Hbuild & Hwf & _).
  exists self. split; [exact Hbuild|]. intros query k.
  destruct (ranked_docs_order self query k Hwf) as (ranked & Hranked & Horder).
  exists ranked. split; [exact Hranked|]. split; [|split; [exact Horder|]].
  - intros results H.
    apply search_follows_ranked in H as (ranked' & H' & Hall).
    rewrite Hranked in H'. now injection H' as <-.
  - intros t x y Ht Hxy Heq.
    destruct (Horder x y Hxy) as [_ Hreach]. specialize (Hreach Heq).
    rewrite Ht in Hreach.
    apply (precedes_sorted_lt (reach_order self [t])); [|exact Hreach].
    now apply reach_order_one_stem.
Qed.

(** ** Batches of the embedding ingestion *)

Section Ingestion.

Import EmbeddingSearchIndex.

Context {E : Type} (embedder : Embedder E).

Lemma batch_body_success (docs : list document) (b i : nat) (w : world E)
    (vectors : list (list R)) (e' : E) :
  embed_texts embedder (map embed_input (slice i (i + b) docs)) (provider w)
  = (inr vectors, e') ->
  batch_body embedder docs b i w =
  (Ok tt,
   mk_world
     (mk (documents (index w) ++ slice i (i + b) docs)
         (embeddings (index w) ++ vectors))
     e'
     (trace w ++ EmbedTexts (map embed_input (slice i (i + b) docs))
              :: (if i + b <? length docs then [Sleep 25] else []))).
Proof.
  intros H. unfold batch_body, try_except, call_embed_texts, extend, sleep.
  unfold mbind, M_bind, mret, M_ret. rewrite H. simpl.
  destruct (i + b <? length docs); simpl; [|reflexivity].
  now rewrite <- app_assoc.
Qed.

Lemma for_loop_app {B : Type} (body : B -> M E unit) (xs ys : list B) (w : world E) :
  for_loop body (xs ++ ys) w =
  match for_loop body xs w with
  | (Ok _, w1) => for_loop body ys w1
  | (Raise e, w1) => (Raise e, w1)
  end.
Proof.
  revert w. induction xs as [|x xs IH]; intros w; simpl; [reflexivity|].
  unfold mbind, M_bind. destruct (body x w) as [[[]|e] w1]; [|reflexivity].
  apply IH.
Qed.

(** With a provider that answers every call, the loop runs through all
    its batches. *)
Lemma for_loop_success (docs : list document) (b : nat) (starts : list nat)
    (w : world E) :
  always_succeeds embedder ->
  exists w',
    for_loop (batch_body embedder docs b) starts w = (Ok tt, w')
    /\ trace w' =
       trace w ++
       flat_map (fun i => EmbedTexts (map embed_input (slice i (i + b) docs))
                          :: (if i + b <? length docs then [Sleep 25] else []))
                starts
    /\ documents (index w') =
       documents (index w) ++ flat_map (fun i => slice i (i + b) docs) starts.
Proof.
  intros Hok. revert w. induction starts as [|i starts IH]; intros w.
  - exists w. simpl. now rewrite !app_nil_r.
  - destruct (Hok (map embed_input (slice i (i + b) docs)) (provider w))
      as (vectors & e' & Hcall).
    cbn [for_loop]. unfold mbind, M_bind.
    rewrite (batch_body_success docs b i w vectors e' Hcall).
    match goal with |- context [for_loop _ starts ?w1] =>
      destruct (IH w1) as (w' & Hrun & Htrace & Hdocs) end.
    exists w'. split; [exact Hrun|]. simpl in Htrace, Hdocs. split.
    + rewrite Htrace. cbn [flat_map]. now rewrite <- !app_assoc.
    + rewrite Hdocs. cbn [flat_map]. now rewrite <- !app_assoc.
Qed.

End Ingestion.

Lemma ceil_div_cases (n b : nat) :
  0 < b ->
  (n mod b = 0 /\ batch_count n b = n / b)
  \/ (n mod b <> 0 /\ batch_count n b = n / b + 1).
Proof.
  intros Hb. unfold batch_count.
  pose proof (Nat.div_mod_eq n b) as Hn.
  pose proof (Nat.mod_upper_bound n b ltac:(lia)) as Hr.
  destruct (Nat.eq_dec (n mod b) 0) as [H0|H0]; [left | right]; split;
    try assumption.
  - symmetry. apply (Nat.div_unique _ _ _ (b - 1)); [lia|].
    set (q := n / b) in *. lia.
  - symmetry. apply (Nat.div_unique _ _ _ (n mod b - 1)); [lia|].
    set (q := n / b) in *. set (r := n mod b) in *.
    rewrite Nat.mul_add_distr_l. lia.
Qed.

(** A batch is followed by another one iff it is not the last. *)
Lemma more_batches (n b j : nat) :
  0 < b -> (j * b + b <? n) = (j + 1 <? batch_count n b).
Proof.
  intros Hb.
  pose proof (Nat.div_mod_eq n b) as Hn.
  pose proof (Nat.mod_upper_bound n b ltac:(lia)) as Hr.
  apply Bool.eq_true_iff_eq. rewrite !Nat.ltb_lt.
  destruct (ceil_div_cases n b Hb) as [[H0 ->] | [H0 ->]];
    set (q := n / b) in *; set (r := n mod b) in *; split; intros H.
  - assert (b * (j + 1) < b * q) by lia. nia.
  - assert (b * (j + 1) < b * q) by nia. lia.
  - destruct (Nat.le_gt_cases (j + 1) q) as [Hle|Hgt]; [lia|].
    assert (b * (q + 1) <= b * (j + 1)) by nia. lia.
  - assert (b * (j + 1) <= b * q) by nia. lia.
Qed.

Lemma firstn_add {A : Type} (a c : nat) (l : list A) :
  firstn (a + c) l = firstn a l ++ firstn c (skipn a l).
Proof.
  revert l. induction a as [|a IH]; intros [|x l]; simpl;
    try reflexivity.
  - now rewrite firstn_nil.
  - now rewrite IH.
Qed.

Lemma skipn_add {A : Type} (a c : nat) (l : list A) :
  skipn (a + c) l = skipn c (skipn a l).
Proof.
  revert l. induction a as [|a IH]; intros [|x l]; simpl;
    try reflexivity.
  - now rewrite skipn_nil.
  - apply IH.
Qed.

Lemma slice_firstn_skipn {A : Type} (i b : nat) (l : list A) :
  slice i (i + b) l = firstn b (skipn i l).
Proof. unfold slice. f_equal. lia. Qed.

(** Consecutive batches are consecutive pieces of the input. *)
Lemma batches_from (docs : list document) (b m j0 : nat) :
  flat_map (batch_of docs b) (seq j0 m) = firstn (m * b) (skipn (j0 * b) docs).
Proof.
  revert j0. induction m as [|m IH]; intros j0; simpl; [reflexivity|].
  rewrite IH. unfold batch_of. rewrite slice_firstn_skipn, firstn_add.
  f_equal. f_equal. rewrite <- skipn_add. f_equal. lia.
Qed.

Lemma batch_count_covers (n b : nat) : 0 < b -> n <= batch_count n b * b.
Proof.
  intros Hb.
  pose proof (Nat.div_mod_eq n b) as Hn.
  pose proof (Nat.mod_upper_bound n b ltac:(lia)) as Hr.
  destruct (ceil_div_cases n b Hb) as [[H0 ->] | [H0 ->]];
    set (q := n / b) in *; set (r := n mod b) in *; nia.
Qed.

Lemma batches_concat (docs : list document) (b : nat) :
  0 < b ->
  flat_map (batch_of docs b) (seq 0 (batch_count (length docs) b)) = docs.
Proof.
  intros Hb. rewrite batches_from. simpl.
  apply firstn_all2. now apply batch_count_covers.
Qed.

Lemma batch_length (docs : list document) (b j : nat) :
  0 < b -> j < batch_count (length docs) b ->
  length (batch_of docs b j) =
  if j + 1 <? batch_count (length docs) b then b
  else if length docs mod b =? 0 then b else length docs mod b.
Proof.
  intros Hb Hj. unfold batch_of.
  rewrite slice_firstn_skipn, length_firstn, length_skipn.
  set (n := length docs) in *.
  pose proof (Nat.div_mod_eq n b) as Hn.
  pose proof (Nat.mod_upper_bound n b ltac:(lia)) as Hr.
  destruct (Nat.ltb_spec (j + 1) (batch_count n b)) as [Hlt|Hge].
  - rewrite <- Nat.ltb_lt, <- (more_batches n b j Hb), Nat.ltb_lt in Hlt. lia.
  - assert (Hjk : j + 1 = batch_count n b) by lia.
    destruct (ceil_div_cases n b Hb) as [[H0 Hk] | [H0 Hk]];
      rewrite Hk in Hjk; set (q := n / b) in *; set (r := n mod b) in *.
    + rewrite H0. simpl. assert (b * (j + 1) = b * q) by (f_equal; lia). nia.
    + destruct (Nat.eqb_spec r 0) as [|_]; [contradiction|].
      assert (j = q) by lia. subst j. nia.
Qed.

Lemma calls_count (docs : list document) (b k : nat) (js : list nat) :
  length (List.filter is_call (flat_map (batch_events docs b k) js)) = length js.
Proof.
  induction js as [|j js IH]; simpl; [reflexivity|].
  rewrite List.filter_app, length_app, IH.
  now destruct (j + 1 <? k).
Qed.

Lemma delays_count (docs : list document) (b k m j0 : nat) :
  j0 + m <= k ->
  length (List.filter is_delay (flat_map (batch_events docs b k) (seq j0 m))) =
  if j0 + m =? k then m - 1 else m.
Proof.
  revert j0. induction m as [|m IH]; intros j0 Hle.
  - simpl. now destruct (j0 + 0 =? k).
  - cbn [seq flat_map batch_events].
    cbn [List.filter is_delay]. rewrite List.filter_app, length_app.
    rewrite (IH (S j0)) by lia.
    replace (S j0 + m) with (j0 + S m) by lia.
    unfold batch_events. cbn [List.filter is_delay].
    destruct (j0 + 1 <? k) eqn:Hlt;
      [apply Nat.ltb_lt in Hlt | apply Nat.ltb_ge in Hlt];
      destruct (Nat.eqb_spec (j0 + S m) k) as [Heq|Hne]; simpl; lia.
Qed.

Lemma flat_map_map {A B C : Type} (f : B -> list C) (g : A -> B) (l : list A) :
  flat_map f (map g l) = flat_map (fun x => f (g x)) l.
Proof. induction l as [|x l IH]; simpl; [reflexivity | now rewrite IH]. Qed.

Lemma docs_of_length_12 (docs : list document) :
  length docs = 12 ->
  exists d1 d2 d3 d4 d5 d6 d7 d8 d9 d10 d11 d12,
    docs = [d1; d2; d3; d4; d5; d6; d7; d8; d9; d10; d11; d12].
Proof.
  intros H.
  do 12 (destruct docs as [|? docs]; [discriminate H|]).
  destruct docs; [|discriminate H]. repeat eexists.
Qed.

(** C6.  With a positive batch size [b] and a provider that answers
    every call, [add_documents] returns after exactly [ceil(n/b)] calls,
    one per batch; the batches are consecutive pieces of the input, of
    size [b] except for a last one of [n mod b] when [b] does not divide
    [n]; the delay of 25 seconds follows every batch but the last.  For
    12 documents and [b = 5]: calls of 5, 5 and 2 texts, and two delays. *)
Theorem add_documents_batches {E : Type} (embedder : Embedder E)
    (docs : list document) (b : nat) (w : EmbeddingSearchIndex.world E) :
  0 < b ->
  always_succeeds embedder ->
  let n := length docs in
  let k := batch_count n b in
  exists w',
    EmbeddingSearchIndex.add_documents embedder docs (Z.of_nat b) w = (Ok tt, w')
    /\ EmbeddingSearchIndex.trace w' =
       EmbeddingSearchIndex.trace w ++ ingestion_events docs b
    /\ length (List.filter is_call (ingestion_events docs b)) = k
    /\ length (List.filter is_delay (ingestion_events docs b)) = k - 1
    /\ flat_map (batch_of docs b) (seq 0 k) = docs
    /\ (forall j, j < k ->
          length (batch_of docs b j) =
          if j + 1 <? k then b else if n mod b =? 0 then b else n mod b)
    /\ EmbeddingSearchIndex.documents (EmbeddingSearchIndex.index w') =
       EmbeddingSearchIndex.documents (EmbeddingSearchIndex.index w) ++ docs
    /\ (n = 12 -> b = 5 ->
        map event_shape (ingestion_events docs b)
        = [inl 5; inr 25; inl 5; inr 25; inl 2]).
Proof.
  intros Hb Hok n k.
  destruct (for_loop_success embedder docs b
              (map (fun j => j * b) (seq 0 k)) w Hok)
    as (w' & Hrun & Htrace & Hdocs).
  exists w'. split; [|split; [|split; [|split; [|split; [|split; [|split]]]]]].
  - unfold EmbeddingSearchIndex.add_documents, py_range.
    destruct (Z.eqb_spec (Z.of_nat b) 0) as [|_]; [lia|].
    destruct (Z.ltb_spec (Z.of_nat b) 0) as [|_]; [lia|].
    rewrite Nat2Z.id. exact Hrun.
  - rewrite Htrace. f_equal. rewrite flat_map_map.
    unfold ingestion_events. fold n k. apply flat_map_ext. intros j.
    unfold batch_events, batch_of. now rewrite (more_batches n b j Hb).
  - unfold ingestion_events. fold n k. now rewrite calls_count, length_seq.
  - unfold ingestion_events. fold n k.
    rewrite (delays_count docs b k k 0) by lia. now rewrite Nat.eqb_refl.
  - now apply batches_concat.
  - intros j Hj. now apply batch_length.
  - rewrite Hdocs. f_equal. rewrite flat_map_map.
    now apply (batches_concat docs b).
  - intros Hn ->. subst n.
    apply docs_of_length_12 in Hn
      as (d1 & d2 & d3 & d4 & d5 & d6 & d7 & d8 & d9 & d10 & d11 & d12 & ->).
    reflexivity.
Qed.

Lemma steady_embedder_succeeds : always_succeeds steady_embedder.
Proof. intros texts e. now eexists _, _. Qed.

(** Twelve documents in batches of five, with a provider that answers
    every call. *)
Lemma add_documents_batches_witness :
  0 < 5
  /\ always_succeeds steady_embedder
  /\ exists w',
       EmbeddingSearchIndex.add_documents steady_embedder docs_twelve 5 (fresh tt)
       = (Ok tt, w')
       /\ map event_shape (EmbeddingSearchIndex.trace w')
          = [inl 5; inr 25; inl 5; inr 25; inl 2].
Proof.
  split; [lia|]. split; [exact steady_embedder_succeeds|].
  destruct (add_documents_batches steady_embedder docs_twelve 5 (fresh tt)
              ltac:(lia) steady_embedder_succeeds)
    as (w' & Hrun & Htrace & _ & _ & _ & _ & _ & H12).
  exists w'. split; [exact Hrun|].
  rewrite Htrace. simpl app. apply H12; reflexivity.
Defined.

(** ** Failures of the provider during ingestion *)

Section Retry.

Import EmbeddingSearchIndex.

Context {E : Type} (embedder : Embedder E).

Variables (docs : list document) (b i : nat) (w : world E).

Let batch : list document := slice i (i + b) docs.
Let texts : list string := map embed_input batch.

(** A failure that is not classified as a rate limit leaves the batch
    after one call. *)
Lemma batch_body_failure (message : string) (e1 : E) :
  embed_texts embedder texts (provider w) = (inl message, e1) ->
  is_rate_limit (EmbedderError message) = false ->
  batch_body embedder docs b i w =
  (Raise (EmbedderError message),
   mk_world (index w) e1 (trace w ++ [EmbedTexts texts])).
Proof.
  intros H Hrate. unfold batch_body, try_except, call_embed_texts, raise.
  unfold mbind, M_bind. fold batch texts. rewrite H. simpl.
  now rewrite Hrate.
Qed.

(** A rate-limit failure is followed by 30 seconds and one more call; a
    second failure, of any kind, leaves the batch. *)
Lemma batch_body_retry_failure (message message2 : string) (e1 e2 : E) :
  embed_texts embedder texts (provider w) = (inl message, e1) ->
  is_rate_limit (EmbedderError message) = true ->
  embed_texts embedder texts e1 = (inl message2, e2) ->
  batch_body embedder docs b i w =
  (Raise (EmbedderError message2),
   mk_world (index w) e2
     (trace w ++ [EmbedTexts texts; Sleep 30; EmbedTexts texts])).
Proof.
  intros H Hrate H2.
  unfold batch_body, try_except, call_embed_texts, raise, sleep.
  unfold mbind, M_bind. fold batch texts. rewrite H. simpl.
  rewrite Hrate. simpl. rewrite H2. simpl.
  now rewrite <- !app_assoc.
Qed.

Lemma batch_body_retry_success (message : string) (vectors : list (list R))
    (e1 e2 : E) :
  embed_texts embedder texts (provider w) = (inl message, e1) ->
  is_rate_limit (EmbedderError message) = true ->
  embed_texts embedder texts e1 = (inr vectors, e2) ->
  batch_body embedder docs b i w =
  (Ok tt,
   mk_world
     (mk (documents (index w) ++ batch) (embeddings (index w) ++ vectors))
     e2
     (trace w ++ [EmbedTexts texts; Sleep 30; EmbedTexts texts]
              ++ (if i + b <? length docs then [Sleep 25] else []))).
Proof.
  intros H Hrate H2.
  unfold batch_body, try_except, call_embed_texts, raise, sleep, extend.
  unfold mbind, M_bind, mret, M_ret. fold batch texts. rewrite H. simpl.
  rewrite Hrate. simpl. rewrite H2. simpl.
  destruct (i + b <? length docs); simpl; now rewrite <- !app_assoc.
Qed.

(** A batch that ends without exception has put its documents into the
    index. *)
Lemma batch_body_documents (w' : world E) :
  batch_body embedder docs b i w = (Ok tt, w') ->
  documents (index w') = documents (index w) ++ batch.
Proof.
  unfold batch_body, try_except, call_embed_texts, raise, sleep, extend.
  unfold mbind, M_bind, mret, M_ret. fold batch texts.
  destruct (embed_texts embedder texts (provider w)) as [[message|vectors] e1];
    simpl.
  - destruct (is_rate_limit (EmbedderError message)); simpl; [|discriminate].
    destruct (embed_texts embedder texts e1) as [[message2|vectors] e2]; simpl;
      [discriminate|].
    destruct (i + b <? length docs); intros [= <-]; reflexivity.
  - destruct (i + b <? length docs); intros [= <-]; reflexivity.
Qed.

End Retry.

Lemma for_loop_documents {E : Type} (embedder : Embedder E)
    (docs : list document) (b : nat) (starts : list nat)
    (w w' : EmbeddingSearchIndex.world E) :
  EmbeddingSearchIndex.for_loop
    (EmbeddingSearchIndex.batch_body embedder docs b) starts w = (Ok tt, w') ->
  EmbeddingSearchIndex.documents (EmbeddingSearchIndex.index w') =
  EmbeddingSearchIndex.documents (EmbeddingSearchIndex.index w)
  ++ flat_map (fun i => slice i (i + b) docs) starts.
Proof.
  revert w. induction starts as [|i starts IH]; intros w; simpl.
  - intros [= <-]. now rewrite app_nil_r.
  - unfold mbind, EmbeddingSearchIndex.M_bind.
    destruct (EmbeddingSearchIndex.batch_body embedder docs b i w)
      as [[[]|e] w1] eqn:Hbody; [|discriminate].
    intros H. apply IH in H. rewrite H.
    rewrite (batch_body_documents embedder docs b i w w1 Hbody).
    now rewrite <- app_assoc.
Qed.

(** C5.  After the batches [done] have ended without exception, let
    the call for the next batch fail.  If the failure is not classified
    as a rate limit, it reaches the caller after this one call.  If it
    is, the program waits 30 seconds and calls once more; when that call
    fails, whatever the failure, it reaches the caller and there is no
    third call; when it succeeds, the batch is stored and ingestion goes
    on with the remaining batches.  In both failing cases the index is
    the one that the earlier batches left, with all their documents. *)
Theorem add_documents_retry_policy {E : Type} (embedder : Embedder E)
    (docs : list document) (batch_size : Z) (done : list nat) (i : nat)
    (rest : list nat) (w w1 : EmbeddingSearchIndex.world E)
    (message : string) (e1 : E) :
  let b := Z.to_nat batch_size in
  let batch := slice i (i + b) docs in
  let texts := map EmbeddingSearchIndex.embed_input batch in
  let run := EmbeddingSearchIndex.add_documents embedder docs batch_size w in
  py_range (length docs) batch_size = Ok (done ++ i :: rest) ->
  EmbeddingSearchIndex.for_loop
    (EmbeddingSearchIndex.batch_body embedder docs b) done w = (Ok tt, w1) ->
  embed_texts embedder texts (EmbeddingSearchIndex.provider w1) = (inl message, e1) ->
  EmbeddingSearchIndex.documents (EmbeddingSearchIndex.index w1) =
    EmbeddingSearchIndex.documents (EmbeddingSearchIndex.index w)
    ++ flat_map (fun i => slice i (i + b) docs) done
  /\ (EmbeddingSearchIndex.is_rate_limit (EmbedderError message) = false ->
      run = (Raise (EmbedderError message),
             EmbeddingSearchIndex.mk_world (EmbeddingSearchIndex.index w1) e1
               (EmbeddingSearchIndex.trace w1 ++ [EmbedTexts texts])))
  /\ (EmbeddingSearchIndex.is_rate_limit (EmbedderError message) = true ->
      (forall message2 e2,
         embed_texts embedder texts e1 = (inl message2, e2) ->
         run = (Raise (EmbedderError message2),
                EmbeddingSearchIndex.mk_world (EmbeddingSearchIndex.index w1) e2
                  (EmbeddingSearchIndex.trace w1
                   ++ [EmbedTexts texts; Sleep 30; EmbedTexts texts])))
      /\ (forall vectors e2,
            embed_texts embedder texts e1 = (inr vectors, e2) ->
            run = EmbeddingSearchIndex.for_loop
                    (EmbeddingSearchIndex.batch_body embedder docs b) rest
                    (EmbeddingSearchIndex.mk_world
                       (EmbeddingSearchIndex.mk
                          (EmbeddingSearchIndex.documents
                             (EmbeddingSearchIndex.index w1) ++ batch)
                          (EmbeddingSearchIndex.embeddings
                             (EmbeddingSearchIndex.index w1) ++ vectors))
                       e2
                       (EmbeddingSearchIndex.trace w1
                        ++ [EmbedTexts texts; Sleep 30; EmbedTexts texts]
                        ++ (if i + b <? length docs then [Sleep 25] else []))))).
Proof.
  intros b batch texts run Hrange Hdone Hfail.
  assert (Hrun : run = match EmbeddingSearchIndex.batch_body embedder docs b i w1 with
                       | (Ok _, w2) =>
                           EmbeddingSearchIndex.for_loop
                             (EmbeddingSearchIndex.batch_body embedder docs b) rest w2
                       | (Raise e, w2) => (Raise e, w2)
                       end).
  { unfold run, EmbeddingSearchIndex.add_documents, EmbeddingSearchIndex.lift.
    unfold mbind at 1, EmbeddingSearchIndex.M_bind at 1.
    rewrite Hrange. fold b.
    rewrite for_loop_app, Hdone. reflexivity. }
  split; [now apply (for_loop_documents embedder docs b done w w1)|].
  split; [|split].
  - intros Hrate. rewrite Hrun.
    now rewrite (batch_body_failure embedder docs b i w1 message e1 Hfail Hrate).
  - intros message2 e2 H2. rewrite Hrun.
    now rewrite (batch_body_retry_failure embedder docs b i w1 _ _ _ _ Hfail H H2).
  - intros vectors e2 H2. rewrite Hrun.
    now rewrite (batch_body_retry_success embedder docs b i w1 _ _ _ _ Hfail H H2).
Qed.

(** Three documents in batches of two, with a provider that refuses its
    second call with a rate-limit message: the second batch is called
    twice, 30 seconds apart, and ingestion ends without exception. *)
Lemma add_documents_retry_policy_witness :
  exists w',
    EmbeddingSearchIndex.add_documents limited_embedder docs_three 2 (fresh 0)
    = (Ok tt, w')
    /\ map event_shape (EmbeddingSearchIndex.trace w')
       = [inl 2; inr 25; inl 1; inr 30; inl 1]
    /\ EmbeddingSearchIndex.documents (EmbeddingSearchIndex.index w') = docs_three.
Proof.
  pose (w1 := (EmbeddingSearchIndex.for_loop
                 (EmbeddingSearchIndex.batch_body limited_embedder docs_three 2)
                 [0] (fresh 0)).2).
  destruct (add_documents_retry_policy limited_embedder docs_three 2 [0] 2 []
              (fresh 0) w1 "Rate limit exceeded" 2
              eq_refl eq_refl eq_refl)
    as (_ & _ & Hretry).
  destruct (Hretry eq_refl) as [_ Hok].
  eexists. split; [apply Hok; reflexivity|].
  split; reflexivity.
Defined.

(** ** Snapshots *)

Lemma tuples_roundtrip (postings : list (nat * nat)) :
  mapM SearchIndex.tuple2 (map (fun p : nat * nat => [p.1; p.2]) postings)
  = Some postings.
Proof.
  induction postings as [|[d tf] ps IH]; [reflexivity|].
  cbn [map mapM]. rewrite IH. reflexivity.
Qed.

Lemma load_save_lexical (self : SearchIndex.t) :
  SearchIndex.load (SearchIndex.save self) = Ok self.
Proof.
  destruct self as [docs ii dl idf0 n].
  unfold SearchIndex.load, SearchIndex.save. simpl.
  rewrite bool_decide_eq_true_2.
  - f_equal. f_equal. apply map_eq. intros term.
    rewrite lookup_omap, lookup_fmap.
    destruct (ii !! term) as [ps|]; simpl; [apply tuples_roundtrip | reflexivity].
  - intros term v H. rewrite lookup_fmap in H.
    destruct (ii !! term) as [ps|]; simpl in H; [|discriminate].
    injection H as <-. rewrite tuples_roundtrip. now eexists.
Qed.

Lemma load_save_embedding (self : EmbeddingSearchIndex.t) :
  EmbeddingSearchIndex.load (EmbeddingSearchIndex.save self) = self.
Proof. now destruct self. Qed.

(** C7.  Saving an index and loading the snapshot gives an index with
    the same search results, for the lexical index and for the embedding
    index (with the same provider in the same state): the same
    documents, scores and order, or the same exception, for every query
    and every [max_results]. *)
Theorem load_save_same_results :
  (forall (self : SearchIndex.t),
     exists loaded,
       SearchIndex.load (SearchIndex.save self) = Ok loaded
       /\ forall query max_results,
            SearchIndex.search loaded query max_results
            = SearchIndex.search self query max_results)
  /\ (forall (E : Type) (embedder : Embedder E) (self : EmbeddingSearchIndex.t)
        (e : E) (events : list event) query max_results,
        let loaded := EmbeddingSearchIndex.load (EmbeddingSearchIndex.save self) in
        (EmbeddingSearchIndex.search embedder query max_results
           (EmbeddingSearchIndex.mk_world loaded e events)).1
        = (EmbeddingSearchIndex.search embedder query max_results
             (EmbeddingSearchIndex.mk_world self e events)).1).
Proof.
  split.
  - intros self. exists self. split; [apply load_save_lexical | reflexivity].
  - intros E embedder self e events query k loaded. subst loaded.
    now rewrite load_save_embedding.
Qed.

(** ** Batch sizes that are not positive *)

(** [range] refuses a zero step before any call is made, and a negative
    step gives no batch at all. *)
Example add_documents_zero_batch_size :
  EmbeddingSearchIndex.add_documents steady_embedder docs_three 0 (fresh tt)
  = (Raise ValueError, fresh tt).
Proof. reflexivity. Qed.

Example add_documents_negative_batch_size :
  EmbeddingSearchIndex.add_documents steady_embedder docs_three (-2) (fresh tt)
  = (Ok tt, fresh tt).
Proof. reflexivity. Qed.

(* ===================================================================== *)
(** * Part III: further properties of the code                            *)
(* ===================================================================== *)

(** ** What [add_document] stores *)

Lemma occurrences_cons (term t : string) (stems : list string) :
  occurrences term (t :: stems) =
  (if String.eqb term t then 1 else 0) + occurrences term stems.
Proof. unfold occurrences. simpl. now destruct (String.eqb term t). Qed.

Lemma count_of_count_token (term_counts : list (string * nat)) (token term : string) :
  count_of (SearchIndex.count_token term_counts token) term =
  count_of term_counts term + (if String.eqb term token then 1 else 0).
Proof.
  unfold count_of. induction term_counts as [|[k n] rest IH]; simpl.
  - rewrite (String.eqb_sym token term). now destruct (String.eqb term token).
  - destruct (String.eqb k token) eqn:Hkt; simpl.
    + apply String.eqb_eq in Hkt. subst k. rewrite (String.eqb_sym token term).
      destruct (String.eqb term token); simpl; lia.
    + destruct (String.eqb k term) eqn:Hk; simpl; [|exact IH].
      apply String.eqb_eq in Hk. subst k.
      rewrite Hkt. simpl. lia.
Qed.

Lemma count_of_fold (tokens : list string) (term_counts : list (string * nat))
    (term : string) :
  count_of (fold_left SearchIndex.count_token tokens term_counts) term =
  count_of term_counts term + occurrences term tokens.
Proof.
  revert term_counts. induction tokens as [|t tokens IH]; intros tc; simpl.
  - unfold occurrences. simpl. lia.
  - rewrite IH, count_of_count_token, occurrences_cons. lia.
Qed.

Lemma count_of_in (term_counts : list (string * nat)) (term : string) (n : nat) :
  List.NoDup (map fst term_counts) -> In (term, n) term_counts ->
  count_of term_counts term = n.
Proof.
  unfold count_of. induction term_counts as [|[k m] rest IH]; simpl; [tauto|].
  intros Hnd [H | H].
  - injection H as -> ->. now rewrite String.eqb_refl.
  - inversion Hnd as [|? ? Hnot Hnd']; subst.
    destruct (String.eqb k term) eqn:Hk; [|now apply IH].
    apply String.eqb_eq in Hk. subst k. exfalso. apply Hnot.
    now apply (in_map fst) in H.
Qed.

Lemma count_of_absent (term_counts : list (string * nat)) (term : string) :
  ~ In term (map fst term_counts) -> count_of term_counts term = 0.
Proof.
  unfold count_of. induction term_counts as [|[k m] rest IH]; simpl; [easy|].
  intros H. destruct (String.eqb k term) eqn:Hk; [|apply IH; tauto].
  apply String.eqb_eq in Hk. tauto.
Qed.

Lemma count_of_key (term_counts : list (string * nat)) (term : string) :
  counts_ok term_counts -> In term (map fst term_counts) ->
  1 <= count_of term_counts term /\ In (term, count_of term_counts term) term_counts.
Proof.
  intros [Hnd Hall] Hin. apply in_map_iff in Hin as ([k n] & Hk & Hin).
  simpl in Hk. subst k. rewrite (count_of_in _ _ _ Hnd Hin).
  split; [|exact Hin]. rewrite List.Forall_forall in Hall. exact (Hall _ Hin).
Qed.

Lemma count_of_cons (k : string) (n : nat) (rest : list (string * nat))
    (term : string) :
  count_of ((k, n) :: rest) term =
  if String.eqb k term then n else count_of rest term.
Proof. unfold count_of. simpl. now destruct (String.eqb k term). Qed.

(** The postings of a term after the loop that appends the postings of
    one document. *)
Lemma append_postings_exact (doc_id : nat) (term_counts : list (string * nat))
    (index : gmap string (list (nat * nat))) (term : string) :
  counts_ok term_counts ->
  fold_left (SearchIndex.append_posting doc_id) term_counts index !! term =
  if count_of term_counts term =? 0 then index !! term
  else Some (default [] (index !! term) ++ [(doc_id, count_of term_counts term)]).
Proof.
  revert index. induction term_counts as [|[k n] rest IH]; intros index Hok.
  - reflexivity.
  - destruct Hok as [Hnd Hall].
    inversion Hnd as [|? ? Hk Hnd']; subst.
    inversion Hall as [|? ? Hn Hall']; subst. simpl in Hn.
    cbn [fold_left SearchIndex.append_posting].
    rewrite (IH _ (conj Hnd' Hall')), count_of_cons.
    destruct (String.eqb k term) eqn:Hkt.
    + apply String.eqb_eq in Hkt. subst k.
      rewrite (count_of_absent _ _ Hk). cbn [Nat.eqb].
      rewrite lookup_insert_eq.
      destruct (Nat.eqb_spec n 0); [lia | reflexivity].
    + assert (Hne : k <> term) by (intros ->; now rewrite String.eqb_refl in Hkt).
      now rewrite lookup_insert_ne by exact Hne.
Qed.

Lemma add_document_lookup (self : SearchIndex.t) (doc : document) (term : string) :
  SearchIndex.inverted_index (SearchIndex.add_document self doc).1 !! term =
  let count := occurrences term (doc_stems doc) in
  if count =? 0 then SearchIndex.inverted_index self !! term
  else Some (postings_of self term
             ++ [(length (SearchIndex.documents self), count)]).
Proof.
  unfold SearchIndex.add_document. cbn [fst SearchIndex.inverted_index].
  rewrite append_postings_exact by (apply term_counts_ok, counts_ok_nil).
  rewrite count_of_fold. reflexivity.
Qed.

Lemma add_document_postings (self : SearchIndex.t) (doc : document) (term : string) :
  postings_of (SearchIndex.add_document self doc).1 term =
  postings_of self term
  ++ posting_for term (length (SearchIndex.documents self), doc).
Proof.
  unfold postings_of at 1. rewrite add_document_lookup. unfold posting_for.
  cbn [fst snd]. cbv zeta.
  destruct (occurrences term (doc_stems doc) =? 0); simpl.
  - now rewrite app_nil_r.
  - reflexivity.
Qed.

Lemma add_all_fields (docs : list document) (self : SearchIndex.t) :
  SearchIndex.documents (SearchIndex.add_all self docs)
    = SearchIndex.documents self ++ docs
  /\ SearchIndex.doc_lengths (SearchIndex.add_all self docs)
     = SearchIndex.doc_lengths self ++ map (fun d => length (doc_stems d)) docs
  /\ SearchIndex.num_docs (SearchIndex.add_all self docs)
     = SearchIndex.num_docs self + length docs
  /\ SearchIndex.idf_scores (SearchIndex.add_all self docs)
     = SearchIndex.idf_scores self.
Proof.
  revert self. induction docs as [|doc docs IH]; intros self.
  - simpl. now rewrite !app_nil_r, Nat.add_0_r.
  - cbn [SearchIndex.add_all fold_left].
    destruct (IH (SearchIndex.add_document self doc).1) as (H1 & H2 & H3 & H4).
    unfold SearchIndex.add_all in *. rewrite H1, H2, H3, H4. simpl.
    rewrite <- !app_assoc. repeat split; try reflexivity. lia.
Qed.

Lemma add_all_postings (docs : list document) (self : SearchIndex.t) (term : string) :
  postings_of (SearchIndex.add_all self docs) term =
  postings_of self term
  ++ flat_map (posting_for term)
       (combine (seq (length (SearchIndex.documents self)) (length docs)) docs).
Proof.
  revert self. induction docs as [|doc docs IH]; intros self.
  - simpl. now rewrite app_nil_r.
  - cbn [SearchIndex.add_all fold_left]. fold (SearchIndex.add_all
      (SearchIndex.add_document self doc).1 docs).
    rewrite IH, add_document_postings, <- app_assoc. f_equal.
    cbn [length seq combine flat_map]. f_equal.
    simpl. rewrite length_app. simpl.
    now replace (length (SearchIndex.documents self) + 1)
      with (S (length (SearchIndex.documents self))) by lia.
Qed.

(** X1.  The index of a list of documents holds the documents in the
    order given, so that the identifier of a document is its position;
    [doc_lengths] holds for each the number of stems of its title, title
    again and content; [num_docs] is the number of documents. *)
Theorem add_all_stores_documents (docs : list document) :
  let self := SearchIndex.add_all SearchIndex.init docs in
  SearchIndex.documents self = docs
  /\ SearchIndex.doc_lengths self = map (fun d => length (doc_stems d)) docs
  /\ SearchIndex.num_docs self = length docs
  /\ (forall i doc,
        docs !! i = Some doc ->
        SearchIndex.documents self !! i = Some doc
        /\ SearchIndex.doc_lengths self !! i = Some (length (doc_stems doc))).
Proof.
  intros self.
  destruct (add_all_fields docs SearchIndex.init) as (H1 & H2 & H3 & _).
  simpl in H1, H2, H3. fold self in H1, H2, H3.
  split; [exact H1|]. split; [exact H2|]. split; [exact H3|].
  intros i doc Hi. rewrite H1, H2. split; [exact Hi|].
  rewrite list_lookup_fmap, Hi. reflexivity.
Qed.

(** X2.  The postings of a term are exactly the documents that have the
    term among their stems, in the order in which the documents were
    added, each with the number of occurrences of the term among the
    stems of the document; a term that no document has is not a key of
    the inverted index. *)
Theorem add_all_postings_are_term_counts (docs : list document) (term : string) :
  let self := SearchIndex.add_all SearchIndex.init docs in
  SearchIndex.inverted_index self !! term =
  match expected_postings docs term with
  | [] => None
  | posting :: postings => Some (posting :: postings)
  end.
Proof.
  intros self.
  pose proof (add_all_postings docs SearchIndex.init term) as H.
  fold self in H. unfold postings_of in H. simpl in H.
  rewrite lookup_empty in H. simpl in H.
  fold (enumerate docs) in H. fold (expected_postings docs term) in H.
  assert (Hwf : index_wf self) by (apply add_all_wf, init_wf).
  destruct (SearchIndex.inverted_index self !! term) as [ps|] eqn:Hl;
    simpl in H; rewrite <- H.
  - destruct (wf_postings self Hwf _ _ Hl) as [Hne _].
    now destruct ps.
  - reflexivity.
Qed.

(** ** The weight of the title *)

Lemma smap_app (f : ascii -> ascii) (a b : string) :
  PyStr.smap f (a +:+ b) = PyStr.smap f a +:+ PyStr.smap f b.
Proof.
  induction a as [|c a IH]; [reflexivity|].
  rewrite string_app_cons. simpl. now rewrite IH, string_app_cons.
Qed.

Lemma split_from_app_space (x y cur : string) :
  PyStr.split_from cur (x +:+ String " " y) =
  PyStr.split_from cur x ++ PyStr.split_from "" y.
Proof.
  revert cur. induction x as [|c x IH]; intros cur.
  - rewrite string_app_nil_l. simpl.
    change (PyStr.is_space " ") with true. cbv iota.
    now destruct (PyStr.is_empty cur).
  - rewrite string_app_cons. simpl.
    destruct (PyStr.is_space c); [|apply IH].
    destruct (PyStr.is_empty cur); rewrite IH; reflexivity.
Qed.

Lemma tokenize_app_space (a b : string) :
  tokenize (a +:+ " " +:+ b) = tokenize a ++ tokenize b.
Proof.
  unfold tokenize, PyStr.lower, sub_nonword_space, PyStr.split.
  rewrite !smap_app. simpl PyStr.smap at 2 3.
  change (PyStr.lower_char " ") with " "%char.
  change (if PyStr.is_word " " || PyStr.is_space " " then " "%char else " "%char)
    with " "%char.
  rewrite string_app_cons, string_app_nil_l.
  now rewrite split_from_app_space, List.filter_app.
Qed.

Lemma occurrences_app (term : string) (a b : list string) :
  occurrences term (a ++ b) = occurrences term a + occurrences term b.
Proof. unfold occurrences. now rewrite List.filter_app, length_app. Qed.

(** X3.  The words of the title weigh twice: the stems of a document
    are the stems of its title, twice, followed by the stems of its
    content, so that the term frequency of a term is twice its count in
    the title plus its count in the content, and the length of the
    document counts the title twice. *)
Theorem title_counts_twice (doc : document) :
  let title_stems := map simple_stem (tokenize (doc_get doc "title")) in
  let content_stems := map simple_stem (tokenize (doc_get doc "content")) in
  doc_stems doc = title_stems ++ title_stems ++ content_stems
  /\ length (doc_stems doc) = 2 * length title_stems + length content_stems
  /\ forall term,
       occurrences term (doc_stems doc) =
       2 * occurrences term title_stems + occurrences term content_stems.
Proof.
  intros ts cs.
  assert (H : doc_stems doc = ts ++ ts ++ cs).
  { unfold doc_stems, doc_text. now rewrite !tokenize_app_space, !map_app. }
  split; [exact H|]. rewrite H. split.
  - rewrite !length_app. lia.
  - intros term. rewrite !occurrences_app. lia.
Qed.

(** ** The shape of tokens and terms *)

Lemma lower_char_fixed (c : ascii) :
  Ascii.eqb (PyStr.lower_char (PyStr.lower_char c)) (PyStr.lower_char c) = true.
Proof. destruct c as [[] [] [] [] [] [] [] []]; vm_compute; reflexivity. Qed.

Lemma lower_is_lower (text : string) :
  all_chars (fun c => Ascii.eqb (PyStr.lower_char c) c) (PyStr.lower text) = true.
Proof.
  unfold PyStr.lower. induction text as [|c text IH]; [reflexivity|].
  simpl. now rewrite lower_char_fixed, IH.
Qed.

Lemma tokens_of_chars (sep p : ascii -> bool) (s : string) (l : list string) :
  tokens_of sep s l -> all_chars p s = true ->
  Forall (fun w => all_chars p w = true) l.
Proof.
  induction 1 as [|c s l Hc _ IH|w s l Hw Hall Hb _ IH]; intros Hp.
  - constructor.
  - simpl in Hp. apply andb_prop in Hp as [_ Hp]. now apply IH.
  - rewrite all_chars_app in Hp. apply andb_prop in Hp as [Hpw Hps].
    constructor; [exact Hpw | now apply IH].
Qed.

Lemma tokens_of_words (sep : ascii -> bool) (s : string) (l : list string) :
  tokens_of sep s l ->
  Forall (fun w => all_chars (fun c => negb (sep c)) w = true) l.
Proof.
  induction 1 as [|c s l Hc _ IH|w s l Hw Hall Hb _ IH];
    [constructor | exact IH | now constructor].
Qed.

Lemma tokenize_runs (text : string) :
  tokenize text = List.filter keep_token (runs sep_not_word "" (PyStr.lower text)).
Proof. unfold tokenize, PyStr.split. now rewrite split_sub_runs. Qed.

Lemma all_chars_and (p q : ascii -> bool) (s : string) :
  all_chars p s = true -> all_chars q s = true ->
  all_chars (fun c => p c && q c) s = true.
Proof.
  induction s as [|c s IH]; [reflexivity|]. simpl. intros Hp Hq.
  apply andb_prop in Hp as [Hp1 Hp2]. apply andb_prop in Hq as [Hq1 Hq2].
  now rewrite Hp1, Hq1, IH.
Qed.

Lemma all_chars_ext (p q : ascii -> bool) (s : string) :
  (forall c, p c = q c) -> all_chars p s = all_chars q s.
Proof.
  intros H. induction s as [|c s IH]; [reflexivity|]. simpl. now rewrite H, IH.
Qed.

(** The tokens: longer than one character, no stop words, lowercase
    word characters only. *)
Lemma tokenize_shape (text : string) :
  Forall (fun t => clean_term t /\ t ∉ STOP_WORDS) (tokenize text).
Proof.
  rewrite tokenize_runs. apply List.Forall_forall. intros t Ht.
  apply filter_In in Ht as [Hin Hkeep].
  unfold keep_token in Hkeep. apply andb_prop in Hkeep as [Hstop Hlen].
  apply Nat.ltb_lt in Hlen. apply negb_true_iff, bool_decide_eq_false in Hstop.
  pose proof (runs_tokens sep_not_word (PyStr.lower text)) as Htok.
  pose proof (tokens_of_chars _ _ _ _ Htok (lower_is_lower text)) as Hlow.
  pose proof (tokens_of_words _ _ _ Htok) as Hword.
  rewrite List.Forall_forall in Hlow, Hword.
  split; [|exact Hstop]. split; [lia|].
  unfold is_lower_word. apply all_chars_and; [|now apply Hlow].
  rewrite <- (Hword t Hin). apply all_chars_ext.
  intros c. unfold sep_not_word. now rewrite negb_involutive.
Qed.

Lemma string_length_app (a b : string) :
  String.length (a +:+ b) = String.length a + String.length b.
Proof.
  induction a as [|c a IH]; [reflexivity|].
  rewrite string_app_cons. simpl. now rewrite IH.
Qed.

(** What the stemmer removes, with the length that the branch asks
    for. *)
Lemma simple_stem_removes (token : string) :
  exists suffix,
    token = simple_stem token +:+ suffix
    /\ (suffix = ""
        \/ (suffix = "s" /\ 3 < String.length token)
        \/ (In suffix (map fst stem_rules) /\ 5 < String.length token)).
Proof.
  unfold simple_stem.
  destruct (5 <? String.length token) eqn:H5.
  - destruct (stem_long token) as [r|] eqn:Hlong.
    + destruct (stem_long_suffix _ _ Hlong) as (suffix & Hin & Heq).
      exists suffix. split; [exact Heq|]. right. right.
      split; [exact Hin | now apply Nat.ltb_lt].
    + destruct ((3 <? String.length token) && PyStr.endswith token "s") eqn:Hs.
      * apply andb_prop in Hs as [H3 Hs]. exists "s".
        split; [now apply (endswith_split token "s")|].
        right. left. split; [reflexivity | now apply Nat.ltb_lt].
      * exists "". split; [now rewrite string_app_nil_r | now left].
  - destruct ((3 <? String.length token) && PyStr.endswith token "s") eqn:Hs.
    + apply andb_prop in Hs as [H3 Hs]. exists "s".
      split; [now apply (endswith_split token "s")|].
      right. left. split; [reflexivity | now apply Nat.ltb_lt].
    + exists "". split; [now rewrite string_app_nil_r | now left].
Qed.

Lemma simple_stem_clean (token : string) :
  clean_term token -> clean_term (simple_stem token).
Proof.
  intros [Hlen Hall].
  destruct (simple_stem_removes token) as (suffix & Heq & Hcase).
  assert (Hl : String.length token
               = String.length (simple_stem token) + String.length suffix)
    by (rewrite Heq at 1; apply string_length_app).
  rewrite Heq, all_chars_app in Hall. apply andb_prop in Hall as [Hall _].
  split; [|exact Hall].
  destruct Hcase as [-> | [[-> H3] | [Hin H5]]]; simpl in Hl; try lia.
  assert (String.length suffix <= 4); [|lia].
  simpl in Hin.
  repeat (destruct Hin as [<- | Hin]; [simpl; lia|]). destruct Hin.
Qed.

Lemma occurrences_in (term : string) (stems : list string) :
  occurrences term stems <> 0 -> In term stems.
Proof.
  unfold occurrences. induction stems as [|t stems IH]; simpl; [easy|].
  destruct (String.eqb term t) eqn:H.
  - apply String.eqb_eq in H. now left.
  - intros H'. right. now apply IH.
Qed.

Lemma stems_clean (text : string) :
  Forall clean_term (map simple_stem (tokenize text)).
Proof.
  apply Forall_map. eapply List.Forall_impl; [|apply tokenize_shape].
  intros t [H _]. now apply simple_stem_clean.
Qed.

(** X4.  No garbage in the index: a token has at least two characters,
    all of them lowercase word characters, and is no stop word; a stem
    keeps at least two characters of its token; so every key of the
    inverted index, and every stem of a query, has at least two
    characters, all lowercase word characters. *)
Theorem index_terms_are_clean (docs : list document) (term : string) :
  (forall text, Forall (fun t => clean_term t /\ t ∉ STOP_WORDS) (tokenize text))
  /\ (forall query, Forall clean_term (stems_of query))
  /\ (SearchIndex.inverted_index (SearchIndex.add_all SearchIndex.init docs)
        !! term <> None ->
      clean_term term).
Proof.
  split; [exact tokenize_shape|]. split; [intros q; apply stems_clean|].
  intros H.
  pose proof (add_all_postings docs SearchIndex.init term) as Hps.
  unfold postings_of in Hps. simpl in Hps. rewrite lookup_empty in Hps.
  simpl in Hps.
  assert (Hwf : index_wf (SearchIndex.add_all SearchIndex.init docs))
    by (apply add_all_wf, init_wf).
  destruct (SearchIndex.inverted_index (SearchIndex.add_all SearchIndex.init docs)
              !! term) as [ps|] eqn:Hl; [|contradiction].
  destruct (wf_postings _ Hwf _ _ Hl) as [Hne _]. simpl in Hps.
  destruct ps as [|p ps]; [contradiction|].
  assert (Hin : In p (flat_map (posting_for term)
                        (combine (seq 0 (length docs)) docs)))
    by (rewrite <- Hps; now left).
  apply in_flat_map in Hin as ([i doc] & _ & Hp).
  unfold posting_for in Hp. cbn [snd fst] in Hp.
  destruct (Nat.eqb_spec (occurrences term (doc_stems doc)) 0) as [|Hocc];
    [destruct Hp|].
  apply occurrences_in in Hocc.
  pose proof (stems_clean (doc_text doc)) as Hclean.
  rewrite List.Forall_forall in Hclean. now apply Hclean.
Qed.

(** ** Queries without a match, and the size of the result *)

Lemma accumulate_no_term (self : SearchIndex.t) (stems : list string)
    (acc : SearchIndex.scoring) :
  Forall (fun t => SearchIndex.inverted_index self !! t = None) stems ->
  for_each (SearchIndex.score_stem self) stems acc = Ok acc.
Proof.
  induction 1 as [|t stems Ht _ IH]; [reflexivity|].
  assert (Hstep : SearchIndex.score_stem self acc t = Ok acc)
    by (unfold SearchIndex.score_stem; now rewrite Ht).
  cbn [for_each]. rewrite Hstep. cbn [mbind pyresult_bind]. exact IH.
Qed.

(** X5.  A query none of whose stems is a term of the index (an empty
    query, a query of stop words, a query of unknown words) gets the
    empty list, not an exception, whatever the state of the index. *)
Theorem search_without_indexed_term (self : SearchIndex.t) (query : string)
    (max_results : Z) :
  Forall (fun t => SearchIndex.inverted_index self !! t = None) (stems_of query) ->
  SearchIndex.search self query max_results = Ok [].
Proof.
  intros H. unfold SearchIndex.search. fold (stems_of query).
  destruct (stems_of query) as [|t stems] eqn:Hs; [reflexivity|].
  unfold SearchIndex.accumulate. rewrite (accumulate_no_term _ _ _ H).
  cbn [mbind pyresult_bind fst snd]. unfold sorted_desc. simpl fold_right.
  now rewrite slice_to_nil.
Qed.

Lemma search_without_indexed_term_witness :
  SearchIndex.search SearchIndex.init "fence height" 5 = Ok []
  /\ SearchIndex.search SearchIndex.init "the of and" 5 = Ok [].
Proof.
  split; apply search_without_indexed_term; vm_compute; repeat constructor.
Defined.

Lemma slice_to_length {A : Type} (k : Z) (l : list A) :
  length (slice_to k l) =
  if (0 <=? k)%Z then Nat.min (Z.to_nat k) (length l)
  else length l - Z.to_nat (- k).
Proof.
  unfold slice_to. destruct (0 <=? k)%Z; rewrite length_firstn; lia.
Qed.

Lemma nodup_firstn {A : Type} (n : nat) (l : list A) :
  List.NoDup l -> List.NoDup (firstn n l).
Proof.
  intros H. rewrite <- (firstn_skipn n l) in H.
  now apply NoDup_app_remove_r in H.
Qed.

Lemma ranked_shape (self : SearchIndex.t) (query : string) (k : Z)
    (ranked : list (nat * R)) :
  index_wf self ->
  SearchIndex.ranked_docs self query k = Ok ranked ->
  length ranked =
    (if (0 <=? k)%Z
     then Nat.min (Z.to_nat k) (length (reach_order self (stems_of query)))
     else length (reach_order self (stems_of query)) - Z.to_nat (- k))
  /\ List.NoDup (map fst ranked)
  /\ Forall (fun e => matches self (stems_of query) e.1) ranked.
Proof.
  intros Hwf Hranked.
  destruct (accumulate_scores self (stems_of query) Hwf)
    as (acc & Hacc & Hkeys & Hnd & _).
  unfold SearchIndex.ranked_docs in Hranked. fold (stems_of query) in Hranked.
  rewrite Hacc in Hranked. cbn [mbind pyresult_bind] in Hranked.
  injection Hranked as <-.
  assert (Hperm : Permutation (map fst (sorted_desc acc.1)) (map fst acc.1))
    by apply Permutation_map, sorted_desc_perm.
  split; [|split].
  - rewrite slice_to_length.
    rewrite (Permutation_length (sorted_desc_perm acc.1)).
    now rewrite <- Hkeys, length_map.
  - unfold slice_to.
    destruct (0 <=? k)%Z; rewrite <- firstn_map; apply nodup_firstn;
      apply (Permutation_NoDup (Permutation_sym Hperm) Hnd).
  - apply List.Forall_forall. intros e He. apply slice_to_in in He.
    apply (in_map fst) in He. apply (Permutation_in _ Hperm) in He.
    rewrite Hkeys in He. now apply reach_order_matches.
Qed.

(** X6.  The number of results: with [m] documents that have a stem of
    the query, [search] returns [min(max_results, m)] of them when
    [max_results] is not negative, and all but the last [-max_results]
    when it is; no document is returned twice, and every returned
    document has a stem of the query. *)
Theorem search_result_count (docs : list document) :
  exists self,
    SearchIndex.build_index docs = Ok self
    /\ forall query max_results ranked,
         SearchIndex.ranked_docs self query max_results = Ok ranked ->
         let m := length (reach_order self (stems_of query)) in
         length ranked =
           (if (0 <=? max_results)%Z then Nat.min (Z.to_nat max_results) m
            else m - Z.to_nat (- max_results))
         /\ List.NoDup (map fst ranked)
         /\ Forall (fun e => matches self (stems_of query) e.1) ranked
         /\ (forall results,
               SearchIndex.search self query max_results = Ok results ->
               length results = length ranked).
Proof.
  destruct (build_index_ok docs) as (self & Hbuild & Hwf & _).
  exists self. split; [exact Hbuild|]. intros query k ranked Hranked m.
  destruct (ranked_shape self query k ranked Hwf Hranked) as (H1 & H2 & H3).
  split; [exact H1|]. split; [exact H2|]. split; [exact H3|].
  intros results Hs.
  apply search_follows_ranked in Hs as (ranked' & H' & Hall).
  rewrite Hranked in H'. injection H' as <-.
  now apply Forall2_length in Hall.
Qed.

(** ** Scores before and after [build_idf_scores] *)

Lemma up_0 : up 0 = 1%Z.
Proof. symmetry. apply tech_up; simpl; lra. Qed.

Lemma round4_0 : round4 0 = 0%R.
Proof.
  unfold round4, round_half_even. rewrite Rmult_0_l, up_0.
  change (1 - 1)%Z with 0%Z. cbv zeta.
  destruct (Rlt_dec (0 - 0) (1 / 2)) as [_|H]; [|lra].
  unfold Rdiv. now rewrite Rmult_0_l.
Qed.

Lemma sorted_desc_constant {A : Type} (c : R) (l : list (A * R)) :
  Forall (fun e => e.2 = c) l -> sorted_desc l = l.
Proof.
  induction 1 as [|x l Hx Hall IH]; [reflexivity|].
  unfold sorted_desc in *. simpl. rewrite IH.
  destruct Hall as [|y l Hy _]; [reflexivity|]. simpl.
  destruct (Rlt_dec x.2 y.2); [lra | reflexivity].
Qed.

Lemma Rsum_zero (xs : list R) : Forall (fun x => x = 0%R) xs -> Rsum xs = 0%R.
Proof. induction 1 as [|x xs -> _ IH]; simpl; [reflexivity | lra]. Qed.

Lemma Rsum_nonneg (xs : list R) : Forall (fun x => (0 <= x)%R) xs -> (0 <= Rsum xs)%R.
Proof. induction 1 as [|x xs Hx _ IH]; simpl; lra. Qed.

Lemma contribution_cases (self : SearchIndex.t) (term : string) (d : nat) :
  contribution self term d = 0%R
  \/ exists tf, In (d, tf) (postings_of self term)
       /\ contribution self term d = term_score self term tf d.
Proof.
  unfold contribution.
  destruct (List.find _ (postings_of self term)) as [[d' tf]|] eqn:H; [|now left].
  right. apply find_some in H as [Hin Hd]. simpl in Hd.
  apply Nat.eqb_eq in Hd. subst d'. now exists tf.
Qed.

Lemma scores_zero_without_idf (self : SearchIndex.t) (stems : list string) (d : nat) :
  SearchIndex.idf_scores self = ∅ -> score_per_occurrence self stems d = 0%R.
Proof.
  intros Hidf. unfold score_per_occurrence. apply Rsum_zero.
  apply Forall_map. apply List.Forall_forall. intros t _.
  destruct (contribution_cases self t d) as [H | (tf & _ & ->)]; [exact H|].
  unfold term_score, idf. rewrite Hidf, lookup_empty. simpl.
  unfold Rdiv. now rewrite Rmult_0_r, Rmult_0_l.
Qed.

(** X7.  A search before [build_idf_scores]: the IDF of every term
    counts as 0, so every document that has a stem of the query is
    returned with the score 0, in the order in which scoring reaches the
    documents; nothing is raised. *)
Theorem search_before_idf (docs : list document) (query : string) (max_results : Z) :
  let self := SearchIndex.add_all SearchIndex.init docs in
  SearchIndex.ranked_docs self query max_results =
    Ok (slice_to max_results
          (map (fun d => (d, 0%R)) (reach_order self (stems_of query))))
  /\ forall results,
       SearchIndex.search self query max_results = Ok results ->
       Forall (fun r => SearchIndex.score_of r = 0%R) results.
Proof.
  intros self.
  assert (Hwf : index_wf self) by (apply add_all_wf, init_wf).
  assert (Hidf : SearchIndex.idf_scores self = ∅)
    by (destruct (add_all_fields docs SearchIndex.init) as (_ & _ & _ & H);
        exact H).
  destruct (accumulate_scores self (stems_of query) Hwf)
    as (acc & Hacc & Hkeys & _ & Hscore).
  assert (Hzero : Forall (fun e : nat * R => e.2 = 0%R) acc.1).
  { apply List.Forall_forall. intros [d s] Hin. simpl.
    rewrite (Hscore d s Hin). now apply scores_zero_without_idf. }
  assert (Hacc1 : acc.1 = map (fun d => (d, 0%R)) (reach_order self (stems_of query))).
  { rewrite <- Hkeys, map_map. clear Hkeys Hscore Hacc.
    induction Hzero as [|[d s] l Hs _ IH]; [reflexivity|].
    simpl in *. now rewrite Hs, <- IH. }
  assert (Hranked : SearchIndex.ranked_docs self query max_results =
            Ok (slice_to max_results
                  (map (fun d => (d, 0%R)) (reach_order self (stems_of query))))).
  { unfold SearchIndex.ranked_docs. fold (stems_of query). rewrite Hacc.
    cbn [mbind pyresult_bind].
    now rewrite (sorted_desc_constant 0%R _ Hzero), Hacc1. }
  split; [exact Hranked|].
  intros results Hs.
  apply search_follows_ranked in Hs as (ranked & H' & Hall).
  rewrite Hranked in H'. injection H' as <-.
  assert (Hz : Forall (fun e : nat * R => e.2 = 0%R)
                 (slice_to max_results
                    (map (fun d => (d, 0%R)) (reach_order self (stems_of query))))).
  { apply List.Forall_forall. intros e He. apply slice_to_in in He.
    apply in_map_iff in He as (d & <- & _). reflexivity. }
  clear Hranked. induction Hall as [|r e rs es [_ Hr] _ IH]; [constructor|].
  inversion Hz as [|? ? He Hz']; subst.
  constructor; [|now apply IH]. rewrite Hr, He. apply round4_0.
Qed.

Lemma postings_at_most_num_docs (n : nat) (postings : list (nat * nat)) :
  postings_ok n postings -> length postings <= n.
Proof.
  intros [Hall Hs].
  replace (length postings) with (length (map fst postings))
    by apply length_map.
  rewrite <- (length_seq n 0) at 1.
  apply List.NoDup_incl_length; [now apply sorted_lt_nodup|].
  intros d Hd. apply in_map_iff in Hd as (p & <- & Hp).
  rewrite List.Forall_forall in Hall. destruct (Hall p Hp) as [Hlt _].
  apply in_seq. lia.
Qed.

Lemma idf_value_sign (n df : nat) :
  df <= n ->
  (0 <= ln (INR (n + 1) / INR (df + 1)))%R
  /\ (ln (INR (n + 1) / INR (df + 1)) = 0%R <-> df = n).
Proof.
  intros Hle.
  assert (Hn : (0 < INR (n + 1))%R) by (apply lt_0_INR; lia).
  assert (Hd : (0 < INR (df + 1))%R) by (apply lt_0_INR; lia).
  assert (Hdn : (INR (df + 1) <= INR (n + 1))%R) by (apply le_INR; lia).
  assert (Hratio : (1 <= INR (n + 1) / INR (df + 1))%R).
  { apply Rmult_le_reg_r with (INR (df + 1)); [exact Hd|].
    unfold Rdiv. rewrite Rmult_assoc, Rinv_l by lra. lra. }
  split.
  - rewrite <- ln_1. apply ln_monotone; lra.
  - split.
    + intros H0. rewrite <- ln_1 in H0.
      apply ln_inv in H0; [|lra|lra].
      assert (INR (n + 1) = INR (df + 1)).
      { apply Rmult_eq_reg_r with (/ INR (df + 1))%R.
        - fold (Rdiv (INR (n + 1)) (INR (df + 1))). rewrite H0.
          rewrite Rinv_r by lra. reflexivity.
        - apply Rinv_neq_0_compat. lra. }
      apply INR_eq in H. lia.
    + intros ->. unfold Rdiv. rewrite Rinv_r by lra. apply ln_1.
Qed.

Lemma term_score_nonneg (self : SearchIndex.t) (term : string) (tf d : nat) :
  (0 <= idf self term)%R -> (0 <= term_score self term tf d)%R.
Proof.
  intros Hidf. unfold term_score.
  assert (Hln : (0 <= ln (INR (1 + tf)))%R).
  { rewrite <- ln_1. apply ln_monotone; [lra|].
    change 1%R with (INR 1). apply le_INR. lia. }
  assert (Hsq : (0 < sqrt (INR (doc_length self d + 1)))%R)
    by (apply sqrt_lt_R0, lt_0_INR; lia).
  apply Rmult_le_pos; [now apply Rmult_le_pos|].
  left. now apply Rinv_0_lt_compat.
Qed.

(** X8.  In a built index no term is in more documents than there are,
    the IDF of every term is at least 0, and it is 0 exactly for a term
    that every document has; every accumulated score is at least 0. *)
Theorem built_scores_nonnegative (docs : list document) :
  exists self,
    SearchIndex.build_index docs = Ok self
    /\ (forall term postings,
          SearchIndex.inverted_index self !! term = Some postings ->
          length postings <= SearchIndex.num_docs self
          /\ (0 <= idf self term)%R
          /\ (idf self term = 0%R <-> length postings = SearchIndex.num_docs self))
    /\ (forall query max_results ranked,
          SearchIndex.ranked_docs self query max_results = Ok ranked ->
          Forall (fun e : nat * R => (0 <= e.2)%R) ranked).
Proof.
  destruct (build_index_ok docs)
    as (self & Hbuild & Hwf & _ & Hii & _ & Hn & Hidf).
  exists self. split; [exact Hbuild|].
  assert (Hterm : forall term postings,
            SearchIndex.inverted_index self !! term = Some postings ->
            length postings <= SearchIndex.num_docs self
            /\ (0 <= idf self term)%R
            /\ (idf self term = 0%R <-> length postings = SearchIndex.num_docs self)).
  { intros term postings Hl.
    destruct (wf_postings self Hwf _ _ Hl) as [_ Hok].
    pose proof (postings_at_most_num_docs _ _ Hok) as Hle.
    split; [exact Hle|]. unfold idf.
    rewrite Hii in Hl. rewrite (Hidf _ _ Hl), <- Hn. simpl.
    now apply idf_value_sign. }
  split; [exact Hterm|].
  intros query k ranked Hranked.
  destruct (accumulate_scores self (stems_of query) Hwf)
    as (acc & Hacc & _ & _ & Hscore).
  unfold SearchIndex.ranked_docs in Hranked. fold (stems_of query) in Hranked.
  rewrite Hacc in Hranked. injection Hranked as <-.
  apply List.Forall_forall. intros [d s] Hin. simpl.
  apply slice_to_in in Hin.
  apply (Permutation_in _ (sorted_desc_perm acc.1)) in Hin.
  rewrite (Hscore d s Hin). unfold score_per_occurrence.
  apply Rsum_nonneg, Forall_map, List.Forall_forall. intros t _.
  destruct (contribution_cases self t d) as [-> | (tf & Htf & ->)]; [lra|].
  apply term_score_nonneg. unfold postings_of in Htf.
  destruct (SearchIndex.inverted_index self !! t) as [ps|] eqn:Hl;
    [|destruct Htf].
  now destruct (Hterm _ _ Hl) as (_ & H & _).
Qed.

(** X9.  Building the IDF table twice is the same as building it once. *)
Theorem build_idf_scores_twice (self built : SearchIndex.t) :
  SearchIndex.build_idf_scores self = Ok built ->
  SearchIndex.build_idf_scores built = Ok built.
Proof.
  intros H.
  unfold SearchIndex.build_idf_scores in H.
  destruct (idf_loop (SearchIndex.num_docs self)
              (map_to_list (SearchIndex.inverted_index self))
              (SearchIndex.idf_scores self))
    as (idf1 & Hrun & Hin & Hout).
  { apply NoDup_ListNoDup, NoDup_fst_map_to_list. }
  rewrite Hrun in H. cbn [mbind pyresult_bind] in H. injection H as <-.
  unfold SearchIndex.build_idf_scores. simpl.
  destruct (idf_loop (SearchIndex.num_docs self)
              (map_to_list (SearchIndex.inverted_index self)) idf1)
    as (idf2 & Hrun2 & Hin2 & Hout2).
  { apply NoDup_ListNoDup, NoDup_fst_map_to_list. }
  rewrite Hrun2. cbn [mbind pyresult_bind]. do 2 f_equal.
  apply map_eq. intros term.
  destruct (SearchIndex.inverted_index self !! term) as [ps|] eqn:Hl.
  - assert (Hitem : In (term, ps) (map_to_list (SearchIndex.inverted_index self)))
      by (apply list_elem_of_In; now apply elem_of_map_to_list).
    now rewrite (Hin2 _ _ Hitem), (Hin _ _ Hitem).
  - apply Hout2. intros Hkey. apply in_map_iff in Hkey as ([t ps] & Ht & Hitem).
    simpl in Ht. subst t. apply list_elem_of_In, elem_of_map_to_list in Hitem.
    congruence.
Qed.

Lemma build_idf_scores_twice_witness :
  exists built,
    SearchIndex.build_index docs_fences = Ok built
    /\ SearchIndex.build_idf_scores built = Ok built.
Proof.
  destruct (build_index_ok docs_fences) as (built & Hbuild & _).
  exists built. split; [exact Hbuild|].
  exact (build_idf_scores_twice _ built Hbuild).
Defined.

(** ** Case *)

Lemma lower_idempotent (s : string) : PyStr.lower (PyStr.lower s) = PyStr.lower s.
Proof.
  unfold PyStr.lower. induction s as [|c s IH]; [reflexivity|].
  simpl. rewrite IH. f_equal. apply Ascii.eqb_eq, lower_char_fixed.
Qed.

(** X10.  Search ignores the case of the query: a query and its
    lowercase form have the same tokens and get the same result from
    every index. *)
Theorem search_ignores_case (self : SearchIndex.t) (query : string)
    (max_results : Z) :
  tokenize (PyStr.lower query) = tokenize query
  /\ SearchIndex.search self (PyStr.lower query) max_results
     = SearchIndex.search self query max_results.
Proof.
  assert (H : tokenize (PyStr.lower query) = tokenize query)
    by (unfold tokenize; now rewrite lower_idempotent).
  split; [exact H|]. unfold SearchIndex.search. now rewrite H.
Qed.

(** ** Snippets *)

Lemma take_length (n : nat) (s : string) :
  String.length (PyStr.take n s) = Nat.min n (String.length s).
Proof.
  revert s. induction n as [|n IH]; intros [|c s]; simpl; try reflexivity.
  now rewrite IH.
Qed.

Lemma drop_length (n : nat) (s : string) :
  String.length (PyStr.drop n s) = String.length s - n.
Proof.
  revert s. induction n as [|n IH]; intros [|c s]; simpl; try reflexivity.
  apply IH.
Qed.

Lemma lstrip_length (s : string) :
  String.length (PyStr.lstrip s) <= String.length s.
Proof.
  induction s as [|c s IH]; simpl; [lia|].
  destruct (PyStr.is_space c); simpl; lia.
Qed.

Lemma rstrip_length (s : string) :
  String.length (PyStr.rstrip s) <= String.length s.
Proof.
  induction s as [|c s IH]; simpl; [lia|].
  destruct (PyStr.is_empty (PyStr.rstrip s) && PyStr.is_space c); simpl; lia.
Qed.

Lemma strip_length (s : string) :
  String.length (PyStr.strip s) <= String.length s.
Proof.
  unfold PyStr.strip.
  pose proof (rstrip_length (PyStr.lstrip s)). pose proof (lstrip_length s). lia.
Qed.

(** X11.  A snippet.  When no query term occurs in the content, it is
    the content itself if that has at most 200 characters, and its first
    200 characters followed by three dots otherwise.  In every case its
    length is bounded: by 203, or by the longest query term with the
    context on both sides and the dots. *)
Theorem create_snippet_bounded (content : string) (query_terms : list string)
    (context : nat) :
  (Forall (fun t => PyStr.find (PyStr.lower content) (PyStr.lower t) = None)
          query_terms ->
   SearchIndex.create_snippet content query_terms context =
   if 200 <? String.length content then PyStr.take 200 content +:+ "..."
   else content)
  /\ String.length (SearchIndex.create_snippet content query_terms context)
     <= Nat.max 203 (longest query_terms + 2 * context + 6).
Proof.
  unfold SearchIndex.create_snippet. split.
  - induction 1 as [|t terms Ht _ IH]; [reflexivity|].
    rewrite Ht. exact IH.
  - induction query_terms as [|t terms IH].
    + destruct (Nat.ltb_spec 200 (String.length content)).
      * rewrite string_length_app, take_length.
        change (String.length "...") with 3. lia.
      * lia.
    + cbn [longest fold_right]. fold (longest terms).
      destruct (PyStr.find (PyStr.lower content) (PyStr.lower t)) as [pos|];
        [|lia].
      etransitivity; [apply strip_length|].
      set (start := pos - context).
      set (stop := Nat.min (String.length content)
                           (pos + String.length t + context)).
      assert (Hcore : String.length
                (PyStr.take (stop - start) (PyStr.drop start content))
              <= String.length t + 2 * context).
      { rewrite take_length. unfold start, stop. lia. }
      destruct (0 <? start), (stop <? String.length content);
        rewrite ?string_length_app; change (String.length "...") with 3;
        lia.
Qed.

(** ** The cosine of two vectors *)

Lemma cosine_similarity_cosine (vec1 vec2 : list R) :
  cosine_similarity vec1 vec2 = Ok (cosine vec1 vec2).
Proof. apply cosine_similarity_value. Qed.

Lemma dot_comm (a b : list R) : dot a b = dot b a.
Proof.
  revert b. induction a as [|x a IH]; intros [|y b]; simpl; try reflexivity.
  rewrite (IH b). lra.
Qed.

Lemma norm_nonneg (a : list R) : (0 <= norm a)%R.
Proof. apply sqrt_pos. Qed.


(** X12.  The similarity does not depend on the order of its two
    arguments, whatever their lengths. *)
Theorem cosine_similarity_symmetric (vec1 vec2 : list R) :
  cosine_similarity vec1 vec2 = cosine_similarity vec2 vec1.
Proof.
  rewrite !cosine_similarity_cosine. f_equal. unfold cosine.
  destruct (Req_dec_T (norm vec1) 0), (Req_dec_T (norm vec2) 0);
    try reflexivity.
  rewrite (dot_comm vec1 vec2), (Rmult_comm (norm vec1)). reflexivity.
Qed.

Lemma square_le (u v : R) : (0 <= u)%R -> (v * v <= u * u)%R -> (v <= u)%R.
Proof. intros Hu H. nra. Qed.

(** The inequality of Cauchy and Schwarz, for the product over the
    common prefix. *)
Lemma dot_square_le (a b : list R) :
  (dot a b * dot a b <= dot a a * dot b b)%R.
Proof.
  revert b. induction a as [|x a IH]; intros b.
  - simpl. pose proof (dot_self_nonneg b). nra.
  - destruct b as [|y b].
    + simpl. pose proof (dot_self_nonneg (x :: a)). simpl in H. nra.
    + simpl. specialize (IH b).
      pose proof (dot_self_nonneg a) as HA. pose proof (dot_self_nonneg b) as HB.
      set (d := dot a b) in *. set (A := dot a a) in *. set (B := dot b b) in *.
      assert (Hmix : (2 * (x * y) * d <= x * x * B + y * y * A)%R).
      { apply square_le; [nra|].
        pose proof (Rle_0_sqr (x * x * B - y * y * A)) as H1. unfold Rsqr in H1.
        assert (H2 : (0 <= (x * y) * (x * y) * (A * B - d * d))%R)
          by (apply Rmult_le_pos; nra).
        nra. }
      nra.
Qed.

Lemma dot_abs_le (a b : list R) : (Rabs (dot a b) <= norm a * norm b)%R.
Proof.
  unfold norm. rewrite <- sqrt_mult by apply dot_self_nonneg.
  rewrite <- sqrt_Rsqr_abs. apply sqrt_le_1.
  - apply Rle_0_sqr.
  - apply Rmult_le_pos; apply dot_self_nonneg.
  - unfold Rsqr. apply dot_square_le.
Qed.

Lemma cosine_range (a b : list R) : (-1 <= cosine a b <= 1)%R.
Proof.
  unfold cosine.
  destruct (Req_dec_T (norm a) 0) as [|Ha]; [lra|].
  destruct (Req_dec_T (norm b) 0) as [|Hb]; [lra|].
  pose proof (norm_nonneg a). pose proof (norm_nonneg b).
  assert (Hp : (0 < norm a * norm b)%R) by (apply Rmult_lt_0_compat; lra).
  pose proof (dot_abs_le a b) as Habs.
  assert (Hbetween : (- (norm a * norm b) <= dot a b <= norm a * norm b)%R).
  { unfold Rabs in Habs. destruct (Rcase_abs (dot a b)); lra. }
  split.
  - apply Rmult_le_reg_r with (norm a * norm b)%R; [exact Hp|].
    unfold Rdiv. rewrite Rmult_assoc, Rinv_l by lra. lra.
  - apply Rmult_le_reg_r with (norm a * norm b)%R; [exact Hp|].
    unfold Rdiv. rewrite Rmult_assoc, Rinv_l by lra. lra.
Qed.

(** X13.  In real arithmetic the similarity of two vectors, of equal
    lengths or not, lies between -1 and 1. *)
Theorem cosine_similarity_range (vec1 vec2 : list R) :
  exists s, cosine_similarity vec1 vec2 = Ok s /\ (-1 <= s <= 1)%R.
Proof.
  exists (cosine vec1 vec2).
  split; [apply cosine_similarity_cosine | apply cosine_range].
Qed.








(** ** Alignment of documents and vectors *)

Section Alignment.

Import EmbeddingSearchIndex.

Context {E : Type} (embedder : Embedder E).
Hypothesis Hanswers : answers_aligned embedder.

Lemma slice_map_length (docs : list document) (i j : nat) :
  length (map embed_input (slice i j docs)) = length (slice i j docs).
Proof. apply length_map. Qed.

Lemma batch_body_aligned (docs : list document) (b i : nat) (w w' : world E)
    (r : pyresult unit) :
  aligned (index w) ->
  batch_body embedder docs b i w = (r, w') ->
  aligned (index w').
Proof.
  unfold aligned. intros Hal.
  unfold batch_body, try_except, call_embed_texts, raise, sleep, extend.
  unfold mbind, M_bind, mret, M_ret.
  destruct (embed_texts embedder (map embed_input (slice i (i + b) docs))
              (provider w)) as [[message|vectors] e1] eqn:H1; simpl.
  - destruct (is_rate_limit (EmbedderError message)); simpl;
      [|intros [= <- <-]; exact Hal].
    destruct (embed_texts embedder (map embed_input (slice i (i + b) docs)) e1)
      as [[message2|vectors] e2] eqn:H2; simpl.
    + intros [= <- <-]. exact Hal.
    + apply Hanswers in H2. rewrite slice_map_length in H2.
      destruct (i + b <? length docs); intros [= <- <-]; simpl;
        rewrite !length_app; lia.
  - apply Hanswers in H1. rewrite slice_map_length in H1.
    destruct (i + b <? length docs); intros [= <- <-]; simpl;
      rewrite !length_app; lia.
Qed.

Lemma for_loop_aligned (docs : list document) (b : nat) (starts : list nat)
    (w w' : world E) (r : pyresult unit) :
  aligned (index w) ->
  for_loop (batch_body embedder docs b) starts w = (r, w') ->
  aligned (index w').
Proof.
  revert w. induction starts as [|i starts IH]; intros w Hal; simpl.
  - intros [= <- <-]. exact Hal.
  - unfold mbind, M_bind.
    destruct (batch_body embedder docs b i w) as [[[]|e] w1] eqn:Hbody.
    + apply IH. now apply (batch_body_aligned docs b i w w1 (Ok tt)).
    + intros [= <- <-]. now apply (batch_body_aligned docs b i w w1 (Raise e)).
Qed.

End Alignment.

(** X16.  When the provider answers every batch with one vector per
    text, [add_documents] keeps documents and vectors aligned: however
    the ingestion ends, with or without a retry, with or without an
    exception, the index has as many vectors as documents. *)
Theorem add_documents_keeps_alignment {E : Type} (embedder : Embedder E)
    (docs : list document) (batch_size : Z)
    (w w' : EmbeddingSearchIndex.world E) (r : pyresult unit) :
  answers_aligned embedder ->
  aligned (EmbeddingSearchIndex.index w) ->
  EmbeddingSearchIndex.add_documents embedder docs batch_size w = (r, w') ->
  aligned (EmbeddingSearchIndex.index w').
Proof.
  intros Hanswers Hal.
  unfold EmbeddingSearchIndex.add_documents, EmbeddingSearchIndex.lift.
  unfold mbind at 1, EmbeddingSearchIndex.M_bind at 1.
  destruct (py_range (length docs) batch_size) as [starts|e].
  - now apply for_loop_aligned.
  - intros [= <- <-]. exact Hal.
Qed.

Lemma limited_embedder_aligned : answers_aligned limited_embedder.
Proof.
  intros texts calls vectors e'. simpl.
  destruct (calls =? 1); [discriminate|].
  intros [= <- <-]. apply length_map.
Qed.

Lemma add_documents_keeps_alignment_witness :
  aligned (EmbeddingSearchIndex.index
             (EmbeddingSearchIndex.add_documents limited_embedder docs_three 2
                (fresh 0)).2).
Proof.
  apply (add_documents_keeps_alignment limited_embedder docs_three 2 (fresh 0) _
           (EmbeddingSearchIndex.add_documents limited_embedder docs_three 2
              (fresh 0)).1).
  - exact limited_embedder_aligned.
  - reflexivity.
  - now destruct (EmbeddingSearchIndex.add_documents limited_embedder docs_three 2
                    (fresh 0)).
Defined.

(** ** The embedding search *)

Lemma similarity_step (query_embedding : list R) (sims : list (nat * R))
    (i : nat) (v : list R) :
  EmbeddingSearchIndex.similarity query_embedding sims (i, v) =
  Ok (sims ++ [(i, cosine query_embedding v)]).
Proof.
  unfold EmbeddingSearchIndex.similarity.
  now rewrite cosine_similarity_cosine.
Qed.

Lemma embedding_result_step (self : EmbeddingSearchIndex.t)
    (results : list EmbeddingSearchIndex.result) (d : nat) (s : R)
    (doc : document) :
  EmbeddingSearchIndex.documents self !! d = Some doc ->
  EmbeddingSearchIndex.build_result self results (d, s) =
  Ok (results ++
      [EmbeddingSearchIndex.mk_result doc (round4 s)
         (PyStr.take 300 (doc_get doc "content") +:+ "...")]).
Proof.
  intros H. unfold EmbeddingSearchIndex.build_result, getitem. now rewrite H.
Qed.

Lemma similarities_ok (query_embedding : list R) (items : list (nat * list R))
    (sims : list (nat * R)) :
  for_each (EmbeddingSearchIndex.similarity query_embedding) items sims =
  Ok (sims ++ map (fun item : nat * list R =>
                     (item.1, cosine query_embedding item.2)) items).
Proof.
  revert sims. induction items as [|[i v] items IH]; intros sims.
  - simpl. now rewrite app_nil_r.
  - cbn [for_each]. rewrite similarity_step. cbn [mbind pyresult_bind].
    rewrite IH. simpl. now rewrite <- app_assoc.
Qed.

Lemma embedding_results_ok (self : EmbeddingSearchIndex.t)
    (ranked : list (nat * R)) (results0 : list EmbeddingSearchIndex.result) :
  Forall (fun e : nat * R => e.1 < length (EmbeddingSearchIndex.documents self))
         ranked ->
  exists results,
    for_each (EmbeddingSearchIndex.build_result self) ranked results0
    = Ok (results0 ++ results)
    /\ Forall2 (embedding_entry_of self) results ranked.
Proof.
  intros Hall. revert results0.
  induction Hall as [|[d s] ranked Hd _ IH]; intros results0.
  - exists []. split; [simpl; now rewrite app_nil_r | constructor].
  - simpl in Hd. apply lookup_lt_is_Some_2 in Hd as [doc Hdoc].
    cbn [for_each]. rewrite (embedding_result_step _ _ _ _ _ Hdoc).
    cbn [mbind pyresult_bind].
    match goal with |- context [for_each _ ranked ?acc] =>
      destruct (IH acc) as (results & Hrun & Hres) end.
    eexists (_ :: results). split.
    + rewrite Hrun. now rewrite <- app_assoc.
    + constructor; [|exact Hres]. now split.
Qed.

Lemma enumerate_bound {A : Type} (l : list A) (i : nat) (x : A) :
  In (i, x) (enumerate l) -> i < length l.
Proof.
  unfold enumerate. intros H. apply in_combine_l in H.
  apply in_seq in H. lia.
Qed.

(** X17.  The embedding search on an index where every vector has its
    document.  If the provider embeds the query, the search returns,
    with no threshold on the score, the documents of the
    [min(max_results, n)] most similar of the [n] vectors (all but the
    last [-max_results] for a negative [max_results]), the most similar
    first and ties in the order of the index.  If the provider fails,
    its failure reaches the caller: the result is not an empty list. *)
Theorem embedding_search_top_k {E : Type} (embedder : Embedder E)
    (self : EmbeddingSearchIndex.t) (query : string) (max_results : Z)
    (e : E) (events : list event) :
  length (EmbeddingSearchIndex.embeddings self)
    <= length (EmbeddingSearchIndex.documents self) ->
  let n := length (EmbeddingSearchIndex.embeddings self) in
  let run := EmbeddingSearchIndex.search embedder query max_results
               (EmbeddingSearchIndex.mk_world self e events) in
  let after e' := EmbeddingSearchIndex.mk_world self e'
                    (events ++ [EmbedQuery query]) in
  (forall message e',
     embed_query embedder query e = (inl message, e') ->
     run = (Raise (EmbedderError message), after e'))
  /\ (forall query_embedding e',
        embed_query embedder query e = (inr query_embedding, e') ->
        let ranked :=
          slice_to max_results
            (sorted_desc
               (similarities_of query_embedding
                  (EmbeddingSearchIndex.embeddings self))) in
        exists results,
          run = (Ok results, after e')
          /\ Forall2 (embedding_entry_of self) results ranked
          /\ StronglySorted score_ge ranked
          /\ length results =
             (if (0 <=? max_results)%Z then Nat.min (Z.to_nat max_results) n
              else n - Z.to_nat (- max_results))).
Proof.
  intros Hlen n run after. split.
  - intros message e' Hq. unfold run, EmbeddingSearchIndex.search,
      EmbeddingSearchIndex.call_embed_query.
    unfold mbind at 1, EmbeddingSearchIndex.M_bind at 1. simpl.
    now rewrite Hq.
  - intros qv e' Hq ranked.
    assert (Hbound : Forall (fun e0 : nat * R =>
                       e0.1 < length (EmbeddingSearchIndex.documents self)) ranked).
    { apply List.Forall_forall. intros [i s] Hin. simpl.
      apply slice_to_in in Hin.
      apply (Permutation_in _ (sorted_desc_perm _)) in Hin.
      unfold similarities_of in Hin. apply in_map_iff in Hin as ([j v] & Heq & Hj).
      injection Heq as <- _. apply enumerate_bound in Hj. simpl. lia. }
    destruct (embedding_results_ok self ranked [] Hbound) as (results & Hrun & Hres).
    exists results. split; [|split; [exact Hres|split]].
    + unfold run, EmbeddingSearchIndex.search,
        EmbeddingSearchIndex.call_embed_query, EmbeddingSearchIndex.get_self,
        EmbeddingSearchIndex.lift.
      unfold mbind, EmbeddingSearchIndex.M_bind. simpl. rewrite Hq. simpl.
      rewrite similarities_ok. simpl.
      fold (similarities_of qv (EmbeddingSearchIndex.embeddings self)).
      fold ranked. now rewrite Hrun.
    + apply slice_to_sorted, sorted_desc_sorted.
    + rewrite (Forall2_length _ _ _ Hres). unfold ranked.
      rewrite slice_to_length, (Permutation_length (sorted_desc_perm _)).
      unfold similarities_of, enumerate.
      rewrite length_map, length_combine, length_seq, Nat.min_id.
      reflexivity.
Qed.

Lemma embedding_search_top_k_witness :
  exists results,
    EmbeddingSearchIndex.search steady_embedder "fence" 2
      (EmbeddingSearchIndex.mk_world index_three tt [])
    = (Ok results, EmbeddingSearchIndex.mk_world index_three tt [EmbedQuery "fence"])
    /\ length results = 2.
Proof.
  destruct (embedding_search_top_k steady_embedder index_three "fence" 2 tt [])
    as [_ H]; [simpl; lia|].
  destruct (H [1%R] tt eq_refl) as (results & Hrun & _ & _ & Hlen).
  exists results. split; [exact Hrun | exact Hlen].
Defined.

(** ** The tool handlers *)

Lemma startswith_spec (s p : string) :
  PyStr.startswith s p = true <-> exists rest, s = p +:+ rest.
Proof.
  revert s. induction p as [|a p IH]; intros s.
  - split; [intros _; now exists s | intros _; now destruct s].
  - destruct s as [|b s]; simpl.
    + split; [discriminate | intros [rest H]; discriminate H].
    + rewrite andb_true_iff, Ascii.eqb_eq, IH. split.
      * intros [-> [rest ->]]. now exists rest.
      * intros [rest H]. rewrite string_app_cons in H. injection H as -> ->.
        split; [reflexivity | now exists rest].
Qed.

Lemma find_from_eq (i : nat) (s sub : string) :
  PyStr.find_from i s sub =
  if PyStr.startswith s sub then Some i
  else match s with
       | EmptyString => None
       | String _ s' => PyStr.find_from (S i) s' sub
       end.
Proof. destruct s; reflexivity. Qed.

Lemma find_from_spec (s sub : string) (i : nat) :
  PyStr.find_from i s sub <> None <-> substring_of sub s.
Proof.
  revert i. induction s as [|c s IH]; intros i; rewrite find_from_eq.
  - destruct (PyStr.startswith "" sub) eqn:Hs.
    + split; [intros _ | discriminate].
      apply startswith_spec in Hs as [rest Hs]. now exists "", rest.
    + split; [congruence|]. intros (before & after & H). exfalso.
      destruct before; [|discriminate H].
      rewrite string_app_nil_l in H.
      assert (PyStr.startswith "" sub = true)
        by (apply startswith_spec; now exists after).
      congruence.
  - destruct (PyStr.startswith (String c s) sub) eqn:Hs.
    + split; [intros _ | discriminate].
      apply startswith_spec in Hs as [rest Hs]. now exists "", rest.
    + rewrite IH. split.
      * intros (before & after & ->). now exists (String c before), after.
      * intros (before & after & H). destruct before as [|b before].
        -- rewrite string_app_nil_l in H.
           assert (PyStr.startswith (String c s) sub = true)
             by (apply startswith_spec; now exists after).
           congruence.
        -- rewrite string_app_cons in H. injection H as _ ->.
           now exists before, after.
Qed.

(** [sub in s] is true exactly when [sub] occurs in [s]. *)
Lemma contains_spec (s sub : string) :
  PyStr.contains s sub = true <-> substring_of sub s.
Proof.
  unfold PyStr.contains, PyStr.find. rewrite <- (find_from_spec s sub 0).
  destruct (PyStr.find_from 0 s sub); split; congruence.
Qed.

Lemma find_first {A : Type} (p : A -> bool) (before after : list A) (x : A) :
  Forall (fun y => p y = false) before -> p x = true ->
  List.find p (before ++ x :: after) = Some x.
Proof.
  induction 1 as [|y before Hy _ IH]; intros Hx; simpl.
  - now rewrite Hx.
  - rewrite Hy. now apply IH.
Qed.

Lemma find_none_iff {A : Type} (p : A -> bool) (l : list A) :
  List.find p l = None <-> Forall (fun y => p y = false) l.
Proof.
  induction l as [|y l IH]; simpl.
  - split; [constructor | reflexivity].
  - destruct (p y) eqn:Hy.
    + split; [discriminate|]. intros H. inversion H; congruence.
    + rewrite IH. split; [now constructor | intros H; now inversion H].
Qed.

Lemma title_matches_spec (title : string) (doc : document) :
  Server.title_matches title doc = true <->
  substring_of (PyStr.lower title) (PyStr.lower (doc_get doc "title")).
Proof. apply contains_spec. Qed.

Lemma is_empty_true (s : string) : PyStr.is_empty s = true <-> s = "".
Proof. destruct s; simpl; split; congruence. Qed.

(** X18.  [handle_get_details] returns the first document, in the order
    of the index, whose title contains the title asked for, whatever the
    case of either; the reply is not an error. *)
Theorem get_details_first_match (index : SearchIndex.t) (args : Server.arguments)
    (title : string) (before after : list document) (doc : document) :
  Server.arg_title args = Some title ->
  title <> "" ->
  SearchIndex.documents index = before ++ doc :: after ->
  Forall (fun d => ~ substring_of (PyStr.lower title)
                       (PyStr.lower (doc_get d "title"))) before ->
  substring_of (PyStr.lower title) (PyStr.lower (doc_get doc "title")) ->
  Server.handle_get_details index args
  = Server.mk_reply (Server.details_text doc) false.
Proof.
  intros Harg Hne Hdocs Hbefore Hdoc.
  unfold Server.handle_get_details. rewrite Harg. simpl default.
  destruct (PyStr.is_empty title) eqn:He; [now apply is_empty_true in He|].
  rewrite Hdocs, (find_first _ before after doc); [reflexivity| |].
  - eapply List.Forall_impl; [|exact Hbefore]. intros d Hd. simpl in Hd.
    destruct (Server.title_matches title d) eqn:Hm; [|reflexivity].
    now apply title_matches_spec in Hm.
  - now apply title_matches_spec.
Qed.

Lemma get_details_first_match_witness :
  Server.handle_get_details
    (SearchIndex.add_all SearchIndex.init docs_fences)
    (Server.mk_arguments None None (Some "NOIS"))
  = Server.mk_reply (Server.details_text (doc_with "Noise" "noise")) false.
Proof.
  apply (get_details_first_match _ _ "NOIS" [doc_with "Fences" "fences"] []).
  - reflexivity.
  - discriminate.
  - reflexivity.
  - constructor; [|constructor].
    intros H. apply title_matches_spec in H. vm_compute in H. discriminate H.
  - apply title_matches_spec. vm_compute. reflexivity.
Defined.

(** X19.  The other replies of [handle_get_details]: a missing or empty
    title is an error reply; a title that no document title contains is
    answered, without error, by a text that quotes the title as it was
    given. *)
Theorem get_details_no_match (index : SearchIndex.t) (args : Server.arguments) :
  let title := default "" (Server.arg_title args) in
  (title = "" ->
   Server.handle_get_details index args
   = Server.mk_reply "Error: No title provided" true)
  /\ (title <> "" ->
      Forall (fun d => ~ substring_of (PyStr.lower title)
                          (PyStr.lower (doc_get d "title")))
             (SearchIndex.documents index) ->
      Server.handle_get_details index args
      = Server.mk_reply
          ("No ordinance found with title matching '" +:+ title +:+ "'") false).
Proof.
  intros title. unfold Server.handle_get_details. fold title. split.
  - intros ->. reflexivity.
  - intros Hne Hnone.
    destruct (PyStr.is_empty title) eqn:He; [now apply is_empty_true in He|].
    assert (Hfind : List.find (Server.title_matches title)
                      (SearchIndex.documents index) = None).
    { apply find_none_iff. eapply List.Forall_impl; [|exact Hnone].
      intros d Hd. simpl in Hd.
      destruct (Server.title_matches title d) eqn:Hm; [|reflexivity].
      now apply title_matches_spec in Hm. }
    now rewrite Hfind.
Qed.

Lemma build_results_with_content (self : SearchIndex.t) (query_tokens : list string)
    (matched : gmap nat (gset string)) (ranked : list (nat * R))
    (results : list SearchIndex.result) :
  Forall (fun d : document => is_Some (d !! "content")) (SearchIndex.documents self) ->
  Forall (fun e : nat * R => e.1 < length (SearchIndex.documents self)) ranked ->
  exists r,
    for_each (SearchIndex.build_result self query_tokens matched) ranked results
    = Ok r.
Proof.
  intros Hcontent Hall. revert results.
  induction Hall as [|[d s] ranked Hd _ IH]; intros results.
  - now exists results.
  - cbn [for_each].
    simpl in Hd. apply lookup_lt_is_Some_2 in Hd as [doc Hdoc].
    rewrite (build_result_step _ _ _ _ _ _ _ Hdoc).
    assert (Hc : is_Some (doc !! "content")).
    { rewrite List.Forall_forall in Hcontent. apply Hcontent.
      apply list_elem_of_In. now apply list_elem_of_lookup_2 in Hdoc. }
    destruct Hc as [content Hc]. rewrite Hc. cbn [mbind pyresult_bind].
    apply IH.
Qed.

Lemma search_with_content (self : SearchIndex.t) (query : string) (k : Z) :
  index_wf self ->
  Forall (fun d : document => is_Some (d !! "content")) (SearchIndex.documents self) ->
  exists results, SearchIndex.search self query k = Ok results.
Proof.
  intros Hwf Hcontent. unfold SearchIndex.search.
  destruct (map simple_stem (tokenize query)) as [|t stems] eqn:Hstems.
  - now exists [].
  - destruct (accumulate_scores self (t :: stems) Hwf) as (acc & Hacc & _).
    rewrite Hacc. cbn [mbind pyresult_bind].
    apply build_results_with_content; [exact Hcontent|].
    now apply (ranked_in_bounds self (t :: stems)).
Qed.

Lemma search_no_indexed_stem (self : SearchIndex.t) (query : string) (k : Z) :
  Forall (fun t => SearchIndex.inverted_index self !! t = None) (stems_of query) ->
  SearchIndex.search self query k = Ok [].
Proof.
  intros H. unfold SearchIndex.search. fold (stems_of query).
  destruct (stems_of query) as [|t stems]; [reflexivity|].
  unfold SearchIndex.accumulate. rewrite (accumulate_no_term _ _ _ H).
  cbn [mbind pyresult_bind fst]. unfold sorted_desc. simpl fold_right.
  now rewrite slice_to_nil.
Qed.

(** X20.  The replies of [handle_search] that do not list results.  A
    missing or empty query is an error reply and the index is not
    searched.  A query none of whose stems is indexed (stop words only,
    unknown words) gets a reply that is not an error and that quotes the
    query.  The number of results asked for is capped at 10: asking for
    more is the same as asking for 10. *)
Theorem handle_search_replies (format_score : R -> string)
    (index : SearchIndex.t) (args : Server.arguments) :
  let query := default "" (Server.arg_query args) in
  (query = "" ->
   Server.handle_search format_score index args
   = Ok (Server.mk_reply "Error: No query provided" true))
  /\ (query <> "" ->
      Forall (fun t => SearchIndex.inverted_index index !! t = None)
             (stems_of query) ->
      Server.handle_search format_score index args
      = Ok (Server.mk_reply
              ("No ordinances found matching '" +:+ query
               +:+ "'. Try different keywords.") false))
  /\ (forall k,
        (10 <= k)%Z ->
        Server.handle_search format_score index
          (Server.mk_arguments (Server.arg_query args) (Some k)
             (Server.arg_title args))
        = Server.handle_search format_score index
            (Server.mk_arguments (Server.arg_query args) (Some 10%Z)
               (Server.arg_title args))).
Proof.
  intros query. split; [|split].
  - intros H. unfold Server.handle_search. fold query. now rewrite H.
  - intros Hne Hnone. unfold Server.handle_search. fold query.
    destruct (PyStr.is_empty query) eqn:He; [now apply is_empty_true in He|].
    now rewrite (search_no_indexed_stem _ _ _ Hnone).
  - intros k Hk. unfold Server.handle_search. simpl.
    now rewrite (Z.min_r k 10) by lia.
Qed.

(** X21.  [call_tool] on the index of a list of documents.  The reply
    to [search_ordinance] is an error reply only for a missing or empty
    query or when a document of the result has no [content] key, which
    is reported as text and not raised; when every document has a
    content, it is an error reply exactly for a missing or empty query.
    An unknown tool name is an error reply. *)
Theorem call_tool_error_replies (format_score : R -> string)
    (docs : list document) (args : Server.arguments) :
  exists index,
    SearchIndex.build_index docs = Ok index
    /\ let reply := Server.call_tool format_score index "search_ordinance" args in
       (Server.isError reply = true ->
        Server.text reply = "Error: No query provided"
        \/ Server.text reply = "Error executing search_ordinance: 'content'")
       /\ (Forall (fun d : document => is_Some (d !! "content")) docs ->
           (Server.isError reply = true <->
            default "" (Server.arg_query args) = ""))
       /\ (forall name,
             name <> "search_ordinance" -> name <> "get_ordinance_details" ->
             Server.call_tool format_score index name args
             = Server.mk_reply ("Unknown tool: " +:+ name) true).
Proof.
  destruct (build_index_ok docs) as (index & Hbuild & Hwf & Hdocs & _).
  exists index. split; [exact Hbuild|].
  assert (Hd : SearchIndex.documents index = docs).
  { rewrite Hdocs.
    now destruct (add_all_fields docs SearchIndex.init) as (H & _). }
  cbv zeta. unfold Server.call_tool. rewrite String.eqb_refl.
  unfold Server.handle_search.
  destruct (PyStr.is_empty (default "" (Server.arg_query args))) eqn:He.
  - apply is_empty_true in He. simpl. split; [now left|]. split.
    + intros _. split; [intros _; exact He | reflexivity].
    + intros name H1 H2. apply String.eqb_neq in H1, H2. now rewrite H1, H2.
  - assert (Hne : default "" (Server.arg_query args) <> "").
    { intros H. apply is_empty_true in H. congruence. }
    split; [|split].
    + destruct (search_in_bounds index (default "" (Server.arg_query args))
                  (Z.min (default 5%Z (Server.arg_max_results args)) 10) Hwf)
        as [[results ->] | ->]; cbn [mbind pyresult_bind].
      * destruct results; simpl; discriminate.
      * simpl. intros _. now right.
    + intros Hcontent. rewrite <- Hd in Hcontent.
      destruct (search_with_content index (default "" (Server.arg_query args))
                  (Z.min (default 5%Z (Server.arg_max_results args)) 10)
                  Hwf Hcontent) as [results ->].
      cbn [mbind pyresult_bind].
      destruct results; simpl; split; congruence.
    + intros name H1 H2. apply String.eqb_neq in H1, H2. now rewrite H1, H2.
Qed.

(** ** The fields of a result *)

Lemma add_matched_elem (m : gmap nat (gset string)) (d d' : nat) (stem t : string) :
  t ∈ default ∅ (SearchIndex.add_matched m d stem !! d') <->
  t ∈ default ∅ (m !! d') \/ (t = stem /\ d' = d).
Proof.
  unfold SearchIndex.add_matched. destruct (decide (d = d')) as [->|Hne].
  - rewrite lookup_insert_eq. simpl. rewrite elem_of_union, elem_of_singleton.
    tauto.
  - rewrite lookup_insert_ne by exact Hne. split; [tauto|].
    intros [H | [_ H]]; [exact H | congruence].
Qed.

Lemma add_matches_elem (ds : list nat) (m : gmap nat (gset string)) (d : nat)
    (stem t : string) :
  t ∈ default ∅ (add_matches m stem ds !! d) <->
  t ∈ default ∅ (m !! d) \/ (t = stem /\ In d ds).
Proof.
  unfold add_matches. revert m. induction ds as [|d0 ds IH]; intros m; simpl.
  - tauto.
  - rewrite IH, add_matched_elem. split.
    + intros [[H | [H1 H2]] | [H1 H2]]; auto.
    + intros [H | [H1 [H2 | H2]]]; auto.
Qed.

Lemma pure_steps_matched (self : SearchIndex.t) (stems : list string)
    (acc : SearchIndex.scoring) (d : nat) (t : string) :
  t ∈ default ∅ ((fold_left (pure_step self) stems acc).2 !! d) <->
  t ∈ default ∅ (acc.2 !! d)
  \/ (In t stems /\ In d (map fst (postings_of self t))).
Proof.
  revert acc. induction stems as [|s stems IH]; intros acc; simpl.
  - tauto.
  - rewrite IH.
    change (pure_step self acc s).2
      with (add_matches acc.2 s (map fst (postings_of self s))).
    rewrite add_matches_elem. split.
    + intros [[H | [-> H]] | [H1 H2]]; auto.
    + intros [H | [[-> | H1] H2]]; auto.
Qed.

Lemma build_results_fields (self : SearchIndex.t) (query : string)
    (matched : gmap nat (gset string)) (ranked : list (nat * R))
    (results0 results : list SearchIndex.result) :
  (forall d t, t ∈ default ∅ (matched !! d) <->
               In t (stems_of query) /\ In d (map fst (postings_of self t))) ->
  for_each (SearchIndex.build_result self (tokenize query) matched) ranked results0
  = Ok results ->
  exists added,
    results = results0 ++ added /\ Forall2 (result_of self query) added ranked.
Proof.
  intros Hmatched. revert results0.
  induction ranked as [|[d s] ranked IH]; intros results0 H.
  - injection H as <-. exists []. split; [now rewrite app_nil_r | constructor].
  - cbn [for_each] in H.
    destruct (SearchIndex.documents self !! d) as [doc|] eqn:Hdoc.
    + rewrite (build_result_step _ _ _ _ _ _ _ Hdoc) in H.
      destruct (doc !! "content") as [content|] eqn:Hc; [|discriminate H].
      cbn [mbind pyresult_bind] in H.
      apply IH in H as (added & -> & Hadded).
      eexists (_ :: added). split; [now rewrite <- app_assoc|].
      constructor; [|exact Hadded].
      split; [exact Hdoc|]. split; [reflexivity|]. split.
      * intros t. apply Hmatched.
      * now exists content.
    + unfold SearchIndex.build_result, getitem in H. rewrite Hdoc in H.
      discriminate H.
Qed.

(** X22.  What a result of [search] holds: the document of the ranked
    entry, its accumulated score rounded to four decimals, as matched
    terms exactly the stems of the query that the document has (at least
    one), and the snippet of its content for the tokens of the query
    before stemming. *)
Theorem search_result_fields (docs : list document) :
  exists self,
    SearchIndex.build_index docs = Ok self
    /\ forall query max_results results,
         SearchIndex.search self query max_results = Ok results ->
         exists ranked,
           SearchIndex.ranked_docs self query max_results = Ok ranked
           /\ Forall2 (result_of self query) results ranked
           /\ Forall (fun r => exists t, t ∈ SearchIndex.matched_terms r) results.
Proof.
  destruct (build_index_ok docs) as (self & Hbuild & Hwf & _).
  exists self. split; [exact Hbuild|]. intros query k results Hs.
  destruct (ranked_docs_order self query k Hwf) as (ranked & Hranked & _).
  exists ranked. split; [exact Hranked|].
  pose proof (ranked_shape self query k ranked Hwf Hranked) as (_ & _ & Hmatch).
  unfold SearchIndex.search in Hs. unfold SearchIndex.ranked_docs in Hranked.
  fold (stems_of query) in Hs, Hranked.
  rewrite (accumulate_ok self Hwf) in Hs, Hranked.
  cbn [mbind pyresult_bind] in Hranked. injection Hranked as <-.
  assert (Hall : Forall2 (result_of self query) results
                   (slice_to k (sorted_desc
                      (fold_left (pure_step self) (stems_of query) ([], ∅)).1))).
  { destruct (stems_of query) as [|t stems] eqn:Hstems.
    - injection Hs as <-. simpl. unfold sorted_desc. simpl.
      rewrite slice_to_nil. constructor.
    - cbn [mbind pyresult_bind] in Hs. rewrite <- Hstems in *.
      apply (build_results_fields self query) in Hs as (added & -> & Hadded);
        [exact Hadded|].
      intros d t'. rewrite pure_steps_matched. simpl.
      rewrite lookup_empty. simpl. split; [|tauto].
      intros [H | H]; [|exact H]. now apply not_elem_of_empty in H. }
  split; [exact Hall|].
  clear Hs. induction Hall as [|r e rs es Hr _ IH]; [constructor|].
  inversion Hmatch as [|? ? (t & Ht & Hd) Hmatch']; subst.
  constructor; [|now apply IH].
  exists t. destruct Hr as (_ & _ & Hm & _). apply Hm. now split.
Qed.

(** ** Asking for fewer results *)

Lemma for_each_app {A B : Type} (body : A -> B -> pyresult A) (xs ys : list B)
    (a : A) :
  for_each body (xs ++ ys) a = for_each body xs a ≫= for_each body ys.
Proof.
  revert a. induction xs as [|x xs IH]; intros a; [reflexivity|].
  cbn [app for_each]. destruct (body a x) as [a'|e]; [|reflexivity].
  cbn [mbind pyresult_bind]. apply IH.
Qed.

Lemma firstn_prefix {A : Type} (k k' : nat) (l : list A) :
  k <= k' -> firstn k l = firstn k (firstn k' l).
Proof. intros H. rewrite firstn_firstn. f_equal. lia. Qed.

(** X23.  Asking for fewer results gives the first results of what
    asking for more gives: for [0 <= k <= k'], when the search for [k']
    results returns a list, the search for [k] results returns its first
    [k] entries. *)
Theorem search_fewer_is_prefix (self : SearchIndex.t) (query : string) (k k' : Z)
    (results' : list SearchIndex.result) :
  (0 <= k <= k')%Z ->
  SearchIndex.search self query k' = Ok results' ->
  SearchIndex.search self query k = Ok (firstn (Z.to_nat k) results').
Proof.
  intros Hk. unfold SearchIndex.search.
  destruct (map simple_stem (tokenize query)) as [|t stems].
  - intros [= <-]. now rewrite firstn_nil.
  - destruct (SearchIndex.accumulate self (t :: stems)) as [acc|e];
      [|discriminate].
    cbn [mbind pyresult_bind]. unfold slice_to.
    destruct (Z.leb_spec 0 k) as [_|]; [|lia].
    destruct (Z.leb_spec 0 k') as [_|]; [|lia].
    set (l := sorted_desc acc.1).
    rewrite (firstn_prefix (Z.to_nat k) (Z.to_nat k') l) by lia.
    set (l' := firstn (Z.to_nat k') l). set (n := Z.to_nat k).
    rewrite <- (firstn_skipn n l') at 1. rewrite for_each_app.
    destruct (for_each (SearchIndex.build_result self (tokenize query) acc.2)
                (firstn n l') []) as [r1|e] eqn:H1; [|discriminate].
    cbn [mbind pyresult_bind]. intros H2. f_equal.
    apply build_results_follow in H1 as (added1 & -> & Hlen1).
    apply build_results_follow in H2 as (added2 & -> & Hlen2).
    apply Forall2_length in Hlen1, Hlen2. simpl app in *.
    rewrite length_firstn in Hlen1. rewrite length_skipn in Hlen2.
    destruct (Nat.le_gt_cases n (length l')) as [Hle|Hgt].
    + rewrite firstn_app, firstn_all2 by lia.
      replace (n - length added1) with 0 by lia. now rewrite app_nil_r.
    + assert (added2 = []) by (destruct added2; [reflexivity | simpl in *; lia]).
      subst added2. rewrite app_nil_r. symmetry. apply firstn_all2. lia.
Qed.

Lemma search_fewer_is_prefix_witness :
  exists results',
    SearchIndex.search (SearchIndex.add_all SearchIndex.init docs_fences)
      "fences noise" 5 = Ok results'
    /\ SearchIndex.search (SearchIndex.add_all SearchIndex.init docs_fences)
         "fences noise" 1 = Ok (firstn 1 results').
Proof.
  destruct (search_with_content
              (SearchIndex.add_all SearchIndex.init docs_fences)
              "fences noise" 5) as [results' H].
  - apply add_all_wf, init_wf.
  - repeat constructor; vm_compute; eauto.
  - exists results'. split; [exact H|].
    apply (search_fewer_is_prefix _ _ 1 5 results'); [lia | exact H].
Defined.

(** ** A batch size that is not positive *)

(** X24.  [add_documents] embeds nothing when the batch size is not
    positive: for 0, [range] raises [ValueError] before any call of the
    provider; for a negative size there is no batch, and the call returns
    without exception, without event and with the index as it was. *)
Theorem add_documents_nonpositive_batch {E : Type} (embedder : Embedder E)
    (docs : list document) (batch_size : Z)
    (w : EmbeddingSearchIndex.world E) :
  (batch_size = 0%Z ->
   EmbeddingSearchIndex.add_documents embedder docs batch_size w
   = (Raise ValueError, w))
  /\ ((batch_size < 0)%Z ->
      EmbeddingSearchIndex.add_documents embedder docs batch_size w = (Ok tt, w)).
Proof.
  unfold EmbeddingSearchIndex.add_documents, EmbeddingSearchIndex.lift, py_range.
  unfold mbind, EmbeddingSearchIndex.M_bind. split.
  - intros ->. reflexivity.
  - intros Hneg.
    destruct (Z.eqb_spec batch_size 0) as [|_]; [lia|].
    destruct (Z.ltb_spec batch_size 0) as [_|]; [reflexivity | lia].
Qed.
